(** * Prompt Editor: export utilities and disk mirror

    A shallow embedding of [app/utils/export.py] and
    [app/utils/filesystem.py], and the properties of the Markdown degrader,
    the filename sanitizer, the export formatter and the disk mirror.

    Text.  A Python [str] is modelled as a list of 8-bit characters
    ([list ascii]); the model is exact on ASCII text.  The character classes
    of [re] and [str] are the ASCII part of Python's: [\s] and
    [str.strip()] use the ten ASCII characters for which [str.isspace] holds,
    [\d] is [0-9], [.] is every character but the line feed, [str.upper]
    maps [a-z] to [A-Z].  Characters above 127 are kept as they are and
    belong to no class but [.] and the negated sets.

    The file has three parts: the program, then the vocabulary of the
    properties, then the properties and their proofs. *)

From Stdlib Require Import Ascii String ZArith Lia Bool DecimalString.
From stdpp Require Import base option list gmap strings.

Local Open Scope char_scope.
Local Open Scope list_scope.
Local Open Scope nat_scope.

(** ** Text *)

Abbreviation text := (list ascii).

Definition txt (s : string) : text := list_ascii_of_string s.

Definition NL : ascii := "010".
Definition DQUOTE : ascii := "034".

Definition code (c : ascii) : nat := nat_of_ascii c.

(** [str.isspace] on ASCII: TAB, LF, VT, FF, CR, FS, GS, RS, US and space. *)
Definition is_space (c : ascii) : bool :=
  ((9 <=? code c) && (code c <=? 13) || (28 <=? code c) && (code c <=? 32))%nat.

Definition is_digit (c : ascii) : bool := ((48 <=? code c) && (code c <=? 57))%nat.

Definition upper_char (c : ascii) : ascii :=
  if ((97 <=? code c) && (code c <=? 122))%nat
  then ascii_of_nat (code c - 32) else c.

(** [str.upper] *)
Definition upper (s : text) : text := map upper_char s.

Fixpoint drop_while (P : ascii -> bool) (s : text) : text :=
  match s with
  | [] => []
  | c :: s' => if P c then drop_while P s' else s
  end.

Definition lstrip_by (P : ascii -> bool) (s : text) : text := drop_while P s.
Definition rstrip_by (P : ascii -> bool) (s : text) : text :=
  rev (drop_while P (rev s)).

Definition one_of (cs : text) (c : ascii) : bool := existsb (Ascii.eqb c) cs.

(** [s.strip()] and [s.strip(chars)] *)
Definition strip (s : text) : text := rstrip_by is_space (lstrip_by is_space s).
Definition strip_chars (cs : text) (s : text) : text :=
  rstrip_by (one_of cs) (lstrip_by (one_of cs) s).

(** [s.startswith(p)] *)
Fixpoint startswith (p s : text) : bool :=
  match p, s with
  | [], _ => true
  | a :: p', b :: s' => Ascii.eqb a b && startswith p' s'
  | _ :: _, [] => false
  end.

(** ** Regular expressions

    The patterns of the two modules are all of one shape: a sequence of
    anchors and of quantified single-character classes, some of them
    captured as a group.  [item] is that shape; [match_items] is the
    backtracking matcher of [re] for it: a greedy quantifier tries the
    longest repetition first, a lazy one the shortest, and the first
    success of the rest of the pattern wins.  [Bol] and [Eol] are [^] and
    [$] under [re.MULTILINE], the only mode in which the source uses them. *)

Inductive greed := Greedy | Lazy.

Inductive item :=
| Bol
| Eol
| Rep (cap : bool) (cls : ascii -> bool) (lo : nat) (hi : option nat) (g : greed).

(** What a match yields: the captured groups, in order, and the text left
    after the match. *)
Definition outcome : Type := option (list text * text).

(** A continuation takes the character before the current position, the
    text from the current position on, and the groups captured so far. *)
Definition cont : Type := option ascii -> text -> list text -> outcome.

Definition at_bol (prev : option ascii) : bool :=
  match prev with None => true | Some c => Ascii.eqb c NL end.

Definition at_eol (s : text) : bool :=
  match s with [] => true | c :: _ => Ascii.eqb c NL end.

Definition may_take (hi : option nat) : bool :=
  match hi with Some 0 => false | _ => true end.

Definition close_group (cap : bool) (acc : text) (gs : list text) : list text :=
  if cap then gs ++ [rev acc] else gs.

(** [rep cls g cap k lo hi prev s acc gs]: repeat the class [cls] at least
    [lo] and at most [hi] more times on [s], then continue with [k]; [acc]
    holds the characters repeated so far, last first. *)
Fixpoint rep (cls : ascii -> bool) (g : greed) (cap : bool) (k : cont)
    (lo : nat) (hi : option nat) (prev : option ascii) (s : text)
    (acc : text) (gs : list text) {struct s} : outcome :=
  match g with
  | Greedy =>
      match
        match s with
        | c :: s' =>
            if cls c && may_take hi
            then rep cls g cap k (pred lo) (pred <$> hi) (Some c) s' (c :: acc) gs
            else None
        | [] => None
        end
      with
      | Some r => Some r
      | None =>
          match lo with
          | O => k prev s (close_group cap acc gs)
          | S _ => None
          end
      end
  | Lazy =>
      match
        match lo with
        | O => k prev s (close_group cap acc gs)
        | S _ => None
        end
      with
      | Some r => Some r
      | None =>
          match s with
          | c :: s' =>
              if cls c && may_take hi
              then rep cls g cap k (pred lo) (pred <$> hi) (Some c) s' (c :: acc) gs
              else None
          | [] => None
          end
      end
  end.

Fixpoint match_items (p : list item) : cont :=
  match p with
  | [] => fun _ s gs => Some (gs, s)
  | Bol :: p' => fun prev s gs => if at_bol prev then match_items p' prev s gs else None
  | Eol :: p' => fun prev s gs => if at_eol s then match_items p' prev s gs else None
  | Rep cap cls lo hi g :: p' =>
      fun prev s gs => rep cls g cap (match_items p') lo hi prev s [] gs
  end.

(** The scan of [re.sub] and [re.findall]: the text is cut, left to right,
    into the characters no match covers and the matches, which do not
    overlap.  [skip] counts the characters of the current match still to
    pass over.  A match that is empty is reported and the scan moves one
    character on (no pattern of the source can match the empty text, see
    [patterns_consume]). *)
Inductive piece :=
| Keep (c : ascii)
| Hit (whole : text) (groups : list text).

Fixpoint scan (p : list item) (prev : option ascii) (s : text) (skip : nat)
    {struct s} : list piece :=
  match s with
  | [] =>
      match skip with
      | O =>
          match match_items p prev [] [] with
          | Some (gs, _) => [Hit [] gs]
          | None => []
          end
      | S _ => []
      end
  | c :: s' =>
      match skip with
      | S n => scan p (Some c) s' n
      | O =>
          match match_items p prev s [] with
          | Some (gs, rest) =>
              let n := length s - length rest in
              Hit (take n s) gs ::
                match n with
                | O => Keep c :: scan p (Some c) s' 0
                | S n' => scan p (Some c) s' n'
                end
          | None => Keep c :: scan p (Some c) s' 0
          end
      end
  end.

(** [re.sub(p, repl, s)]; [repl] gets [m.group(0)] and the list of groups. *)
Definition re_sub (p : list item) (repl : text -> list text -> text) (s : text) : text :=
  flat_map (fun x => match x with Keep c => [c] | Hit w gs => repl w gs end)
           (scan p None s 0).

(** [re.findall(p, s)]: one entry per match. *)
Definition re_findall (p : list item) (s : text) : list (text * list text) :=
  flat_map (fun x => match x with Keep _ => [] | Hit w gs => [(w, gs)] end)
           (scan p None s 0).

(** Pattern atoms. *)
Definition chr (c : ascii) : ascii -> bool := fun x => Ascii.eqb x c.
Definition dot : ascii -> bool := fun x => negb (Ascii.eqb x NL).
Definition none_of (cs : text) : ascii -> bool := fun x => negb (one_of cs x).

Definition Lit (c : ascii) : item := Rep false (chr c) 1 (Some 1) Greedy.
Definition One (cls : ascii -> bool) : item := Rep false cls 1 (Some 1) Greedy.
(** [m.group(n)] for [n] from 1 on. *)
Definition group (n : nat) (gs : list text) : text := nth (pred n) gs [].

(** ** [export.py]: [sanitize_filename] *)

(** The nine characters of the class of [sanitize_filename]'s first
    pattern: less-than, greater-than, colon, double quote, slash, backslash,
    bar, question mark, star. *)
Definition invalid_chars : text :=
  ["<"; ">"; ":"; DQUOTE; "/"; "\"; "|"; "?"; "*"].

Definition sanitize_filename (filename : text) : text :=
  let filename := re_sub [One (one_of invalid_chars)] (fun _ _ => txt "_") filename in
  let filename := re_sub [Rep false (chr "_") 2 None Greedy] (fun _ _ => txt "_") filename in
  let filename := strip_chars (txt "_ ") filename in
  let filename := match filename with [] => txt "untitled" | _ => filename end in
  if 100 <? length filename then take 100 filename else filename.

(** ** [export.py]: [markdown_to_text] *)

(** The bullet U+2022 of the list replacement, as its three UTF-8 bytes. *)
Definition BULLET : text := ["226"; "128"; "162"].

(** [^#{1,6}\s*(.+)$] *)
Definition re_header : list item :=
  [Bol; Rep false (chr "#") 1 (Some 6) Greedy; Rep false is_space 0 None Greedy;
   Rep true dot 1 None Greedy; Eol].

(** [open(.+?)close] for a marker made of [n] copies of [c]: the patterns
    of the five emphasis passes and of the inline code pass. *)
Definition re_span (c : ascii) (n : nat) : list item :=
  repeat (Lit c) n ++ [Rep true dot 1 None Lazy] ++ repeat (Lit c) n.

(** [^```.*?\n] and [^```$] *)
Definition re_fence_open : list item :=
  [Bol; Lit "`"; Lit "`"; Lit "`"; Rep false dot 0 None Lazy; Lit NL].
Definition re_fence_close : list item :=
  [Bol; Lit "`"; Lit "`"; Lit "`"; Eol].

(** [\[([^\]]+)\]\(([^)]+)\)] *)
Definition re_link : list item :=
  [Lit "["; Rep true (none_of ["]"]) 1 None Greedy; Lit "]";
   Lit "("; Rep true (none_of [")"]) 1 None Greedy; Lit ")"].

(** [^>\s*(.+)$] *)
Definition re_quote : list item :=
  [Bol; Lit ">"; Rep false is_space 0 None Greedy; Rep true dot 1 None Greedy; Eol].

(** [^[\*\-\+]\s+(.+)$] *)
Definition re_ulist : list item :=
  [Bol; One (one_of ["*"; "-"; "+"]); Rep false is_space 1 None Greedy;
   Rep true dot 1 None Greedy; Eol].

(** [^\d+\.\s+(.+)$] *)
Definition re_olist : list item :=
  [Bol; Rep false is_digit 1 None Greedy; Lit "."; Rep false is_space 1 None Greedy;
   Rep true dot 1 None Greedy; Eol].

(** [^[\-\*_]{3,}$] *)
Definition re_rule : list item :=
  [Bol; Rep false (one_of ["-"; "*"; "_"]) 3 None Greedy; Eol].

(** [\n\s*\n\s*\n] *)
Definition re_blank : list item :=
  [Lit NL; Rep false is_space 0 None Greedy; Lit NL;
   Rep false is_space 0 None Greedy; Lit NL].

Definition sub_header (s : text) : text :=
  re_sub re_header (fun _ gs => upper (group 1 gs)) s.
Definition sub_span (c : ascii) (n : nat) (s : text) : text :=
  re_sub (re_span c n) (fun _ gs => group 1 gs) s.
Definition sub_fences (s : text) : text :=
  re_sub re_fence_close (fun _ _ => []) (re_sub re_fence_open (fun _ _ => []) s).
Definition sub_link (s : text) : text :=
  re_sub re_link (fun _ gs => group 1 gs ++ txt " (" ++ group 2 gs ++ txt ")") s.
Definition sub_quote (s : text) : text :=
  re_sub re_quote (fun _ gs => DQUOTE :: group 1 gs ++ [DQUOTE]) s.
Definition sub_ulist (s : text) : text :=
  re_sub re_ulist (fun _ gs => BULLET ++ " " :: group 1 gs) s.
Definition sub_olist (s : text) : text :=
  re_sub re_olist (fun whole _ => whole) s.
Definition sub_rule (s : text) : text :=
  re_sub re_rule (fun _ _ => []) s.
Definition sub_blank (s : text) : text :=
  re_sub re_blank (fun _ _ => [NL; NL]) s.

(** The emphasis passes, in the order of the source: bold italic, bold,
    italic, then the two underscore forms. *)
Definition sub_emphasis (s : text) : text :=
  sub_span "_" 1 (sub_span "_" 2 (sub_span "*" 1 (sub_span "*" 2 (sub_span "*" 3 s)))).

Definition markdown_to_text (markdown_content : text) : text :=
  match markdown_content with
  | [] => []
  | _ =>
      let text := markdown_content in
      let text := sub_header text in
      let text := sub_emphasis text in
      let text := sub_span "`" 1 text in
      let text := sub_fences text in
      let text := sub_link text in
      let text := sub_quote text in
      let text := sub_ulist text in
      let text := sub_olist text in
      let text := sub_rule text in
      let text := sub_blank text in
      strip text
  end.

(** ** The records of [models.py] *)

(** A [datetime]; [strftime] is modelled for the two formats of the source
    and [isoformat] as the standard library prints it, each field in
    decimal, padded with zeros to its width. *)
Record datetime := {
  year : nat; month : nat; day : nat;
  hour : nat; minute : nat; second : nat; microsecond : nat
}.

Definition decimal (n : nat) : text :=
  list_ascii_of_string (DecimalString.NilEmpty.string_of_uint (Nat.to_uint n)).

Definition pad (width : nat) (n : nat) : text :=
  let d := match n with O => ["0"] | _ => decimal n end in
  repeat "0" (width - length d) ++ d.

(** [strftime('%Y-%m-%d %H:%M:%S')] *)
Definition strftime_display (d : datetime) : text :=
  pad 4 (year d) ++ "-" :: pad 2 (month d) ++ "-" :: pad 2 (day d) ++ " " ::
  pad 2 (hour d) ++ ":" :: pad 2 (minute d) ++ ":" :: pad 2 (second d).

(** [strftime('%Y%m%d_%H%M%S')] *)
Definition strftime_compact (d : datetime) : text :=
  pad 4 (year d) ++ pad 2 (month d) ++ pad 2 (day d) ++ "_" ::
  pad 2 (hour d) ++ pad 2 (minute d) ++ pad 2 (second d).

(** [isoformat()] *)
Definition isoformat (d : datetime) : text :=
  pad 4 (year d) ++ "-" :: pad 2 (month d) ++ "-" :: pad 2 (day d) ++ "T" ::
  pad 2 (hour d) ++ ":" :: pad 2 (minute d) ++ ":" :: pad 2 (second d) ++
  match microsecond d with O => [] | us => "." :: pad 6 us end.

Record Folder := {
  folder_id : Z;
  folder_name : text;
  parent_id : option Z
}.

Record Template := {
  title : text;
  content : text;
  description : option text;
  template_folder_id : option Z;
  (** the [folder] relationship: the row [template_folder_id] refers to *)
  folder : option Folder;
  is_favorite : bool;
  created_at : datetime;
  updated_at : datetime
}.

(** ** [export.py]: [export_to_markdown], [export_to_text], [get_export_stats] *)

Definition lines_of (ls : list text) : text := flat_map (fun l => l ++ [NL]) ls.

(** [x or default] on an optional string: [None] and the empty string are
    both falsy. *)
Definition or_text (x : option text) (default : text) : text :=
  match x with Some (c :: s) => c :: s | _ => default end.

Definition folder_label (t : Template) : text :=
  match folder t with Some f => folder_name f | None => txt "Root" end.

Definition markdown_metadata (now : datetime) (t : Template) : text :=
  lines_of
    [ txt "---";
      txt "title: " ++ DQUOTE :: title t ++ [DQUOTE];
      txt "description: " ++ DQUOTE :: or_text (description t) [] ++ [DQUOTE];
      txt "created: " ++ strftime_display (created_at t);
      txt "updated: " ++ strftime_display (updated_at t);
      txt "folder: " ++ DQUOTE :: folder_label t ++ [DQUOTE];
      txt "favorite: " ++ (if is_favorite t then txt "true" else txt "false");
      txt "exported: " ++ strftime_display now;
      txt "---";
      [] ].

(** The body of the export: the content, with a title line before it when
    the stripped content does not start with [#]. *)
Definition markdown_body (t : Template) : text :=
  if negb (startswith ["#"] (strip (content t)))
  then txt "# " ++ title t ++ NL :: NL :: content t
  else content t.

Definition export_to_markdown (now : datetime) (t : Template) : text :=
  markdown_metadata now t ++ markdown_body t.

Definition text_header (now : datetime) (t : Template) : text :=
  lines_of
    [ txt "PROMPT TEMPLATE";
      txt "===============";
      [];
      txt "Title: " ++ title t;
      txt "Description: " ++ or_text (description t) (txt "No description");
      txt "Created: " ++ strftime_display (created_at t);
      txt "Updated: " ++ strftime_display (updated_at t);
      txt "Folder: " ++ folder_label t;
      txt "Favorite: " ++ (if is_favorite t then txt "Yes" else txt "No");
      txt "Exported: " ++ strftime_display now;
      [];
      repeat "=" 50;
      [] ].

Definition export_to_text (now : datetime) (t : Template) : text :=
  text_header now t ++ markdown_to_text (content t).

(** [s.split(sep)] for a one-character separator. *)
Fixpoint split_on (sep : ascii) (s : text) : list text :=
  match s with
  | [] => [[]]
  | c :: s' =>
      if Ascii.eqb c sep then [] :: split_on sep s'
      else match split_on sep s' with
           | l :: ls => (c :: l) :: ls
           | [] => [[c]]
           end
  end.

(** [len(s.split())]: the number of maximal runs of characters that are
    not white space; [inword] tells whether the previous character was in
    such a run. *)
Fixpoint count_words (inword : bool) (s : text) : nat :=
  match s with
  | [] => 0
  | c :: s' =>
      if is_space c then count_words false s'
      else (if inword then 0 else 1) + count_words true s'
  end.

(** [s.replace(' ', '')] *)
Definition remove_spaces (s : text) : text :=
  filter (fun c => c <> " ") s.

(** [^#{1,6}\s] *)
Definition re_stat_header : list item :=
  [Bol; Rep false (chr "#") 1 (Some 6) Greedy; One is_space].
(** [\*\*[^*]+\*\*] and [\*[^*]+\*] *)
Definition re_stat_bold : list item :=
  [Lit "*"; Lit "*"; Rep false (none_of ["*"]) 1 None Greedy; Lit "*"; Lit "*"].
Definition re_stat_italic : list item :=
  [Lit "*"; Rep false (none_of ["*"]) 1 None Greedy; Lit "*"].
(** Three backquotes. *)
Definition re_stat_fence : list item := [Lit "`"; Lit "`"; Lit "`"].
(** [`[^`]+`] *)
Definition re_stat_code : list item :=
  [Lit "`"; Rep false (none_of ["`"]) 1 None Greedy; Lit "`"].
(** [^[\*\-\+\d+\.]\s]: a set of the characters star, minus, plus, plus and
    full stop and of the class [\d]; inside a set, [+] and [.] stand for
    themselves. *)
Definition list_marker (c : ascii) : bool :=
  one_of ["*"; "-"; "+"] c || is_digit c || one_of ["+"; "."] c.
Definition re_stat_list : list item := [Bol; One list_marker; One is_space].

Record export_stats := {
  total_lines : nat;
  non_empty_lines : nat;
  words : nat;
  characters : nat;
  characters_no_spaces : nat;
  headers : nat;
  bold_text : nat;
  italic_text : nat;
  code_blocks : nat;
  inline_code : nat;
  links : nat;
  lists : nat;
  estimated_reading_time : nat
}.

Definition is_nonempty (s : text) : bool :=
  match s with [] => false | _ => true end.

(** [content] is [template.content] or the empty text; the column is not
    nullable, and the empty text is its own default. *)
Definition get_export_stats (t : Template) : export_stats :=
  let content := content t in
  let lines := split_on NL content in
  let words := count_words false content in
  {| total_lines := length lines;
     non_empty_lines := length (List.filter (fun line => is_nonempty (strip line)) lines);
     words := words;
     characters := length content;
     characters_no_spaces := length (remove_spaces content);
     headers := length (re_findall re_stat_header content);
     bold_text := length (re_findall re_stat_bold content);
     italic_text := length (re_findall re_stat_italic content);
     code_blocks := length (re_findall re_stat_fence content) / 2;
     inline_code := length (re_findall re_stat_code content);
     links := length (re_findall re_link content);
     lists := length (re_findall re_stat_list content);
     estimated_reading_time := Nat.max 1 (words / 200) |}.

(** ** [filesystem.py]

    The file system is a finite map from paths to nodes; a path is the list
    of its components from the root, and the root itself is a directory.
    The world also holds the home directory, the clock, read one tick at a
    time by [datetime.now()], and the set of paths on which the operating
    system refuses to create or write (permissions, full disk).  A
    computation takes a world and gives back the world it leaves and either
    a value or the exception it raised. *)

Abbreviation path := (list text).

Inductive node :=
| Dir
| File (data : text).

Inductive exn :=
| FileExistsError
| FileNotFoundError
| NotADirectoryError
| IsADirectoryError
| PermissionError.

Record world := {
  fs : gmap path node;
  home : path;
  clock : nat -> datetime;
  ticks : nat;
  denied : path -> bool
}.

Definition with_fs (w : world) (m : gmap path node) : world :=
  {| fs := m; home := home w; clock := clock w; ticks := ticks w; denied := denied w |}.

Inductive result (A : Type) :=
| Ok (a : A)
| Raise (e : exn).
Arguments Ok {A} a.
Arguments Raise {A} e.

Definition io (A : Type) : Type := world -> result A * world.

Definition ret {A} (a : A) : io A := fun w => (Ok a, w).

Definition bind {A B} (m : io A) (k : A -> io B) : io B :=
  fun w =>
    match m w with
    | (Ok a, w') => k a w'
    | (Raise e, w') => (Raise e, w')
    end.

Notation "x <- m ;; k" := (bind m (fun x => k))
  (at level 100, m at next level, right associativity).
Notation "m ;;; k" := (bind m (fun _ => k))
  (at level 100, right associativity).

(** [datetime.now()] *)
Definition now : io datetime :=
  fun w => (Ok (clock w (ticks w)),
            {| fs := fs w; home := home w; clock := clock w;
               ticks := S (ticks w); denied := denied w |}).

(** [Path.parent]; the root is its own parent. *)
Definition parent (p : path) : path := removelast p.

Definition node_at (w : world) (p : path) : option node :=
  match p with
  | [] => Some Dir
  | _ => fs w !! p
  end.

Definition is_dir (w : world) (p : path) : bool :=
  match node_at w p with Some Dir => true | _ => false end.

(** [os.mkdir(p)] *)
Definition os_mkdir (p : path) : io unit :=
  fun w =>
    match node_at w (parent p) with
    | None => (Raise FileNotFoundError, w)
    | Some (File _) => (Raise NotADirectoryError, w)
    | Some Dir =>
        match node_at w p with
        | Some _ => (Raise FileExistsError, w)
        | None =>
            if denied w p then (Raise PermissionError, w)
            else (Ok tt, with_fs w (<[p := Dir]> (fs w)))
        end
    end.

(** [p.mkdir(exist_ok=True)]: an error of [os.mkdir] other than a missing
    parent is dropped when [p] is a directory. *)
Definition mkdir_exist_ok (p : path) : io unit :=
  fun w =>
    match os_mkdir p w with
    | (Raise FileNotFoundError, w') => (Raise FileNotFoundError, w')
    | (Raise e, w') => if is_dir w' p then (Ok tt, w') else (Raise e, w')
    | r => r
    end.

(** [p.mkdir(parents=True, exist_ok=True)], on the reversed path (last
    component first): when the parent is missing it is made first, in the
    same way, and [p] is made after it. *)
Fixpoint mkdir_parents_rev (rp : path) : io unit :=
  fun w =>
    match os_mkdir (rev rp) w with
    | (Raise FileNotFoundError, w') =>
        match rp with
        | [] => (Raise FileNotFoundError, w')
        | _ :: rparent => (mkdir_parents_rev rparent ;;; mkdir_exist_ok (rev rp)) w'
        end
    | (Raise e, w') => if is_dir w' (rev rp) then (Ok tt, w') else (Raise e, w')
    | r => r
    end.

Definition mkdir_parents (p : path) : io unit := mkdir_parents_rev (rev p).

(** [open(p, 'w')] and [f.write(data)] *)
Definition write_text (p : path) (data : text) : io unit :=
  fun w =>
    match node_at w (parent p) with
    | None => (Raise FileNotFoundError, w)
    | Some (File _) => (Raise NotADirectoryError, w)
    | Some Dir =>
        match node_at w p with
        | Some Dir => (Raise IsADirectoryError, w)
        | _ =>
            if denied w p then (Raise PermissionError, w)
            else (Ok tt, with_fs w (<[p := File data]> (fs w)))
        end
    end.

Definition templates_dir (w : world) : path :=
  home w ++ [txt "Prompt_Editor"; txt "templates"].

Definition get_user_templates_dir : io path :=
  fun w => (mkdir_parents (templates_dir w) ;;; ret (templates_dir w)) w.

Definition lower_char (c : ascii) : ascii :=
  if ((65 <=? code c) && (code c <=? 90))%nat
  then ascii_of_nat (code c + 32) else c.

(** [str.lower] *)
Definition lower (s : text) : text := map lower_char s.

Definition text_eqb (a b : text) : bool := bool_decide (a = b).

Definition reserved_names : list text :=
  map txt ["con"; "prn"; "aux"; "nul"; "com1"; "com2"; "com3"; "com4"; "com5";
           "com6"; "com7"; "com8"; "com9"; "lpt1"; "lpt2"; "lpt3"; "lpt4";
           "lpt5"; "lpt6"; "lpt7"; "lpt8"; "lpt9"]%string.

(** The three rewrites that the sanitizers of this module share. *)
Definition name_core (name : text) : text :=
  strip_chars (txt "_ .")
    (re_sub [Rep false (chr "_") 2 None Greedy] (fun _ _ => txt "_")
       (re_sub [One (one_of invalid_chars)] (fun _ _ => txt "_") name)).

Definition needs_folder_fallback (sanitized : text) : bool :=
  negb (is_nonempty sanitized) || existsb (text_eqb (lower sanitized)) reserved_names.

(** The name that [sanitize_folder_name] gives when the clock reads [d]. *)
Definition folder_dir_name (d : datetime) (name : text) : text :=
  if needs_folder_fallback (name_core name)
  then txt "folder_" ++ strftime_compact d
  else name_core name.

Definition sanitize_folder_name (name : text) : io text :=
  let sanitized := name_core name in
  if needs_folder_fallback sanitized
  then d <- now ;; ret (txt "folder_" ++ strftime_compact d)
  else ret sanitized.

(** The name that [sanitize_template_filename] gives when the clock reads
    [d]. *)
Definition template_file_name (d : datetime) (title : text) : text :=
  if is_nonempty (name_core title)
  then name_core title
  else txt "template_" ++ strftime_compact d.

Definition sanitize_template_filename (title : text) : io text :=
  let sanitized := name_core title in
  if is_nonempty sanitized
  then ret sanitized
  else d <- now ;; ret (txt "template_" ++ strftime_compact d).

Definition default_dir (p : option path) : io path :=
  match p with
  | None => get_user_templates_dir
  | Some p => ret p
  end.

Definition get_folder_path (folder_name : text) (parent_path : option path) : io path :=
  parent_path <- default_dir parent_path ;;
  sanitized_name <- sanitize_folder_name folder_name ;;
  ret (parent_path ++ [sanitized_name]).

Definition create_folder_on_disk (folder_name : text) (parent_path : option path) : io path :=
  folder_path <- get_folder_path folder_name parent_path ;;
  mkdir_parents folder_path ;;;
  ret folder_path.

Definition disk_metadata (d : datetime) (title : text) : text :=
  lines_of [txt "---"; txt "title: " ++ title; txt "created: " ++ isoformat d;
            txt "---"; []].

Definition save_template_to_disk (title content : text) (folder_path : option path) : io path :=
  folder_path <- default_dir folder_path ;;
  name <- sanitize_template_filename title ;;
  let file_path := folder_path ++ [name ++ txt ".md"] in
  d <- now ;;
  write_text file_path (disk_metadata d title ++ content) ;;;
  ret file_path.

(** A [for] loop over [l] that threads the state [s]; an exception raised
    by the body ends the loop. *)
Fixpoint for_each {A S : Type} (body : S -> A -> io S) (l : list A) (s : S) : io S :=
  match l with
  | [] => ret s
  | a :: l' => s' <- body s a ;; for_each body l' s'
  end.

(** The body of the first loop of [sync_database_to_filesystem]. *)
Definition root_step (folder_paths : gmap Z path) (folder : Folder) : io (gmap Z path) :=
  match parent_id folder with
  | None =>
      folder_path <- create_folder_on_disk (folder_name folder) None ;;
      ret (<[folder_id folder := folder_path]> folder_paths)
  | Some _ => ret folder_paths
  end.

(** The body of the second loop. *)
Definition child_step (folder_paths : gmap Z path) (folder : Folder) : io (gmap Z path) :=
  match parent_id folder with
  | Some pid =>
      match folder_paths !! pid with
      | Some parent_path =>
          folder_path <- create_folder_on_disk (folder_name folder) (Some parent_path) ;;
          ret (<[folder_id folder := folder_path]> folder_paths)
      | None => ret folder_paths
      end
  | None => ret folder_paths
  end.

(** The two folder loops; [folders] is [Folder.query.all()]. *)
Definition sync_folders (folders : list Folder) : io (gmap Z path) :=
  folder_paths <- for_each root_step folders ∅ ;;
  for_each child_step folders folder_paths.

(** [template.folder_id and template.folder_id in folder_paths]: a missing
    id and the id 0 are falsy. *)
Definition target_dir (folder_paths : gmap Z path) (t : Template) : option path :=
  match template_folder_id t with
  | Some fid => if Z.eqb fid 0 then None else folder_paths !! fid
  | None => None
  end.

(** The body of the template loop. *)
Definition template_step (folder_paths : gmap Z path) (t : Template) : io unit :=
  folder_path <- match target_dir folder_paths t with
                 | Some p => ret p
                 | None => get_user_templates_dir
                 end ;;
  save_template_to_disk (title t) (content t) (Some folder_path) ;;;
  ret tt.

Definition sync_templates (folder_paths : gmap Z path) (templates : list Template) : io unit :=
  for_each (fun _ t => template_step folder_paths t) templates tt.

(** [folders] and [templates] are the results of the two queries. *)
Definition sync_database_to_filesystem (folders : list Folder) (templates : list Template) : io unit :=
  folder_paths <- sync_folders folders ;;
  sync_templates folder_paths templates.

(** [routes.py]: [initialize_filesystem_sync], the caller of the rebuild,
    with what it writes to the log. *)
Inductive log_entry :=
| LogInfo (msg : text)
| LogError (msg : text) (e : exn).

Definition initialize_filesystem_sync (folders : list Folder) (templates : list Template)
    (w : world) : list log_entry * world :=
  match sync_database_to_filesystem folders templates w with
  | (Ok _, w') => ([LogInfo (txt "Filesystem sync completed successfully")], w')
  | (Raise e, w') => ([LogError (txt "Filesystem sync failed: ") e], w')
  end.

(** ** [filesystem.py]: [delete_template_from_disk] *)

(** [p.exists()] *)
Definition path_exists (p : path) : io bool :=
  fun w => (Ok (match node_at w p with Some _ => true | None => false end), w).

(** [p.unlink()]: removes the file at [p].  A directory is not removed
    ([IsADirectoryError], as Linux reports it), and the operating system
    refuses to remove what it refuses to write. *)
Definition unlink (p : path) : io unit :=
  fun w =>
    match node_at w p with
    | None => (Raise FileNotFoundError, w)
    | Some Dir => (Raise IsADirectoryError, w)
    | Some (File _) =>
        if denied w p then (Raise PermissionError, w)
        else (Ok tt, with_fs w (delete p (fs w)))
    end.

Definition delete_template_from_disk (title : text) (folder_path : option path) : io bool :=
  folder_path <- default_dir folder_path ;;
  name <- sanitize_template_filename title ;;
  let file_path := folder_path ++ [name ++ txt ".md"] in
  found <- path_exists file_path ;;
  if found then (unlink file_path ;;; ret true) else ret false.

(** ** [routes.py]: [update_folder]

    The table of folders is the list of its rows, [Folder.query.all()]; the
    primary key is [folder_id]. *)

(** [Folder.query.get(id)] *)
Definition query_get (folders : list Folder) (id : Z) : option Folder :=
  List.find (fun f => Z.eqb (folder_id f) id) folders.

(** [would_create_circle], the function nested in [update_folder].  It
    calls itself once per parent it walks over; [depth] is the number of
    nested calls that the recursion limit of the interpreter leaves room
    for, and [None] stands for the [RecursionError] raised beyond it.
    A [parent_id] that is missing or 0 is falsy. *)
Fixpoint would_create_circle (folders : list Folder) (depth : nat)
    (check_folder_id target_parent_id : Z) : option bool :=
  match depth with
  | O => None
  | S depth' =>
      if Z.eqb check_folder_id target_parent_id then Some true
      else
        match query_get folders target_parent_id with
        | Some parent =>
            match parent_id parent with
            | Some pid =>
                if Z.eqb pid 0 then Some false
                else would_create_circle folders depth' check_folder_id pid
            | None => Some false
            end
        | None => Some false
        end
  end.

(** *** The value of the request

    [request.get_json()] gives the body of the request as a Python value:
    [None], a [bool], an [int], a [float], a [str], a [list] or a [dict]
    whose keys are strings.  The handler compares a [float] with integers
    and tests its truth, and does nothing else with it: of a [float] the
    model keeps the integer that it equals, if it equals one.  The members
    of a [dict] are its items, and the first item of a key is the one that
    counts. *)
#[warnings="-register-all"]
Inductive json :=
| JNull
| JBool (b : bool)
| JInt (n : Z)
| JFloat (whole : option Z)
| JStr (s : text)
| JArr (items : list json)
| JObj (members : list (text * json)).

(** The truth of a value, as [if data] and [not data] test it. *)
Definition truthy (v : json) : bool :=
  match v with
  | JNull => false
  | JBool b => b
  | JInt n => negb (Z.eqb n 0)
  | JFloat whole => match whole with Some n => negb (Z.eqb n 0) | None => true end
  | JStr s => is_nonempty s
  | JArr items => match items with [] => false | _ => true end
  | JObj members => match members with [] => false | _ => true end
  end.

(** [v == n] for an integer [n]: [True] is 1 and [False] is 0, a [float]
    equals the integer of its value, and no other value equals an
    integer. *)
Definition equals_int (v : json) (n : Z) : bool :=
  match v with
  | JInt m => Z.eqb m n
  | JBool b => Z.eqb (if b then 1 else 0) n
  | JFloat (Some m) => Z.eqb m n
  | _ => false
  end.

Fixpoint assoc (key : text) (members : list (text * json)) : option json :=
  match members with
  | [] => None
  | (k, v) :: rest => if text_eqb k key then Some v else assoc key rest
  end.

(** [key in s] for two strings: [key] is a part of [s]. *)
Fixpoint occurs (key s : text) : bool :=
  startswith key s
  || match s with
     | [] => false
     | _ :: s' => occurs key s'
     end.

(** [key in data] for a string [key]: a key of the [dict], an element of
    the [list], a part of the [str]; [None] for the [TypeError] raised on
    any other value. *)
Definition contains (key : text) (data : json) : option bool :=
  match data with
  | JObj members => Some (match assoc key members with Some _ => true | None => false end)
  | JArr items =>
      Some (existsb (fun v => match v with JStr s => text_eqb s key | _ => false end) items)
  | JStr s => Some (occurs key s)
  | _ => None
  end.

(** [data[key]] for a string [key]; [None] for the [TypeError] raised on a
    value that is no [dict], and for the [KeyError]. *)
Definition getitem (key : text) (data : json) : option json :=
  match data with
  | JObj members => assoc key members
  | _ => None
  end.

(** [if key in data: ... data[key] ...]: the value that the branch reads,
    [Some None] when the branch is not taken and [None] when the test or
    the reading raises. *)
Definition field (key : text) (data : json) : option (option json) :=
  match contains key data with
  | None => None
  | Some false => Some None
  | Some true =>
      match getitem key data with
      | Some v => Some (Some v)
      | None => None
      end
  end.

(** What [request.get_json()] does: it returns the value of the body, or
    raises.  The handler tells [BadRequest], which Flask raises for a body
    that is no well formed JSON, from any other exception, such as the one
    for a request that is not of a JSON type. *)
Inductive get_json :=
| Returns (data : json)
| RaisesBadRequest (message : text)
| RaisesOther.

(** *** The database

    The handler hands the values of the request to the database without a
    look at their types.  An integer goes into the integer column as it is
    and [None] as [NULL]; a string goes into the column of the name as it
    is, and [None] is refused there (the column is not nullable).  What
    the database makes of any other value is its own business:
    [as_integer] and [as_text] give the integer, or [NULL], and the text
    that it reads the value as, and [None] when it refuses the value and
    the statement raises. *)
Record driver := {
  as_integer : json -> option (option Z);
  as_text : json -> option text
}.

Definition integer_value (db : driver) (v : json) : option (option Z) :=
  match v with
  | JInt n => Some (Some n)
  | JNull => Some None
  | _ => as_integer db v
  end.

Definition text_value (db : driver) (v : json) : option text :=
  match v with
  | JStr s => Some s
  | JNull => None
  | _ => as_text db v
  end.

(** The first call of [would_create_circle]: its target is the value of
    the request, which the comparison and [Folder.query.get] take as it
    is; the calls that follow have a [parent_id] of the table for target,
    an integer.  [None] stands for any exception: the [RecursionError], or
    the one of a key that the database refuses. *)
Definition would_create_circle_first (db : driver) (folders : list Folder) (depth : nat)
    (check_folder_id : Z) (target_parent_id : json) : option bool :=
  match target_parent_id with
  | JInt n => would_create_circle folders depth check_folder_id n
  | _ =>
      match depth with
      | O => None
      | S depth' =>
          if equals_int target_parent_id check_folder_id then Some true
          else
            match integer_value db target_parent_id with
            | None => None
            | Some None => Some false
            | Some (Some key) =>
                match query_get folders key with
                | Some parent =>
                    match parent_id parent with
                    | Some pid =>
                        if Z.eqb pid 0 then Some false
                        else would_create_circle folders depth' check_folder_id pid
                    | None => Some false
                    end
                | None => Some false
                end
            end
      end
  end.

(** The responses: [jsonify] of the folder, and the three errors.  The
    message of a [BadRequest] is [str(e)], which starts with the status. *)
Inductive response :=
| Success (f : Folder)
| BadRequest (message : text)
| NotFound
| ServerError.

(** The table with the row [f] in the place of the row of its id. *)
Definition commit_row (folders : list Folder) (f : Folder) : list Folder :=
  map (fun g => if Z.eqb (folder_id g) (folder_id f) then f else g) folders.

(** The name that the row of [folder] has once [name] is assigned to it,
    when [name] is a value; [None] when the database refuses it. *)
Definition new_name (db : driver) (folder : Folder) (name : option json) : option text :=
  match name with
  | Some v => text_value db v
  | None => Some (folder_name folder)
  end.

(** [db.session.commit()] after the assignments, and the response. *)
Definition commit (db : driver) (folders : list Folder) (folder : Folder)
    (name new_parent : option json) : response * list Folder :=
  match new_name db folder name,
        match new_parent with
        | Some v => integer_value db v
        | None => Some (parent_id folder)
        end
  with
  | Some n, Some p =>
      let row := {| folder_id := folder_id folder; folder_name := n; parent_id := p |} in
      (Success row, commit_row folders row)
  | _, _ => (ServerError, folders)
  end.

(** [update_folder]: the response and the table after the request.  A
    request that is refused, or that raises, leaves the table as it is:
    nothing is committed, and [except Exception] rolls back.  The first
    [Folder.query.get] of the walk sends the pending change of the name
    to the database, which raises there when it refuses the name. *)
Definition update_folder (db : driver) (depth : nat) (folders : list Folder) (id : Z)
    (request : get_json) : response * list Folder :=
  match query_get folders id with
  | None => (NotFound, folders)
  | Some folder =>
      match request with
      | RaisesBadRequest message => (BadRequest message, folders)
      | RaisesOther => (ServerError, folders)
      | Returns data =>
          if negb (truthy data)
          then (BadRequest (txt "400 Bad Request: No data provided"), folders)
          else
            match field (txt "name") data with
            | None => (ServerError, folders)
            | Some name =>
                match field (txt "parent_id") data with
                | None => (ServerError, folders)
                | Some None => commit db folders folder name None
                | Some (Some new_parent) =>
                    if equals_int new_parent id
                    then (BadRequest (txt "400 Bad Request: Folder cannot be its own parent"),
                          folders)
                    else if truthy new_parent
                    then
                      match new_name db folder name with
                      | None => (ServerError, folders)
                      | Some _ =>
                          match would_create_circle_first db folders depth id new_parent with
                          | None => (ServerError, folders)
                          | Some true =>
                              (BadRequest
                                 (txt "400 Bad Request: This would create a circular folder dependency"),
                               folders)
                          | Some false => commit db folders folder name (Some new_parent)
                          end
                      end
                    else commit db folders folder name (Some new_parent)
                end
            end
      end
  end.

(** * The vocabulary of the properties

    The definitions that the statements and the proofs below use: they say
    what the properties are about, they are not part of the program. *)

(** ** Properties of the matcher and of the scan *)

(** [extend v o]: the outcome [o] of a match on [u], seen as a match on
    [u ++ v]. *)
Definition extend (v : text) (o : outcome) : outcome :=
  match o with
  | Some (gs, rest) => Some (gs, rest ++ v)
  | None => None
  end.

(** The character [a] stops the pattern [p]: no class of [p] accepts it,
    and [$] is only allowed when [a] is the line feed. *)
Definition stops (a : ascii) (it : item) : bool :=
  match it with
  | Bol => true
  | Eol => Ascii.eqb a NL
  | Rep _ cls _ _ _ => negb (cls a)
  end.

Definition barrier (a : ascii) (p : list item) : bool := forallb (stops a) p.

(** The pattern has no [^]. *)
Definition bol_free (p : list item) : bool :=
  forallb (fun it => match it with Bol => false | _ => true end) p.

(** A pattern that cannot match the empty text. *)
Definition consumes (p : list item) : Prop :=
  forall prev, match_items p prev [] [] = None.

(** What [re.sub] puts in the place of a piece. *)
Definition piece_sub (repl : text -> list text -> text) (x : piece) : text :=
  match x with Keep c => [c] | Hit w gs => repl w gs end.

Definition is_hit (x : piece) : bool :=
  match x with Keep _ => false | Hit _ _ => true end.

(** [needs cls p]: the first thing [p] takes is a character of the class
    [cls]; where the text has none, [p] matches nowhere. *)
Definition needs (cls : ascii -> bool) (p : list item) : Prop :=
  match p with
  | Rep _ cls' (S _) _ _ :: _ => cls' = cls
  | Bol :: Rep _ cls' (S _) _ _ :: _ => cls' = cls
  | _ => False
  end.

(** ** No pattern of the source matches the empty text *)

(** Some item of [p] must take a character. *)
Definition takes_one (p : list item) : bool :=
  existsb (fun it => match it with Rep _ _ (S _) _ _ => true | _ => false end) p.

(** The patterns of [export.py] and of [filesystem.py]. *)
Definition source_patterns : list (list item) :=
  [ re_header; re_span "*" 3; re_span "*" 2; re_span "*" 1; re_span "_" 2;
    re_span "_" 1; re_span "`" 1; re_fence_open; re_fence_close; re_link;
    re_quote; re_ulist; re_olist; re_rule; re_blank;
    [One (one_of invalid_chars)]; [Rep false (chr "_") 2 None Greedy];
    re_stat_header; re_stat_bold; re_stat_italic; re_stat_fence; re_stat_code;
    re_stat_list ].

(** ** The filename sanitizer *)

(** What [sanitize_filename] has before it tests for the empty name. *)
Definition sanitized_core (filename : text) : text :=
  strip_chars (txt "_ ")
    (re_sub [Rep false (chr "_") 2 None Greedy] (fun _ _ => txt "_")
       (re_sub [One (one_of invalid_chars)] (fun _ _ => txt "_") filename)).

(** The characters that the sanitizer replaces or strips. *)
Definition dropped (c : ascii) : bool :=
  one_of invalid_chars c || one_of (txt "_ ") c.

(** ** The list count of [get_export_stats] *)

(** The count as the specification words it: the lines that start with a
    star, a minus or a plus followed by white space, and the lines that
    start with digits, a full stop, then white space. *)
Definition re_spec_unordered : list item :=
  [Bol; One (one_of ["*"; "-"; "+"]); One is_space].
Definition re_spec_ordered : list item :=
  [Bol; Rep false is_digit 1 None Greedy; Lit "."; One is_space].
Definition spec_list_lines (content : text) : nat :=
  length (re_findall re_spec_unordered content)
  + length (re_findall re_spec_ordered content).

(** An unfiled template with the given title and content. *)
Definition template_of (title content : text) : Template :=
  {| title := title; content := content; description := None;
     template_folder_id := None; folder := None; is_favorite := false;
     created_at := Build_datetime 2024 1 1 0 0 0 0;
     updated_at := Build_datetime 2024 1 1 0 0 0 0 |}.

(** ** The blank-line cleanup *)

(** The number of line feeds in the white space that [s] starts with. *)
Fixpoint nlc (s : text) : nat :=
  match s with
  | [] => 0
  | c :: s' =>
      if is_space c then (if Ascii.eqb c NL then 1 else 0) + nlc s' else 0
  end.

(** What is left after the last line feed of the leading white space. *)
Fixpoint last_nl (s : text) : option text :=
  match s with
  | [] => None
  | c :: s' =>
      if is_space c then
        match last_nl s' with
        | Some r => Some r
        | None => if Ascii.eqb c NL then Some s' else None
        end
      else None
  end.

(** The same, when the leading white space has two line feeds or more. *)
Fixpoint two_nl (s : text) : option text :=
  match s with
  | [] => None
  | c :: s' =>
      if is_space c then
        match two_nl s' with
        | Some r => Some r
        | None => if Ascii.eqb c NL then last_nl s' else None
        end
      else None
  end.

(** What a match of the cleanup pattern at the start of [s] leaves. *)
Definition blank_match (s : text) : option text :=
  match s with
  | c :: s' => if Ascii.eqb c NL then two_nl s' else None
  | [] => None
  end.

(** The outcome of a match without groups of its own. *)
Definition tag (gs : list text) (o : option text) : outcome :=
  match o with Some r => Some (gs, r) | None => None end.

(** No white space of [t] holds three line feeds: nothing for the cleanup
    to do. *)
Fixpoint settled (t : text) : bool :=
  match t with
  | [] => true
  | _ :: t' => (nlc t <=? 2) && settled t'
  end.

(** ** Stability of [markdown_to_text] on text without markers *)

(** None of the four marker characters occurs in [t]. *)
Definition marker_free (t : text) : bool :=
  forallb (fun c => negb (one_of ["#"; "*"; "`"; "_"] c)) t.

(** The construct of pattern [p] does not occur in [t]. *)
Definition lacks (p : list item) (t : text) : bool :=
  match re_findall p t with [] => true | _ => false end.

(** No marker character, no link, no block quote, no unordered list line
    and no horizontal rule. *)
Definition clean (t : text) : bool :=
  marker_free t && lacks re_link t && lacks re_quote t && lacks re_ulist t
  && lacks re_rule t.

(** The passes of [markdown_to_text] before the blank-line cleanup. *)
Definition passes (s : text) : text :=
  sub_rule (sub_olist (sub_ulist (sub_quote (sub_link (sub_fences
    (sub_span "`" 1 (sub_emphasis (sub_header s)))))))).

(** ** Which runs of blank lines the cleanup collapses *)

(** White space of a single line: no line feed.  Spaces and tabs are of
    this kind. *)
Definition is_blank (l : text) : bool :=
  forallb (fun c => is_space c && negb (Ascii.eqb c NL)) l.

(** ** Emphasis markers that find no partner on their line *)

(** No occurrence of [c] in [s] has another one two characters or more
    after it. *)
Fixpoint lonely (c : ascii) (s : text) : bool :=
  match s with
  | [] => true
  | d :: s' =>
      (negb (chr c d) || forallb (fun x => negb (chr c x)) (drop 1 s'))
      && lonely c s'
  end.

(** No construct of the passes other than the emphasis passes and the
    white space cleanup occurs in [t]. *)
Definition only_emphasis (t : text) : bool :=
  lacks re_header t && lacks (re_span "`" 1) t && lacks re_fence_open t
  && lacks re_fence_close t && lacks re_link t && lacks re_quote t
  && lacks re_ulist t && lacks re_rule t.

(** ** How a world evolves *)

(** One more reading of the clock. *)
Definition tick (w : world) : world :=
  {| fs := fs w; home := home w; clock := clock w; ticks := S (ticks w);
     denied := denied w |}.

(** [steps D w w']: [w'] comes from [w] by clock ticks, by making
    directories at paths that were free and satisfy [D], and by writing
    files at paths that are no directory. *)
Inductive steps (D : path -> Prop) : world -> world -> Prop :=
| steps_refl w : steps D w w
| steps_tick w w' : steps D (tick w) w' -> steps D w w'
| steps_mkdir w p w' :
    node_at w p = None -> D p ->
    steps D (with_fs w (<[p := Dir]> (fs w))) w' -> steps D w w'
| steps_write w p data w' :
    node_at w p <> Some Dir ->
    steps D (with_fs w (<[p := File data]> (fs w))) w' -> steps D w w'.

(** Directories stay directories and files stay files. *)
Definition keeps (w w' : world) : Prop :=
  forall p, match fs w !! p with
            | Some Dir => fs w' !! p = Some Dir
            | Some (File _) => exists data, fs w' !! p = Some (File data)
            | None => True
            end.

(** ** What each operation does *)

(** The directory that [default_dir] gives. *)
Definition base_dir (parent_path : option path) (w : world) : path :=
  match parent_path with Some p => p | None => templates_dir w end.

(** The paths at which making the directory of a folder called [name]
    under [base] may create a directory. *)
Definition folder_dirs (base : path) (name : text) (q : path) : Prop :=
  exists d, q `prefix_of` base ++ [folder_dir_name d name].

(** ** Sample data *)

(** An empty disk, a clock that stands still, no refusals. *)
Definition ex_time : datetime := Build_datetime 2024 1 2 3 4 5 0.

Definition ex_world : world :=
  {| fs := ∅; home := [txt "home"; txt "user"]; clock := fun _ => ex_time;
     ticks := 0; denied := fun _ => false |}.

(** A folder record. *)
Definition folder_of (id : Z) (name : text) (parent : option Z) : Folder :=
  {| folder_id := id; folder_name := name; parent_id := parent |}.

(** One root folder, with the directory recorded for it: a folder whose
    name looks like a template file, and a plain one. *)
Definition ex_named : list Folder := [folder_of 1 (txt "A.md") None].
Definition ex_named_paths : gmap Z path :=
  {[ 1%Z := templates_dir ex_world ++ [txt "A.md"] ]}.
Definition ex_plain : list Folder := [folder_of 1 (txt "A") None].
Definition ex_plain_paths : gmap Z path :=
  {[ 1%Z := templates_dir ex_world ++ [txt "A"] ]}.

(** The template [t], filed under the folder id [fid]. *)
Definition filed (fid : Z) (t : Template) : Template :=
  {| title := title t; content := content t; description := description t;
     template_folder_id := Some fid; folder := folder t;
     is_favorite := is_favorite t; created_at := created_at t;
     updated_at := updated_at t |}.

(** ** The folder loops *)

(** The parent chain of [id] ends, inside the list, at a folder without
    parent. *)
Inductive reachable (folders : list Folder) : Z -> Prop :=
| reach_root f :
    In f folders -> parent_id f = None -> reachable folders (folder_id f)
| reach_child f pid :
    In f folders -> parent_id f = Some pid -> reachable folders pid ->
    reachable folders (folder_id f).

(** [placed folders pre id]: the folder [id] is a root of [folders], or it
    occurs in [pre] after a part of [pre] that has placed its parent.  This
    is what one pass over [pre], in list order, records. *)
Inductive placed (folders : list Folder) : list Folder -> Z -> Prop :=
| placed_root pre f :
    In f folders -> parent_id f = None -> placed folders pre (folder_id f)
| placed_child l1 f l2 pid :
    parent_id f = Some pid -> placed folders l1 pid ->
    placed folders (l1 ++ f :: l2) (folder_id f).

(** [mirror folders base id p]: [p] is [base] followed by the directory
    names of a chain of folders from a root down to [id]. *)
Inductive mirror (folders : list Folder) (base : path) : Z -> path -> Prop :=
| mirror_root f d :
    In f folders -> parent_id f = None ->
    mirror folders base (folder_id f) (base ++ [folder_dir_name d (folder_name f)])
| mirror_child f pid pp d :
    In f folders -> parent_id f = Some pid -> mirror folders base pid pp ->
    mirror folders base (folder_id f) (pp ++ [folder_dir_name d (folder_name f)]).

(** The paths where the folder loops may make a directory: the templates
    directory and what leads to it, and the mirror paths. *)
Definition mirror_dirs (folders : list Folder) (base : path) (q : path) : Prop :=
  q `prefix_of` base \/ exists id, mirror folders base id q.

(** What the loops keep true of the recorded paths: each is a directory
    and a mirror path. *)
Definition recorded_ok (folders : list Folder) (w0 : world)
    (folder_paths : gmap Z path) (w : world) : Prop :=
  home w = home w0
  /\ forall id p, folder_paths !! id = Some p ->
       is_dir w p = true /\ mirror folders (templates_dir w0) id p.

(** ** Which folders get a directory *)

(** Every non-root folder is listed after its parent: each listed folder
    that bears the parent's id is a root or comes earlier in the list. *)
Definition parent_first (folders : list Folder) : Prop :=
  forall l1 f l2 pid g,
    folders = l1 ++ f :: l2 -> parent_id f = Some pid ->
    In g folders -> folder_id g = pid ->
    parent_id g = None \/ In g l1.

(** Three nested folders, the deepest listed first, and the directories
    that the folder loops record for them. *)
Definition ex_deep : list Folder :=
  [folder_of 3 (txt "C") (Some 2%Z); folder_of 2 (txt "B") (Some 1%Z);
   folder_of 1 (txt "A") None].

Definition ex_deep_paths : gmap Z path :=
  {[ 1%Z := templates_dir ex_world ++ [txt "A"];
     2%Z := templates_dir ex_world ++ [txt "A"; txt "B"] ]}.

(** ** Cycles *)

(** Some listed folder [id] has the parent [pid]. *)
Definition parent_of (folders : list Folder) (id pid : Z) : Prop :=
  exists f, In f folders /\ folder_id f = id /\ parent_id f = Some pid.

(** Following parents from [id] leads back to [id]. *)
Definition on_cycle (folders : list Folder) (id : Z) : Prop :=
  tc (parent_of folders) id id.

(** Two folders that are each other's parent, and a root. *)
Definition ex_cycle : list Folder :=
  [folder_of 1 (txt "A") (Some 2%Z); folder_of 2 (txt "B") (Some 1%Z);
   folder_of 3 (txt "C") None].

(** ** The sanitizers of names *)

(** The longest prefix of [s] made of characters of [P]. *)
Fixpoint take_while (P : ascii -> bool) (s : text) : text :=
  match s with
  | c :: s' => if P c then c :: take_while P s' else []
  | [] => []
  end.

(** The character before the position that follows [m], when [prev] is
    the character before [m]. *)
Definition before (prev : option ascii) (m : text) : option ascii :=
  match last m with Some c => Some c | None => prev end.

(** The pattern [_{2,}] and what substituting one underscore for it does:
    [squeeze after s] keeps one underscore of every run of [s]; [after]
    tells that the character before [s] was an underscore. *)
Definition re_underscores : list item := [Rep false (chr "_") 2 None Greedy].

Fixpoint squeeze (after : bool) (s : text) : text :=
  match s with
  | [] => []
  | c :: s' =>
      if chr "_" c then (if after then squeeze true s' else c :: squeeze true s')
      else c :: squeeze false s'
  end.

(** No two underscores in a row. *)
Fixpoint single_underscores (s : text) : bool :=
  match s with
  | [] => true
  | a :: s' =>
      negb (chr "_" a && match s' with b :: _ => chr "_" b | [] => false end)
      && single_underscores s'
  end.

(** The two substitutions that the three sanitizers start with. *)
Definition rewritten (name : text) : text :=
  re_sub re_underscores (fun _ _ => txt "_")
    (re_sub [One (one_of invalid_chars)] (fun _ _ => txt "_") name).

(** Neither the first nor the last character of [s] is of [P]. *)
Definition trimmed (P : ascii -> bool) (s : text) : Prop :=
  match s with [] => True | c :: _ => P c = false end
  /\ match rev s with [] => True | c :: _ => P c = false end.

(** A name that the sanitizers leave as it is: no invalid character, no
    two underscores in a row, no character of [cs] at either end. *)
Definition tidy (cs : text) (s : text) : Prop :=
  Forall (fun c => one_of invalid_chars c = false) s
  /\ single_underscores s = true
  /\ trimmed (one_of cs) s.

(** The name is [.] or [..], or has a path separator in it. *)
Definition escapes (n : text) : Prop :=
  n = txt "." \/ n = txt ".." \/ In "/" n \/ In "\" n.

(** ** The line patterns of [markdown_to_text] *)

(** The end of the patterns of the header, block quote and list passes:
    white space, then the rest of the line as a group. *)
Definition line_tail (lo : nat) : list item :=
  [Rep false is_space lo None Greedy; Rep true dot 1 None Greedy; Eol].

(** A character that is none of the eight with which the constructs of
    Markdown start. *)
Definition ordinary (c : ascii) : bool :=
  negb (one_of ["#"; "*"; "`"; "_"; "["; ">"; "-"; "+"] c).

(** No two [c] in a row. *)
Fixpoint no_pair (c : ascii) (s : text) : bool :=
  match s with
  | [] => true
  | a :: s' =>
      negb (chr c a && match s' with b :: _ => chr c b | [] => false end)
      && no_pair c s'
  end.

(** ** What an operation leaves alone *)

(** [touches D w w']: the two worlds have the same home, clock and
    refusals, and their file systems differ at paths of [D] only. *)
Definition touches (D : path -> Prop) (w w' : world) : Prop :=
  home w' = home w /\ clock w' = clock w /\ denied w' = denied w
  /\ forall q, D q \/ fs w' !! q = fs w !! q.

(** [q] leads to [base] or lies below it. *)
Definition around (base q : path) : Prop :=
  q `prefix_of` base \/ base `prefix_of` q.

(** Nothing is in the way of the directory [p]: every path that leads to
    it is a directory, or is free and not refused. *)
Definition clear_to (w : world) (p : path) : Prop :=
  forall q, q `prefix_of` p ->
    node_at w q = Some Dir \/ (node_at w q = None /\ denied w q = false).

(** The world after [sanitize_template_filename title]: the clock is read
    when the title sanitizes to the empty name. *)
Definition after_name (title : text) (w : world) : world :=
  if is_nonempty (name_core title) then w else tick w.

(** An empty disk and a clock that moves on by a second at each reading. *)
Definition ex_running : world :=
  {| fs := ∅; home := [txt "home"; txt "user"];
     clock := fun n => Build_datetime 2024 1 2 3 4 n 0;
     ticks := 0; denied := fun _ => false |}.

(** ** The rebuild as a whole *)

(** Every recorded path lies below [base]. *)
Definition below (base : path) (folder_paths : gmap Z path) : Prop :=
  forall id p, folder_paths !! id = Some p -> base `prefix_of` p.

(** Two nested folders and a template filed under the inner one. *)
Definition ex_nested : list Folder :=
  [folder_of 1 (txt "A") None; folder_of 2 (txt "B") (Some 1%Z)].

Definition ex_nested_paths : gmap Z path :=
  {[ 1%Z := templates_dir ex_world ++ [txt "A"];
     2%Z := templates_dir ex_world ++ [txt "A"; txt "B"] ]}.

(** ** Running the rebuild again *)

(** Whether a path holds a directory, a file or nothing. *)
Definition kind (n : option node) : option bool :=
  match n with
  | Some Dir => Some true
  | Some (File _) => Some false
  | None => None
  end.

(** The two disks have the same directories and the same files, whatever
    the files hold. *)
Definition same_tree (w w' : world) : Prop :=
  forall q, kind (fs w' !! q) = kind (fs w !! q).

(** [v] has the home directory and the refusals of [w], and every
    directory and file of [w]. *)
Definition extends (w v : world) : Prop :=
  home v = home w /\ denied v = denied w /\ keeps w v.

(** A computation that only adds to the disk. *)
Definition grows {A} (m : io A) : Prop :=
  forall w r w', m w = (r, w') -> extends w w'.

(** [settles m]: once [m] has succeeded, it succeeds again, with the same
    value, in every world that extends the one it left, and changes
    neither what is a directory nor what is a file. *)
Definition settles {A} (m : io A) : Prop :=
  forall w a w1, m w = (Ok a, w1) ->
    forall v, extends w1 v ->
      exists v', m v = (Ok a, v') /\ same_tree v v'
                 /\ home v' = home v /\ denied v' = denied v.

(** No folder and no template takes its name from the clock. *)
Definition plain_names (folders : list Folder) (templates : list Template) : Prop :=
  (forall f, In f folders -> needs_folder_fallback (name_core (folder_name f)) = false)
  /\ (forall t, In t templates -> name_core (title t) <> []).

(** ** The table of folders *)

(** The primary key: no two rows have the same id, and no id is 0 (the
    database numbers the rows from 1). *)
Definition keyed (folders : list Folder) : Prop :=
  NoDup (folder_id <$> folders) /\ forall f, In f folders -> folder_id f <> 0%Z.

(** No folder is its own ancestor. *)
Definition acyclic (folders : list Folder) : Prop :=
  forall id, ~ on_cycle folders id.

(** A request that moves a folder under [pid]. *)
Definition move_under (pid : Z) : json :=
  JObj [(txt "parent_id", JInt pid)].

(** The new parent of the request, when it has one, is an integer, or a
    value that the database does not read as an integer: [null], or what
    it refuses or stores as [NULL]. *)
Definition integer_parent (db : driver) (request : get_json) : Prop :=
  forall data v,
    request = Returns data -> getitem (txt "parent_id") data = Some v ->
    (exists n, v = JInt n) \/ forall n, integer_value db v <> Some (Some n).

(** A database that reads the text of a decimal digit as the digit, as
    the integer columns of SQLite do, and refuses any other value that is
    not of the type of the column. *)
Definition ex_driver : driver :=
  {| as_integer := fun v =>
       match v with
       | JStr [c] =>
           if is_digit c then Some (Some (Z.of_nat (code c) - 48)%Z) else None
       | _ => None
       end;
     as_text := fun _ => None |}.

(** * The cases of the test suite

    The cases of [tests/test_export.py], evaluated on the model. *)

Example sanitize_filename_invalid :
  sanitize_filename (txt "file<>:" ++ DQUOTE :: txt "/\|?*name") = txt "file_name".
Proof. vm_compute. reflexivity. Qed.

Example markdown_to_text_headers :
  markdown_to_text (txt "# Header 1" ++ NL :: txt "## Header 2" ++ NL :: txt "### Header 3")
  = txt "HEADER 1" ++ NL :: txt "HEADER 2" ++ NL :: txt "HEADER 3".
Proof. vm_compute. reflexivity. Qed.

Example markdown_to_text_formatting :
  markdown_to_text (txt "**Bold** and *italic* and `code`") = txt "Bold and italic and code".
Proof. vm_compute. reflexivity. Qed.

Example markdown_to_text_lists :
  markdown_to_text (txt "- Item 1" ++ NL :: txt "- Item 2" ++ NL :: txt "1. First" ++ NL :: txt "2. Second")
  = BULLET ++ txt " Item 1" ++ NL :: BULLET ++ txt " Item 2" ++ NL :: txt "1. First" ++ NL :: txt "2. Second".
Proof. vm_compute. reflexivity. Qed.

Example markdown_to_text_quotes :
  markdown_to_text (txt "> This is a quote" ++ NL :: txt "> Another line")
  = DQUOTE :: txt "This is a quote" ++ DQUOTE :: NL :: DQUOTE :: txt "Another line" ++ [DQUOTE].
Proof. vm_compute. reflexivity. Qed.

Example markdown_to_text_links :
  markdown_to_text (txt "[Google](https://google.com) and [GitHub](https://github.com)")
  = txt "Google (https://google.com) and GitHub (https://github.com)".
Proof. vm_compute. reflexivity. Qed.

(** * Properties of the matcher and of the scan *)

Section Barrier.

(** Matching on [u ++ a :: v] when the character [a] stops the pattern:
    the match is the match on [u], and the scan goes on after [a]. *)
Variables (a : ascii) (v : text).

Lemma rep_barrier cls g cap (k : cont) :
  cls a = false ->
  (forall prev u gs, k prev (u ++ a :: v) gs = extend (a :: v) (k prev u gs)) ->
  forall u lo hi prev acc gs,
    rep cls g cap k lo hi prev (u ++ a :: v) acc gs
    = extend (a :: v) (rep cls g cap k lo hi prev u acc gs).
Proof.
  intros Ha Hk u. induction u as [|c u IH]; intros lo hi prev acc gs.
  - simpl. rewrite Ha. simpl. specialize (Hk prev [] (close_group cap acc gs)).
    simpl in Hk. destruct g, lo; simpl; rewrite ?Hk; try reflexivity;
      destruct (k prev [] _) as [[? ?]|]; reflexivity.
  - simpl. specialize (Hk prev (c :: u) (close_group cap acc gs)). simpl in Hk.
    destruct g.
    + destruct (cls c && may_take hi).
      * rewrite IH.
        destruct (rep cls Greedy cap k (pred lo) (pred <$> hi) (Some c) u (c :: acc) gs)
          as [[? ?]|]; simpl; [reflexivity|].
        destruct lo; [apply Hk | reflexivity].
      * destruct lo; [apply Hk | reflexivity].
    + destruct lo.
      * rewrite Hk. destruct (k prev (c :: u) _) as [[? ?]|]; simpl; [reflexivity|].
        destruct (cls c && may_take hi); [apply IH | reflexivity].
      * destruct (cls c && may_take hi); [apply IH | reflexivity].
Qed.

Lemma match_barrier p :
  barrier a p = true ->
  forall prev u gs,
    match_items p prev (u ++ a :: v) gs = extend (a :: v) (match_items p prev u gs).
Proof.
  induction p as [|it p IH]; intros Hb prev u gs.
  - reflexivity.
  - simpl in Hb. apply andb_true_iff in Hb as [Hit Hp]. specialize (IH Hp).
    destruct it as [| |cap cls lo hi g]; simpl in *.
    + destruct (at_bol prev); [apply IH | reflexivity].
    + assert (at_eol (u ++ a :: v) = at_eol u) as ->.
      { destruct u; simpl; [exact Hit | reflexivity]. }
      destruct (at_eol u); [apply IH | reflexivity].
    + apply rep_barrier; [|exact IH].
      destruct (cls a); [discriminate | reflexivity].
Qed.

Lemma scan_barrier p :
  barrier a p = true -> consumes p ->
  forall u prev n, n <= length u ->
    scan p prev (u ++ a :: v) n = scan p prev u n ++ Keep a :: scan p (Some a) v 0.
Proof.
  intros Hb Hc u. induction u as [|c u IH]; intros prev n Hn.
  - simpl in Hn. assert (n = 0) as -> by lia. simpl.
    pose proof (match_barrier p Hb prev [] []) as E. simpl in E.
    rewrite E, (Hc prev). reflexivity.
  - simpl. destruct n as [|n].
    + pose proof (match_barrier p Hb prev (c :: u) []) as E. simpl in E.
      rewrite E. destruct (match_items p prev (c :: u) []) as [[gs rest]|]; simpl extend; cbv iota beta.
      * assert (S (length (u ++ a :: v)) - length (rest ++ a :: v)
                = S (length u) - length rest) as ->.
        { rewrite !length_app. simpl. lia. }
        assert (S (length u) - length rest <= length (c :: u)) as Hle by (simpl; lia).
        change (c :: u ++ a :: v) with ((c :: u) ++ a :: v).
        rewrite take_app_le by exact Hle.
        destruct (S (length u) - length rest) as [|m] eqn:Em.
        -- simpl. rewrite IH by lia. reflexivity.
        -- simpl in Hle. simpl. rewrite IH by lia. reflexivity.
      * rewrite IH by lia. reflexivity.
    + simpl in Hn. rewrite IH by lia. reflexivity.
Qed.

End Barrier.

Lemma rep_prev cls g cap (k : cont) prev prev' :
  (forall s gs, k prev s gs = k prev' s gs) ->
  forall s lo hi acc gs,
    rep cls g cap k lo hi prev s acc gs = rep cls g cap k lo hi prev' s acc gs.
Proof.
  intros Hk s lo hi acc gs.
  destruct s as [|c s]; simpl; rewrite Hk; reflexivity.
Qed.

(** The character before a match matters through [^] alone. *)
Lemma match_items_prev p prev prev' :
  at_bol prev = at_bol prev' \/ bol_free p = true ->
  forall s gs, match_items p prev s gs = match_items p prev' s gs.
Proof.
  induction p as [|it p IH]; intros H s gs; [reflexivity|].
  destruct it as [| |cap cls lo hi g]; simpl.
  - destruct H as [H|H]; [|discriminate]. rewrite H.
    destruct (at_bol prev'); [apply IH; left; exact H | reflexivity].
  - destruct (at_eol s); [|reflexivity]. apply IH.
    destruct H as [H|H]; [left | right]; assumption.
  - apply rep_prev. intros. apply IH.
    destruct H as [H|H]; [left | right]; assumption.
Qed.

Lemma scan_prev p prev prev' :
  at_bol prev = at_bol prev' \/ bol_free p = true ->
  forall s n, scan p prev s n = scan p prev' s n.
Proof.
  intros H s n. destruct s as [|c s]; simpl.
  - rewrite (match_items_prev p prev prev' H). reflexivity.
  - rewrite (match_items_prev p prev prev' H). reflexivity.
Qed.

Lemma re_sub_pieces p repl s :
  re_sub p repl s = flat_map (piece_sub repl) (scan p None s 0).
Proof. reflexivity. Qed.

(** A pattern whose classes all reject [a] never matches across [a]:
    substitution works on the two sides of [a] independently. *)
Lemma re_sub_barrier a p repl u v :
  barrier a p = true -> consumes p ->
  at_bol (Some a) = true \/ bol_free p = true ->
  re_sub p repl (u ++ a :: v) = re_sub p repl u ++ a :: re_sub p repl v.
Proof.
  intros Hb Hc Hprev. rewrite !re_sub_pieces.
  rewrite scan_barrier by (auto; lia).
  rewrite flat_map_app. simpl. f_equal. f_equal. f_equal.
  apply scan_prev. destruct Hprev as [H|H]; [left; rewrite H; reflexivity | right; exact H].
Qed.

(** The pieces of a scan, put back together, are the text scanned. *)
Lemma scan_whole p s :
  forall prev n, flat_map (piece_sub (fun w _ => w)) (scan p prev s n) = drop n s.
Proof.
  induction s as [|c s IH]; intros prev n.
  - simpl. destruct n; [|reflexivity].
    destruct (match_items p prev [] []) as [[? ?]|]; reflexivity.
  - simpl. destruct n as [|n]; [|apply IH].
    destruct (match_items p prev (c :: s) []) as [[gs rest]|].
    + simpl. destruct (S (length s) - length rest) as [|m]; simpl.
      * rewrite IH. reflexivity.
      * rewrite IH. rewrite take_drop. reflexivity.
    + simpl. rewrite IH. reflexivity.
Qed.

(** Replacing every match by itself changes nothing. *)
Lemma re_sub_whole p s : re_sub p (fun w _ => w) s = s.
Proof. rewrite re_sub_pieces. apply scan_whole. Qed.

Lemma scan_no_hit p repl s :
  forall prev n,
    forallb (fun x => negb (is_hit x)) (scan p prev s n) = true ->
    flat_map (piece_sub repl) (scan p prev s n) = drop n s.
Proof.
  induction s as [|c s IH]; intros prev n H.
  - simpl in *. destruct n; [|reflexivity].
    destruct (match_items p prev [] []) as [[? ?]|]; [discriminate | reflexivity].
  - simpl in *. destruct n as [|n]; [|apply IH; exact H].
    destruct (match_items p prev (c :: s) []) as [[gs rest]|]; [discriminate|].
    simpl in *. rewrite IH by exact H. reflexivity.
Qed.

(** A text in which [re.findall] finds nothing is left as it is by
    [re.sub]. *)
Lemma re_sub_no_match p repl s : re_findall p s = [] -> re_sub p repl s = s.
Proof.
  intros H. rewrite re_sub_pieces.
  rewrite scan_no_hit; [reflexivity|].
  unfold re_findall in H. revert H. generalize (scan p None s 0) as ps.
  induction ps as [|x ps IH]; [reflexivity|].
  destruct x; simpl; [exact IH | discriminate].
Qed.

(** The characters kept by a scan are characters of the text. *)
Lemma scan_keep p s :
  forall prev n c, In (Keep c) (scan p prev s n) -> In c s.
Proof.
  induction s as [|a s IH]; intros prev n c H.
  - simpl in H. destruct n; [|destruct H].
    destruct (match_items p prev [] []) as [[? ?]|]; simpl in H; [|destruct H].
    destruct H as [H|[]]; discriminate.
  - simpl in H. destruct n as [|n]; [|right; eapply IH; exact H].
    destruct (match_items p prev (a :: s) []) as [[gs rest]|].
    + destruct H as [H|H]; [discriminate|].
      simpl in H. destruct (S (length s) - length rest).
      * destruct H as [H|H]; [injection H as ->; left; reflexivity|].
        right; eapply IH; exact H.
      * right; eapply IH; exact H.
    + destruct H as [H|H]; [injection H as ->; left; reflexivity|].
      right; eapply IH; exact H.
Qed.

Lemma re_sub_Forall (P : ascii -> Prop) p repl s :
  Forall P s -> (forall w gs, Forall P (repl w gs)) -> Forall P (re_sub p repl s).
Proof.
  intros Hs Hr. rewrite re_sub_pieces.
  assert (forall x, In x (scan p None s 0) -> Forall P (piece_sub repl x)) as Hx.
  { intros [c|w gs] Hin; simpl; [|apply Hr].
    apply scan_keep in Hin. rewrite Forall_forall in Hs.
    constructor; [apply Hs; apply list_elem_of_In; exact Hin | constructor]. }
  revert Hx. generalize (scan p None s 0) as ps.
  induction ps as [|x ps IH]; intros Hx; simpl; [constructor|].
  apply Forall_app. split; [apply Hx; left; reflexivity|].
  apply IH. intros y Hy. apply Hx. right. exact Hy.
Qed.

Lemma rep_needs cls g cap k lo hi prev s acc gs :
  match s with [] => True | c :: _ => cls c = false end ->
  rep cls g cap k (S lo) hi prev s acc gs = None.
Proof.
  destruct s as [|c s]; intros H; destruct g; simpl; try reflexivity;
    rewrite H; reflexivity.
Qed.

Lemma match_needs cls p prev s gs :
  needs cls p ->
  match s with [] => True | c :: _ => cls c = false end ->
  match_items p prev s gs = None.
Proof.
  intros Hp Hs. destruct p as [|[| |cap cls' [|lo] hi g] p]; simpl in Hp; try contradiction.
  - destruct p as [|[| |cap cls' [|lo] hi g] p]; simpl in Hp; try contradiction.
    subst cls'. simpl. destruct (at_bol prev); [|reflexivity].
    apply rep_needs. exact Hs.
  - subst cls'. simpl. apply rep_needs. exact Hs.
Qed.

Lemma scan_absent cls p s :
  needs cls p -> Forall (fun c => cls c = false) s ->
  forall prev n, forallb (fun x => negb (is_hit x)) (scan p prev s n) = true.
Proof.
  intros Hp. induction s as [|c s IH]; intros Hs prev n.
  - simpl. destruct n; [|reflexivity].
    rewrite (match_needs cls p prev [] []); [reflexivity | exact Hp | exact I].
  - apply Forall_cons in Hs as [Hc Hs]. simpl. destruct n as [|n]; [|apply IH; exact Hs].
    rewrite (match_needs cls p prev (c :: s) []); [|exact Hp | exact Hc].
    simpl. apply IH. exact Hs.
Qed.

Lemma re_sub_absent cls p repl s :
  needs cls p -> Forall (fun c => cls c = false) s -> re_sub p repl s = s.
Proof.
  intros Hp Hs. rewrite re_sub_pieces.
  rewrite scan_no_hit; [reflexivity|]. eapply scan_absent; eassumption.
Qed.

(** * No pattern of the source matches the empty text *)

Lemma rep_consumed cls g cap (k : cont) (need : bool) :
  (forall prev s gs gs' rest,
      k prev s gs = Some (gs', rest) ->
      exists m, s = m ++ rest /\ (need = true -> m <> [])) ->
  forall s lo hi prev acc gs gs' rest,
    rep cls g cap k lo hi prev s acc gs = Some (gs', rest) ->
    exists m, s = m ++ rest /\ (need = true \/ lo <> 0 -> m <> []).
Proof.
  intros Hk s. induction s as [|c s IH]; intros lo hi prev acc gs gs' rest H.
  - assert (lo = 0 /\ k prev [] (close_group cap acc gs) = Some (gs', rest)) as [-> Hs].
    { destruct g, lo; simpl in H; try discriminate;
        (split; [reflexivity|]);
        destruct (k prev [] (close_group cap acc gs)); congruence. }
    destruct (Hk _ _ _ _ _ Hs) as (m & E & Hm). exists m. split; [exact E|].
    intros [Hn|Hn]; [auto | contradiction].
  - assert ((cls c && may_take hi = true
             /\ rep cls g cap k (pred lo) (pred <$> hi) (Some c) s (c :: acc) gs
                = Some (gs', rest))
            \/ (lo = 0 /\ k prev (c :: s) (close_group cap acc gs) = Some (gs', rest)))
      as [[_ Ht]|[-> Hs]].
    { cbn [rep] in H. destruct g.
      - destruct (cls c && may_take hi).
        + destruct (rep cls Greedy cap k (pred lo) (pred <$> hi) (Some c) s (c :: acc) gs)
            as [o|] eqn:E; [left; split; [reflexivity | congruence]|].
          destruct lo; [right; auto | discriminate].
        + destruct lo; [right; auto | discriminate].
      - destruct lo.
        + destruct (k prev (c :: s) (close_group cap acc gs)) as [o|] eqn:E;
            [right; split; [reflexivity | congruence]|].
          destruct (cls c && may_take hi); [left; auto | discriminate].
        + destruct (cls c && may_take hi); [left; auto | discriminate]. }
    + destruct (IH _ _ _ _ _ _ _ Ht) as (m & -> & _).
      exists (c :: m). split; [reflexivity | discriminate].
    + destruct (Hk _ _ _ _ _ Hs) as (m & E & Hm). exists m. split; [exact E|].
      intros [Hn|Hn]; [auto | contradiction].
Qed.

(** What a match leaves is a suffix of the text, and a proper one when
    some item of the pattern must take a character. *)
Lemma match_consumed p :
  forall prev s gs gs' rest,
    match_items p prev s gs = Some (gs', rest) ->
    exists m, s = m ++ rest /\ (takes_one p = true -> m <> []).
Proof.
  induction p as [|it p IH]; intros prev s gs gs' rest H.
  - injection H as _ <-. exists []. split; [reflexivity | discriminate].
  - destruct it as [| |cap cls lo hi g]; cbn [match_items] in H.
    + destruct (at_bol prev); [|discriminate]. apply IH in H. exact H.
    + destruct (at_eol s); [|discriminate]. apply IH in H. exact H.
    + apply (rep_consumed cls g cap _ (takes_one p) IH) in H as (m & E & Hm).
      exists m. split; [exact E|]. intros Ht. apply Hm.
      cbn [takes_one existsb] in Ht. destruct lo; [left; exact Ht | right; discriminate].
Qed.

Lemma patterns_consume p prev s gs rest :
  In p source_patterns ->
  match_items p prev s [] = Some (gs, rest) ->
  exists m, s = m ++ rest /\ m <> [].
Proof.
  intros Hin H. destruct (match_consumed p _ _ _ _ _ H) as (m & E & Hm).
  exists m. split; [exact E|]. apply Hm.
  assert (forallb takes_one source_patterns = true) as Hall by reflexivity.
  rewrite forallb_forall in Hall. apply Hall. exact Hin.
Qed.

(** * The filename sanitizer *)

Lemma sanitize_filename_core filename :
  sanitize_filename filename =
  let name := match sanitized_core filename with
              | [] => txt "untitled"
              | _ => sanitized_core filename
              end in
  if 100 <? length name then take 100 name else name.
Proof. reflexivity. Qed.

Lemma match_one cls prev c s gs :
  match_items [One cls] prev (c :: s) gs = if cls c then Some (gs, s) else None.
Proof.
  simpl. destruct (cls c); simpl; [|reflexivity].
  destruct s as [|d s]; simpl; [reflexivity|].
  rewrite andb_false_r. reflexivity.
Qed.

Lemma scan_one cls s :
  forall prev, scan [One cls] prev s 0 = map (fun c => if cls c then Hit [c] [] else Keep c) s.
Proof.
  induction s as [|c s IH]; intros prev; [reflexivity|].
  cbn [scan map]. rewrite match_one. destruct (cls c).
  - replace (length (c :: s) - length s) with 1 by (simpl; lia).
    simpl. rewrite IH. reflexivity.
  - rewrite IH. reflexivity.
Qed.

(** Substituting a one-character class is a character-wise map. *)
Lemma re_sub_one cls r s :
  re_sub [One cls] (fun _ _ => r) s = flat_map (fun c => if cls c then r else [c]) s.
Proof.
  rewrite re_sub_pieces, scan_one.
  induction s as [|c s IH]; [reflexivity|].
  simpl. rewrite IH. destruct (cls c); reflexivity.
Qed.

Lemma drop_while_all P s : Forall (fun c => P c = true) s -> drop_while P s = [].
Proof.
  induction 1 as [|c s Hc _ IH]; [reflexivity|]. simpl. rewrite Hc. exact IH.
Qed.

Lemma dropped_core s :
  Forall (fun c => dropped c = true) s -> sanitized_core s = [].
Proof.
  intros H. unfold sanitized_core, strip_chars, rstrip_by, lstrip_by.
  rewrite (drop_while_all _ (re_sub _ _ _)); [reflexivity|].
  apply re_sub_Forall; [|intros; repeat constructor].
  rewrite re_sub_one. rewrite Forall_forall in H.
  apply Forall_forall. intros c Hc. apply list_elem_of_In in Hc.
  apply in_flat_map in Hc as (d & Hd & Hc).
  assert (dropped d = true) as Hdd by (apply H, list_elem_of_In, Hd).
  unfold dropped in Hdd. destruct (one_of invalid_chars d).
  - destruct Hc as [<-|[]]. reflexivity.
  - destruct Hc as [<-|[]]. exact Hdd.
Qed.

(** C6.  [sanitize_filename] is a total function (it cannot raise), and for
    every input its result is not empty and has at most 100 characters; the
    result is the literal [untitled] whenever the input sanitizes to the
    empty text, which is the case in particular for the empty input and for
    every input made only of replaced or stripped characters. *)
Theorem sanitize_filename_usable (filename : text) :
  sanitize_filename filename <> []
  /\ length (sanitize_filename filename) <= 100
  /\ (sanitized_core filename = [] -> sanitize_filename filename = txt "untitled")
  /\ (Forall (fun c => dropped c = true) filename ->
      sanitize_filename filename = txt "untitled")
  /\ sanitize_filename [] = txt "untitled".
Proof.
  assert (sanitized_core filename = [] -> sanitize_filename filename = txt "untitled") as Hcore.
  { intros H. rewrite sanitize_filename_core, H. reflexivity. }
  repeat split.
  - rewrite sanitize_filename_core.
    destruct (sanitized_core filename) as [|c n]; [discriminate|].
    cbv zeta. destruct (100 <? length (c :: n)); discriminate.
  - rewrite sanitize_filename_core. cbv zeta.
    destruct (100 <? length _) eqn:E.
    + rewrite length_take. lia.
    + apply Nat.ltb_ge in E. exact E.
  - exact Hcore.
  - intros H. apply Hcore, dropped_core, H.
Qed.

Lemma sanitize_filename_usable_witness :
  Forall (fun c => dropped c = true) (txt "<_ ?>")
  /\ sanitize_filename (txt "<_ ?>") = txt "untitled".
Proof.
  assert (Forall (fun c => dropped c = true) (txt "<_ ?>")) as H
    by (repeat constructor).
  split; [exact H|].
  exact (proj1 (proj2 (proj2 (proj2 (sanitize_filename_usable (txt "<_ ?>"))))) H).
Defined.

Example sanitize_filename_long :
  length (sanitize_filename (repeat "a" 150)) = 100.
Proof. vm_compute. reflexivity. Qed.

(** * The export formatter *)

Lemma startswith_strip c s :
  is_space c = false ->
  startswith [c] (strip s) = startswith [c] (lstrip_by is_space s).
Proof.
  intros Hc. unfold strip, rstrip_by. generalize (lstrip_by is_space s) as t.
  intros t. destruct t as [|a t]; [reflexivity|].
  simpl. destruct (Ascii.eqb c a) eqn:E.
  - apply Ascii.eqb_eq in E. subst a.
    assert (exists r, rev (drop_while is_space (rev t ++ [c])) = c :: r) as [r ->].
    { generalize (rev t) as u. induction u as [|b u IH]; simpl.
      - rewrite Hc. simpl. eexists; reflexivity.
      - destruct (is_space b); [exact IH|].
        simpl. rewrite rev_app_distr. simpl. eexists; reflexivity. }
    simpl. rewrite Ascii.eqb_refl. reflexivity.
  - destruct (rev (drop_while is_space (rev t ++ [a]))) as [|b r] eqn:Er; [reflexivity|].
    simpl. assert (b = a) as ->; [|rewrite E; reflexivity].
    revert Er. generalize (rev t) as u. induction u as [|d u IH]; simpl.
    + destruct (is_space a); simpl; [discriminate | congruence].
    + destruct (is_space d); [exact IH|].
      simpl. rewrite rev_app_distr. simpl. congruence.
Qed.

(** C7.  The exported Markdown is the front-matter block followed by the
    body; the body is the raw content, unchanged, when the first character
    of the content after its leading white space is [#], and otherwise the
    synthesized line [# title], a blank line, and the content. *)
Theorem export_to_markdown_heading (now : datetime) (t : Template) :
  export_to_markdown now t =
  markdown_metadata now t ++
    (if startswith ["#"] (lstrip_by is_space (content t))
     then content t
     else txt "# " ++ title t ++ NL :: NL :: content t).
Proof.
  unfold export_to_markdown, markdown_body.
  rewrite startswith_strip by reflexivity.
  destruct (startswith ["#"] (lstrip_by is_space (content t))); reflexivity.
Qed.

(** * The list count of [get_export_stats] *)

(** C3.  On the content [1. First], one ordered list line, the [lists]
    field is 0: the set of the pattern holds the digit class and the full
    stop as single characters, so a line counts only when its very first
    character is followed by white space.  Unordered lines are counted, and
    so is a line such as [1 apple], which is no list line. *)
Theorem lists_misses_ordered_lines :
  lists (get_export_stats (template_of (txt "T") (txt "1. First"))) = 0
  /\ spec_list_lines (txt "1. First") = 1
  /\ lists (get_export_stats (template_of (txt "T")
       (txt "- a" ++ NL :: txt "* b" ++ NL :: txt "1. c" ++ NL :: txt "12. d"))) = 2
  /\ spec_list_lines (txt "- a" ++ NL :: txt "* b" ++ NL :: txt "1. c" ++ NL :: txt "12. d") = 4
  /\ lists (get_export_stats (template_of (txt "T") (txt "1 apple"))) = 1
  /\ spec_list_lines (txt "1 apple") = 0.
Proof. vm_compute. repeat split; reflexivity. Qed.

Example get_export_stats_empty :
  let st := get_export_stats (template_of (txt "Empty") []) in
  words st = 0 /\ characters st = 0 /\ headers st = 0 /\ estimated_reading_time st = 1.
Proof. vm_compute. repeat split; reflexivity. Qed.

(** * The emphasis passes work line by line *)

Lemma sub_span_line c n u v :
  barrier NL (re_span c n) = true -> consumes (re_span c n) ->
  sub_span c n (u ++ NL :: v) = sub_span c n u ++ NL :: sub_span c n v.
Proof.
  intros Hb Hc. unfold sub_span. apply re_sub_barrier; [exact Hb | exact Hc |].
  left. reflexivity.
Qed.

Lemma sub_emphasis_line u v :
  sub_emphasis (u ++ NL :: v) = sub_emphasis u ++ NL :: sub_emphasis v.
Proof.
  unfold sub_emphasis.
  rewrite (sub_span_line "*" 3) by (try reflexivity; intros ?; reflexivity).
  rewrite (sub_span_line "*" 2) by (try reflexivity; intros ?; reflexivity).
  rewrite (sub_span_line "*" 1) by (try reflexivity; intros ?; reflexivity).
  rewrite (sub_span_line "_" 2) by (try reflexivity; intros ?; reflexivity).
  rewrite (sub_span_line "_" 1) by (try reflexivity; intros ?; reflexivity).
  reflexivity.
Qed.

(** C4, as stated, fails: the three stars that open a bold italic span
    broken across a line feed are matched by the italic pass on their own
    line and two of them are removed, and so are the closing three; the
    star that closes a broken italic span pairs with the star that opens
    the next span of its line. *)
Lemma broken_span_markers_modified :
  markdown_to_text (txt "***a" ++ NL :: txt "b***") = txt "*a" ++ NL :: txt "b*"
  /\ markdown_to_text (txt "*a" ++ NL :: txt "b* *c*") = txt "*a" ++ NL :: txt "b c*".
Proof. vm_compute. split; reflexivity. Qed.

(** * Unfolding a substitution one match at a time *)

Lemma scan_skip p m :
  forall prev rest, bol_free p = true ->
    scan p prev (m ++ rest) (length m) = scan p None rest 0.
Proof.
  induction m as [|c m IH]; intros prev rest Hp; simpl.
  - apply scan_prev. right. exact Hp.
  - apply IH. exact Hp.
Qed.

Lemma re_sub_nil p repl : consumes p -> re_sub p repl [] = [].
Proof. intros Hc. unfold re_sub. simpl. rewrite (Hc None). reflexivity. Qed.

Lemma re_sub_miss p repl c s :
  bol_free p = true ->
  match_items p None (c :: s) [] = None ->
  re_sub p repl (c :: s) = c :: re_sub p repl s.
Proof.
  intros Hp Hm. unfold re_sub. cbn [scan]. rewrite Hm. simpl. f_equal. f_equal.
  apply scan_prev. right. exact Hp.
Qed.

Lemma re_sub_hit p repl s gs m rest :
  bol_free p = true ->
  match_items p None s [] = Some (gs, rest) ->
  s = m ++ rest -> m <> [] ->
  re_sub p repl s = repl m gs ++ re_sub p repl rest.
Proof.
  intros Hp Hm -> Hne. destruct m as [|c m]; [contradiction|].
  unfold re_sub. cbn [scan app]. change (c :: m ++ rest) with ((c :: m) ++ rest) in Hm.
  simpl in Hm. rewrite Hm.
  assert (length (c :: m ++ rest) - length rest = S (length m)) as ->.
  { simpl. rewrite length_app. lia. }
  change (c :: m ++ rest) with ((c :: m) ++ rest).
  rewrite (take_app_length' (c :: m)) by reflexivity.
  cbn [flat_map piece_sub]. f_equal. f_equal. apply scan_skip. exact Hp.
Qed.

Lemma match_one_step cls p prev s gs :
  match_items (Rep false cls 1 (Some 1) Greedy :: p) prev s gs =
  match s with
  | c :: s' => if cls c then match_items p (Some c) s' gs else None
  | [] => None
  end.
Proof.
  destruct s as [|c s]; [reflexivity|]. simpl. destruct (cls c); [|reflexivity].
  simpl. destruct s as [|d s]; simpl; [|rewrite andb_false_r];
    destruct (match_items p (Some c) _ gs) as [[? ?]|]; reflexivity.
Qed.

(** * The blank-line cleanup *)

Lemma star_nl_last s :
  forall prev acc gs,
    rep is_space Greedy false (match_items [Lit NL]) 0 None prev s acc gs
    = tag gs (last_nl s).
Proof.
  induction s as [|c s IH]; intros prev acc gs; [reflexivity|].
  cbn [rep last_nl]. destruct (is_space c) eqn:Hc; cbn [andb may_take].
  - rewrite IH. destruct (last_nl s) as [r|]; [reflexivity|].
    cbn [tag pred close_group]. unfold Lit. rewrite (match_one_step (chr NL) []).
    unfold chr. destruct (Ascii.eqb c NL); reflexivity.
  - cbn [close_group]. unfold Lit. rewrite (match_one_step (chr NL) []).
    unfold chr. destruct (Ascii.eqb c NL) eqn:E; [|reflexivity].
    apply Ascii.eqb_eq in E. subst c. discriminate.
Qed.

Lemma star_nl_two s :
  forall prev acc gs,
    rep is_space Greedy false
        (match_items [Lit NL; Rep false is_space 0 None Greedy; Lit NL])
        0 None prev s acc gs
    = tag gs (two_nl s).
Proof.
  induction s as [|c s IH]; intros prev acc gs; [reflexivity|].
  cbn [rep two_nl]. destruct (is_space c) eqn:Hc; cbn [andb may_take].
  - rewrite IH. destruct (two_nl s) as [r|]; [reflexivity|].
    cbn [tag pred close_group]. unfold Lit at 1. rewrite match_one_step.
    unfold chr at 1. destruct (Ascii.eqb c NL); [|reflexivity].
    cbn [match_items]. apply star_nl_last.
  - cbn [close_group]. unfold Lit at 1. rewrite match_one_step.
    unfold chr at 1. destruct (Ascii.eqb c NL) eqn:E; [|reflexivity].
    apply Ascii.eqb_eq in E. subst c. discriminate.
Qed.

(** The matcher on the pattern of the cleanup, as a function of the text. *)
Lemma match_blank prev s gs :
  match_items re_blank prev s gs = tag gs (blank_match s).
Proof.
  unfold re_blank. unfold Lit at 1. rewrite match_one_step.
  destruct s as [|c s]; [reflexivity|]. unfold chr at 1. cbn [blank_match].
  destruct (Ascii.eqb c NL); [|reflexivity].
  cbn [match_items]. apply star_nl_two.
Qed.

Lemma last_nl_none s : last_nl s = None <-> nlc s = 0.
Proof.
  induction s as [|c s IH]; simpl; [tauto|].
  destruct (is_space c); [|tauto].
  destruct (last_nl s) as [r|].
  - split; [discriminate|]. intros H.
    assert (nlc s = 0) as H0 by lia. apply IH in H0. discriminate.
  - assert (nlc s = 0) as -> by (apply IH; reflexivity).
    destruct (Ascii.eqb c NL); split; (discriminate || reflexivity).
Qed.

Lemma two_nl_none s : two_nl s = None <-> nlc s <= 1.
Proof.
  induction s as [|c s IH]; simpl; [split; [lia | reflexivity]|].
  destruct (is_space c); [|split; [lia | reflexivity]].
  destruct (two_nl s) as [r|].
  - split; [discriminate|]. intros H.
    assert (nlc s <= 1) as H0 by lia. apply IH in H0. discriminate.
  - assert (nlc s <= 1) as Hs by (apply IH; reflexivity).
    destruct (Ascii.eqb c NL); [|split; [lia | reflexivity]].
    rewrite last_nl_none. lia.
Qed.

Lemma last_nl_rest s r :
  last_nl s = Some r -> nlc r = 0 /\ exists m, s = m ++ r /\ m <> [].
Proof.
  revert r. induction s as [|c s IH]; intros r; simpl; [discriminate|].
  destruct (is_space c); [|discriminate].
  destruct (last_nl s) as [r'|] eqn:E.
  - intros [= <-]. destruct (IH r' eq_refl) as (H0 & m & -> & _).
    split; [exact H0|]. exists (c :: m). split; [reflexivity | discriminate].
  - destruct (Ascii.eqb c NL); [|discriminate]. intros [= <-].
    split; [apply last_nl_none; exact E|].
    exists [c]. split; [reflexivity | discriminate].
Qed.

Lemma two_nl_last s r : two_nl s = Some r -> last_nl s = Some r.
Proof.
  revert r. induction s as [|c s IH]; intros r; simpl; [discriminate|].
  destruct (is_space c); [|discriminate].
  destruct (two_nl s) as [r'|].
  - intros [= <-]. rewrite (IH r' eq_refl). reflexivity.
  - destruct (Ascii.eqb c NL); [|discriminate]. intros H. rewrite H. reflexivity.
Qed.

Lemma blank_match_rest s r :
  blank_match s = Some r ->
  nlc r = 0 /\ 3 <= nlc s /\ exists m, s = m ++ r /\ m <> [].
Proof.
  destruct s as [|c s]; simpl; [discriminate|].
  destruct (Ascii.eqb c NL) eqn:E; [|discriminate].
  apply Ascii.eqb_eq in E. subst c. intros H.
  assert (nlc s <= 1 -> False) as Hn.
  { intros Hle. apply two_nl_none in Hle. congruence. }
  apply two_nl_last, last_nl_rest in H as (H0 & m & -> & _).
  split; [exact H0|]. split; [change (is_space NL) with true; cbv iota; lia|].
  exists (NL :: m). split; [reflexivity | discriminate].
Qed.

Lemma blank_match_none s : nlc s <= 2 -> blank_match s = None.
Proof.
  destruct s as [|c s]; [reflexivity|]. simpl.
  destruct (Ascii.eqb c NL) eqn:E; [|reflexivity].
  apply Ascii.eqb_eq in E. subst c. change (is_space NL) with true. cbv iota.
  intros H. apply two_nl_none. lia.
Qed.

Lemma blank_match_other c s : c <> NL -> blank_match (c :: s) = None.
Proof.
  intros H. simpl. destruct (Ascii.eqb c NL) eqn:E; [|reflexivity].
  apply Ascii.eqb_eq in E. contradiction.
Qed.

Lemma consumes_blank : consumes re_blank.
Proof. intros prev. reflexivity. Qed.

Lemma sub_blank_nil : sub_blank [] = [].
Proof. reflexivity. Qed.

Lemma sub_blank_miss c s :
  blank_match (c :: s) = None -> sub_blank (c :: s) = c :: sub_blank s.
Proof.
  intros H. unfold sub_blank. apply re_sub_miss; [reflexivity|].
  rewrite match_blank, H. reflexivity.
Qed.

Lemma sub_blank_hit s r :
  blank_match s = Some r -> sub_blank s = NL :: NL :: sub_blank r.
Proof.
  intros H. destruct (blank_match_rest s r H) as (_ & _ & m & Hs & Hm).
  unfold sub_blank.
  rewrite (re_sub_hit re_blank _ s [] m r); [reflexivity | reflexivity | | exact Hs | exact Hm].
  rewrite match_blank, H. reflexivity.
Qed.

Lemma settled_fix t : settled t = true -> sub_blank t = t.
Proof.
  induction t as [|c t IH]; intros H; [reflexivity|].
  cbn [settled] in H. apply andb_true_iff in H as [H1 H2].
  apply Nat.leb_le in H1.
  rewrite sub_blank_miss by (apply blank_match_none; exact H1).
  rewrite IH by exact H2. reflexivity.
Qed.

Lemma settled_nlc t : settled t = true -> nlc t <= 2.
Proof.
  destruct t as [|c t]; [simpl; lia|]. cbn [settled].
  intros H. apply andb_true_iff in H as [H _]. apply Nat.leb_le in H. exact H.
Qed.

Lemma sub_blank_settled_len n :
  forall x, length x <= n ->
    settled (sub_blank x) = true /\ nlc (sub_blank x) <= nlc x.
Proof.
  induction n as [|n IH]; intros x Hlen.
  - destruct x; [|simpl in Hlen; lia]. split; [reflexivity | simpl; lia].
  - destruct x as [|c x]; [split; [reflexivity | simpl; lia]|].
    destruct (blank_match (c :: x)) as [r|] eqn:E.
    + rewrite (sub_blank_hit _ _ E).
      destruct (blank_match_rest _ _ E) as (H0 & H3 & m & Hs & Hm).
      assert (length r <= n) as Hr.
      { apply (f_equal length) in Hs. rewrite length_app in Hs. simpl in *.
        destruct m; [contradiction|]. simpl in Hs. lia. }
      destruct (IH r Hr) as [Hset Hn].
      assert (nlc (sub_blank r) = 0) as Hz by lia.
      split.
      * cbn [settled]. rewrite Hset.
        change (nlc (NL :: NL :: sub_blank r)) with (1 + (1 + nlc (sub_blank r))).
        change (nlc (NL :: sub_blank r)) with (1 + nlc (sub_blank r)).
        rewrite Hz. reflexivity.
      * change (nlc (NL :: NL :: sub_blank r)) with (1 + (1 + nlc (sub_blank r))).
        lia.
    + rewrite (sub_blank_miss _ _ E).
      assert (length x <= n) as Hx by (simpl in Hlen; lia).
      destruct (IH x Hx) as [Hset Hn].
      assert (nlc (c :: sub_blank x) <= nlc (c :: x)) as Hle.
      { simpl. destruct (is_space c); lia. }
      split; [|exact Hle].
      cbn [settled]. rewrite Hset, andb_true_r. apply Nat.leb_le.
      pose proof (settled_nlc _ Hset) as H2.
      simpl in E. simpl. destruct (is_space c); [|lia].
      destruct (Ascii.eqb c NL); [|simpl; lia].
      apply two_nl_none in E. lia.
Qed.

Lemma sub_blank_settled x : settled (sub_blank x) = true.
Proof. apply (sub_blank_settled_len (length x) x). lia. Qed.

(** The cleanup has nothing left to do on its own result. *)
Lemma sub_blank_idem x : sub_blank (sub_blank x) = sub_blank x.
Proof. apply settled_fix, sub_blank_settled. Qed.

Lemma nlc_app s r : nlc s <= nlc (s ++ r).
Proof.
  induction s as [|c s IH]; simpl; [lia|]. destruct (is_space c); lia.
Qed.

Lemma settled_suffix l t : settled (l ++ t) = true -> settled t = true.
Proof.
  induction l as [|c l IH]; [trivial|]. cbn [app settled].
  intros H. apply andb_true_iff in H as [_ H]. apply IH, H.
Qed.

Lemma settled_prefix t r : settled (t ++ r) = true -> settled t = true.
Proof.
  induction t as [|c t IH]; [reflexivity|]. cbn [app settled].
  intros H. apply andb_true_iff in H as [H1 H2]. apply Nat.leb_le in H1.
  rewrite (IH H2), andb_true_r. apply Nat.leb_le.
  pose proof (nlc_app (c :: t) r). simpl in *. lia.
Qed.

Lemma drop_while_suffix P s : exists l, s = l ++ drop_while P s.
Proof.
  induction s as [|c s [l IH]]; [exists []; reflexivity|]. simpl.
  destruct (P c); [|exists []; reflexivity].
  exists (c :: l). simpl. f_equal. exact IH.
Qed.

Lemma rstrip_prefix P s : exists r, s = rstrip_by P s ++ r.
Proof.
  unfold rstrip_by. destruct (drop_while_suffix P (rev s)) as [l Hl].
  exists (rev l). rewrite <- rev_app_distr, <- Hl, rev_involutive. reflexivity.
Qed.

Lemma settled_strip t : settled t = true -> settled (strip t) = true.
Proof.
  intros H. unfold strip, lstrip_by.
  destruct (drop_while_suffix is_space t) as [l Hl].
  destruct (rstrip_prefix is_space (drop_while is_space t)) as [r Hr].
  rewrite Hl in H. apply settled_suffix in H. rewrite Hr in H.
  apply settled_prefix in H. exact H.
Qed.

Lemma drop_while_idem P s : drop_while P (drop_while P s) = drop_while P s.
Proof.
  induction s as [|c s IH]; [reflexivity|]. simpl.
  destruct (P c) eqn:E; [exact IH|]. simpl. rewrite E. reflexivity.
Qed.

Lemma drop_while_head P s :
  match s with [] => True | c :: _ => P c = false end -> drop_while P s = s.
Proof. destruct s as [|c s]; [reflexivity|]. simpl. intros ->. reflexivity. Qed.

Lemma drop_while_is_head P s :
  match drop_while P s with [] => True | c :: _ => P c = false end.
Proof.
  induction s as [|c s IH]; [exact I|]. simpl.
  destruct (P c) eqn:E; [exact IH | exact E].
Qed.

(** [strip] is idempotent. *)
Lemma strip_idem t : strip (strip t) = strip t.
Proof.
  unfold strip, lstrip_by. set (a := drop_while is_space t).
  assert (drop_while is_space (rstrip_by is_space a) = rstrip_by is_space a) as ->.
  { apply drop_while_head.
    destruct (rstrip_prefix is_space a) as [r Hr].
    pose proof (drop_while_is_head is_space t) as Hh. fold a in Hh.
    destruct (rstrip_by is_space a) as [|c b]; [exact I|].
    rewrite Hr in Hh. exact Hh. }
  unfold rstrip_by. rewrite rev_involutive, drop_while_idem. reflexivity.
Qed.

(** * Stability of [markdown_to_text] on text without markers *)

Lemma markdown_to_text_passes s :
  markdown_to_text s = match s with [] => [] | _ => strip (sub_blank (passes s)) end.
Proof. destruct s; reflexivity. Qed.

Lemma markdown_to_text_shape s :
  exists x, markdown_to_text s = strip (sub_blank x).
Proof.
  rewrite markdown_to_text_passes. destruct s as [|c s].
  - exists []. reflexivity.
  - eexists. reflexivity.
Qed.

Lemma marker_free_absent c t :
  one_of ["#"; "*"; "`"; "_"] c = true ->
  marker_free t = true -> Forall (fun x => chr c x = false) t.
Proof.
  intros Hc H. unfold marker_free in H. rewrite forallb_forall in H.
  apply Forall_forall. intros x Hx. apply list_elem_of_In in Hx.
  specialize (H x Hx). unfold chr. destruct (Ascii.eqb x c) eqn:E; [|reflexivity].
  apply Ascii.eqb_eq in E. subst x. rewrite Hc in H. discriminate.
Qed.

Lemma lacks_sub p repl t : lacks p t = true -> re_sub p repl t = t.
Proof.
  unfold lacks. intros H. apply re_sub_no_match.
  destruct (re_findall p t); [reflexivity | discriminate].
Qed.

Lemma passes_clean t : clean t = true -> passes t = t.
Proof.
  unfold clean. rewrite !andb_true_iff.
  intros ((((Hm & Hlink) & Hquote) & Hulist) & Hrule).
  unfold passes, sub_header, sub_emphasis, sub_fences, sub_span.
  rewrite (re_sub_absent (chr "#") re_header);
    [|reflexivity | apply marker_free_absent; [reflexivity | exact Hm]].
  rewrite (re_sub_absent (chr "*") (re_span "*" 3));
    [|reflexivity | apply marker_free_absent; [reflexivity | exact Hm]].
  rewrite (re_sub_absent (chr "*") (re_span "*" 2));
    [|reflexivity | apply marker_free_absent; [reflexivity | exact Hm]].
  rewrite (re_sub_absent (chr "*") (re_span "*" 1));
    [|reflexivity | apply marker_free_absent; [reflexivity | exact Hm]].
  rewrite (re_sub_absent (chr "_") (re_span "_" 2));
    [|reflexivity | apply marker_free_absent; [reflexivity | exact Hm]].
  rewrite (re_sub_absent (chr "_") (re_span "_" 1));
    [|reflexivity | apply marker_free_absent; [reflexivity | exact Hm]].
  rewrite (re_sub_absent (chr "`") (re_span "`" 1));
    [|reflexivity | apply marker_free_absent; [reflexivity | exact Hm]].
  rewrite (re_sub_absent (chr "`") re_fence_open);
    [|reflexivity | apply marker_free_absent; [reflexivity | exact Hm]].
  rewrite (re_sub_absent (chr "`") re_fence_close);
    [|reflexivity | apply marker_free_absent; [reflexivity | exact Hm]].
  unfold sub_link. rewrite lacks_sub by exact Hlink.
  unfold sub_quote. rewrite lacks_sub by exact Hquote.
  unfold sub_ulist. rewrite lacks_sub by exact Hulist.
  unfold sub_olist. rewrite re_sub_whole.
  unfold sub_rule. rewrite lacks_sub by exact Hrule.
  reflexivity.
Qed.

(** C8.  When [markdown_to_text c] holds no [#], star, backquote or
    underscore and no link, block quote, list or horizontal rule construct,
    converting it a second time gives the same text. *)
Theorem markdown_to_text_stable (c : text) :
  clean (markdown_to_text c) = true ->
  markdown_to_text (markdown_to_text c) = markdown_to_text c.
Proof.
  intros Hclean. destruct (markdown_to_text_shape c) as [x Hx].
  rewrite Hx in *. set (t := strip (sub_blank x)) in *.
  rewrite markdown_to_text_passes. destruct t as [|a t'] eqn:Et; [reflexivity|].
  rewrite <- Et in *. rewrite passes_clean by exact Hclean.
  assert (sub_blank t = t) as ->.
  { apply settled_fix. subst t. apply settled_strip, sub_blank_settled. }
  subst t. apply strip_idem.
Qed.

Lemma markdown_to_text_stable_witness :
  clean (markdown_to_text (txt "**Bold** and *italic* and `code`")) = true
  /\ markdown_to_text (markdown_to_text (txt "**Bold** and *italic* and `code`"))
     = markdown_to_text (txt "**Bold** and *italic* and `code`").
Proof.
  split; [vm_compute; reflexivity|].
  apply (markdown_to_text_stable (txt "**Bold** and *italic* and `code`")).
  vm_compute. reflexivity.
Defined.

(** * Which runs of blank lines the cleanup collapses *)

Lemma is_blank_cons c l :
  is_blank (c :: l) = true -> is_space c = true /\ c <> NL /\ is_blank l = true.
Proof.
  cbn [is_blank forallb]. rewrite !andb_true_iff.
  intros ((Hs & Hn) & Hl). repeat split; try assumption.
  intros ->. discriminate.
Qed.

Lemma not_space_not_nl a : is_space a = false -> a <> NL.
Proof. intros H ->. discriminate. Qed.

Lemma barrier_blank a : is_space a = false -> barrier a re_blank = true.
Proof.
  intros H. pose proof (not_space_not_nl a H) as Hn.
  unfold barrier, re_blank, Lit. cbn [forallb stops]. unfold chr. rewrite H.
  destruct (Ascii.eqb a NL) eqn:E; [|reflexivity].
  apply Ascii.eqb_eq in E. contradiction.
Qed.

Lemma sub_blank_split x a r :
  is_space a = false -> sub_blank (x ++ a :: r) = sub_blank (x ++ [a]) ++ sub_blank r.
Proof.
  intros H. unfold sub_blank.
  rewrite !(re_sub_barrier a re_blank) by
    (try apply barrier_blank; try apply consumes_blank; try (right; reflexivity); exact H).
  rewrite (re_sub_nil re_blank) by apply consumes_blank.
  rewrite <- app_assoc. reflexivity.
Qed.

Lemma sub_blank_over l s :
  is_blank l = true -> sub_blank (l ++ s) = l ++ sub_blank s.
Proof.
  induction l as [|c l IH]; intros H; [reflexivity|].
  apply is_blank_cons in H as (_ & Hn & Hl).
  cbn [app]. rewrite sub_blank_miss by (apply blank_match_other; exact Hn).
  rewrite IH by exact Hl. reflexivity.
Qed.

Lemma nlc_blank l s : is_blank l = true -> nlc (l ++ s) = nlc s.
Proof.
  induction l as [|c l IH]; intros H; [reflexivity|].
  apply is_blank_cons in H as (Hs & Hn & Hl). cbn [app nlc]. rewrite Hs.
  destruct (Ascii.eqb c NL) eqn:E; [apply Ascii.eqb_eq in E; contradiction|].
  rewrite IH by exact Hl. reflexivity.
Qed.

Lemma last_nl_blank l s : is_blank l = true -> last_nl (l ++ s) = last_nl s.
Proof.
  induction l as [|c l IH]; intros H; [reflexivity|].
  apply is_blank_cons in H as (Hs & Hn & Hl). cbn [app last_nl]. rewrite Hs.
  destruct (Ascii.eqb c NL) eqn:E; [apply Ascii.eqb_eq in E; contradiction|].
  rewrite IH by exact Hl. destruct (last_nl s); reflexivity.
Qed.

Lemma lines_of_cons bl bls s :
  lines_of (bl :: bls) ++ s = bl ++ NL :: (lines_of bls ++ s).
Proof. unfold lines_of. cbn [flat_map]. rewrite <- !app_assoc. reflexivity. Qed.

Lemma nlc_nl s : nlc (NL :: s) = S (nlc s).
Proof. reflexivity. Qed.

Lemma last_nl_nl s :
  last_nl (NL :: s) = Some (match last_nl s with Some r => r | None => s end).
Proof. cbn [last_nl]. change (is_space NL) with true. cbv iota.
  rewrite Ascii.eqb_refl. destruct (last_nl s); reflexivity. Qed.

Lemma nlc_lines bls s :
  forallb is_blank bls = true -> nlc (lines_of bls ++ s) = length bls + nlc s.
Proof.
  induction bls as [|bl bls IH]; intros H; [reflexivity|].
  cbn [forallb] in H. apply andb_true_iff in H as [Hb Hbs].
  rewrite lines_of_cons, nlc_blank by exact Hb.
  rewrite nlc_nl, IH by exact Hbs. reflexivity.
Qed.

Lemma last_nl_lines bl bls s :
  forallb is_blank (bl :: bls) = true -> nlc s = 0 ->
  last_nl (lines_of (bl :: bls) ++ s) = Some s.
Proof.
  revert bl. induction bls as [|bl' bls IH]; intros bl H Hs;
    cbn [forallb] in H; apply andb_true_iff in H as [Hb Hbs];
    rewrite lines_of_cons, last_nl_blank by exact Hb; rewrite last_nl_nl.
  - simpl. apply last_nl_none in Hs. rewrite Hs. reflexivity.
  - rewrite (IH bl' Hbs Hs). reflexivity.
Qed.

Lemma drop_while_stop P u a r :
  P a = false -> drop_while P (u ++ a :: r) = drop_while P (u ++ [a]) ++ r.
Proof.
  intros Ha. induction u as [|c u IH]; simpl.
  - rewrite Ha. reflexivity.
  - destruct (P c); [exact IH|]. simpl. rewrite <- app_assoc. reflexivity.
Qed.

(** [strip] touches only what is before the first and after the last
    character that is no white space. *)
Lemma strip_around u a m b v :
  is_space a = false -> is_space b = false ->
  strip ((u ++ [a]) ++ m ++ b :: v)
  = lstrip_by is_space (u ++ [a]) ++ m ++ rstrip_by is_space (b :: v).
Proof.
  intros Ha Hb. unfold strip, lstrip_by, rstrip_by.
  rewrite <- app_assoc. cbn [app]. rewrite drop_while_stop by exact Ha.
  rewrite !rev_app_distr. cbn [rev]. rewrite <- !app_assoc. cbn [app].
  rewrite drop_while_stop by exact Hb.
  rewrite !rev_app_distr, !rev_involutive. cbn [rev app].
  rewrite <- !app_assoc. reflexivity.
Qed.

Lemma markdown_to_text_clean t :
  clean t = true -> markdown_to_text t = strip (sub_blank t).
Proof.
  intros H. rewrite markdown_to_text_passes. destruct t as [|c t]; [reflexivity|].
  rewrite passes_clean by exact H. reflexivity.
Qed.

Lemma sub_blank_snoc x a :
  is_space a = false -> sub_blank (x ++ [a]) = sub_blank x ++ [a].
Proof.
  intros H. unfold sub_blank.
  rewrite (re_sub_barrier a re_blank) by
    (try apply barrier_blank; try apply consumes_blank; try (right; reflexivity); exact H).
  rewrite (re_sub_nil re_blank) by apply consumes_blank. reflexivity.
Qed.

(** C10.  Between a line that ends with the non-blank character [a]
    (followed by trailing white space [t1]) and a line whose first
    non-blank character is [b] (after leading white space [t2]), the
    cleanup replaces a run of two or more blank lines by one empty line,
    that is by two consecutive line feeds, and leaves a single blank line,
    or none, as it is.  A blank line holds white space other than the line
    feed: spaces and tabs.  When the text holds no Markdown construct, this
    is what [markdown_to_text] returns, up to the white space it strips at
    the two ends. *)
Theorem blank_runs_collapse (x y t1 t2 : text) (bls : list text) (a b : ascii) :
  is_space a = false -> is_space b = false ->
  is_blank t1 = true -> is_blank t2 = true -> forallb is_blank bls = true ->
  let input := x ++ a :: t1 ++ NL :: lines_of bls ++ t2 ++ b :: y in
  let run := if 2 <=? length bls then [NL; NL] else NL :: lines_of bls in
  sub_blank input = sub_blank (x ++ [a]) ++ t1 ++ run ++ t2 ++ sub_blank (b :: y)
  /\ (clean input = true ->
      markdown_to_text input
      = lstrip_by is_space (sub_blank (x ++ [a])) ++ t1 ++ run ++ t2
        ++ rstrip_by is_space (sub_blank (b :: y))).
Proof.
  intros Ha Hb Ht1 Ht2 Hbls input run.
  assert (sub_blank input
          = sub_blank (x ++ [a]) ++ t1 ++ run ++ t2 ++ sub_blank (b :: y)) as Hpass.
  { unfold input, run.
    rewrite sub_blank_split by exact Ha. f_equal.
    rewrite sub_blank_over by exact Ht1. f_equal.
    set (T := t2 ++ b :: y).
    assert (nlc T = 0) as HT.
    { unfold T. rewrite nlc_blank by exact Ht2. simpl. rewrite Hb. reflexivity. }
    assert (sub_blank T = t2 ++ sub_blank (b :: y)) as HsT.
    { unfold T. apply sub_blank_over. exact Ht2. }
    assert (nlc (lines_of bls ++ T) = length bls) as Hn.
    { rewrite nlc_lines by exact Hbls. lia. }
    destruct (2 <=? length bls) eqn:Ek.
    - apply Nat.leb_le in Ek.
      assert (blank_match (NL :: lines_of bls ++ T) = Some T) as Hm.
      { cbn [blank_match]. rewrite Ascii.eqb_refl.
        destruct (two_nl (lines_of bls ++ T)) as [r|] eqn:E.
        - apply two_nl_last in E. destruct bls as [|bl bls]; [simpl in Ek; lia|].
          rewrite last_nl_lines in E by assumption. symmetry. exact E.
        - apply two_nl_none in E. lia. }
      rewrite (sub_blank_hit _ _ Hm), HsT. reflexivity.
    - apply Nat.leb_gt in Ek.
      rewrite sub_blank_miss.
      2:{ apply blank_match_none. rewrite nlc_nl. lia. }
      cbn [app]. f_equal.
      destruct bls as [|bl [|bl' bls]]; [| |simpl in Ek; lia].
      + simpl. exact HsT.
      + cbn [forallb] in Hbls. apply andb_true_iff in Hbls as [Hbl _].
        unfold lines_of. cbn [flat_map]. rewrite app_nil_r, <- !app_assoc.
        rewrite sub_blank_over by exact Hbl. cbn [app].
        rewrite sub_blank_miss.
        2:{ apply blank_match_none. rewrite nlc_nl. lia. }
        rewrite HsT. reflexivity. }
  split; [exact Hpass|].
  intros Hclean. rewrite markdown_to_text_clean by exact Hclean. rewrite Hpass.
  rewrite sub_blank_snoc by exact Ha.
  rewrite (sub_blank_miss b y)
    by (apply blank_match_other, not_space_not_nl; exact Hb).
  replace (t1 ++ run ++ t2 ++ b :: sub_blank y)
    with ((t1 ++ run ++ t2) ++ b :: sub_blank y)
    by (rewrite <- !app_assoc; reflexivity).
  rewrite strip_around by assumption. rewrite <- !app_assoc. reflexivity.
Qed.

Lemma blank_runs_collapse_witness :
  markdown_to_text (txt "one" ++ "." :: txt "  " ++ NL :: lines_of [txt " "; []; ["009"]]
                    ++ txt " " ++ "t" :: txt "wo")
  = txt "one." ++ txt "  " ++ [NL; NL] ++ txt " " ++ txt "two".
Proof.
  exact (proj2 (blank_runs_collapse (txt "one") (txt "wo") (txt "  ") (txt " ")
                  [txt " "; []; ["009"]] "." "t"
                  eq_refl eq_refl eq_refl eq_refl eq_refl) eq_refl).
Defined.

(** C10, as stated for every input, fails: the header pass runs before the
    cleanup, and the white space that its pattern allows after the hashes
    takes line feeds.  After a line that holds a hash only, a single blank
    line is not kept and a run of two blank lines is not replaced by one
    empty line: the blank lines go with the hash, and the next line is
    taken for the title.  After a line without a hash the single blank
    line is kept. *)
Lemma header_takes_blank_lines :
  markdown_to_text (txt "#" ++ [NL; NL] ++ txt "foo") = txt "FOO"
  /\ markdown_to_text (txt "#" ++ [NL; NL; NL] ++ txt "foo") = txt "FOO"
  /\ markdown_to_text (txt "a" ++ [NL; NL] ++ txt "foo") = txt "a" ++ [NL; NL] ++ txt "foo".
Proof. repeat split; vm_compute; reflexivity. Qed.

(** * Emphasis markers that find no partner on their line *)

Lemma lazy_absent c p cap s :
  Forall (fun x => chr c x = false) s ->
  forall lo prev acc gs,
    rep dot Lazy cap (match_items (Lit c :: p)) lo None prev s acc gs = None.
Proof.
  induction 1 as [|d s Hd Hs IH]; intros lo prev acc gs.
  - cbn [rep]. unfold Lit. rewrite match_one_step. destruct lo; reflexivity.
  - cbn [rep]. unfold Lit at 1. rewrite match_one_step, Hd.
    fold (Lit c). rewrite IH. destruct lo, (dot d && may_take None); reflexivity.
Qed.

Lemma lazy_one_absent c p cap s prev gs :
  Forall (fun x => chr c x = false) (drop 1 s) ->
  rep dot Lazy cap (match_items (Lit c :: p)) 1 None prev s [] gs = None.
Proof.
  intros H. destruct s as [|d s]; [reflexivity|]. cbn [rep pred fmap option_fmap option_map].
  simpl in H. rewrite lazy_absent by exact H. destruct (dot d && may_take None); reflexivity.
Qed.

Lemma match_rep_step cap cls lo hi g p prev s gs :
  match_items (Rep cap cls lo hi g :: p) prev s gs
  = rep cls g cap (match_items p) lo hi prev s [] gs.
Proof. reflexivity. Qed.

(** A span needs its closing marker at least two characters after the
    first character of its opening marker. *)
Lemma span_far c n prev s gs :
  n = 1 \/ n = 2 \/ n = 3 ->
  Forall (fun x => chr c x = false) (drop 2 s) ->
  match_items (re_span c n) prev s gs = None.
Proof.
  intros Hn H. unfold re_span.
  destruct s as [|d1 s]; [destruct Hn as [Hn|[Hn|Hn]]; subst n; reflexivity|].
  destruct Hn as [Hn|[Hn|Hn]]; subst n; cbn [repeat app];
    unfold Lit at 1; rewrite match_one_step;
    (destruct (chr c d1); [|reflexivity]).
  - rewrite match_rep_step. apply lazy_one_absent.
    destruct s; [constructor | exact H].
  - unfold Lit at 1. rewrite match_one_step. destruct s as [|d2 s]; [reflexivity|].
    destruct (chr c d2); [|reflexivity]. rewrite match_rep_step. apply lazy_one_absent.
    simpl in H. destruct s as [|d3 s]; [constructor|].
    apply Forall_cons in H as [_ H]. exact H.
  - unfold Lit at 1. rewrite match_one_step. destruct s as [|d2 s]; [reflexivity|].
    destruct (chr c d2); [|reflexivity].
    unfold Lit at 1. rewrite match_one_step. destruct s as [|d3 s]; [reflexivity|].
    destruct (chr c d3); [|reflexivity]. rewrite match_rep_step. apply lazy_one_absent.
    simpl in H. apply Forall_cons in H as [_ H].
    destruct s as [|d4 s]; [constructor|].
    apply Forall_cons in H as [_ H]. exact H.
Qed.

Lemma sub_span_lonely c n s :
  n = 1 \/ n = 2 \/ n = 3 -> lonely c s = true -> sub_span c n s = s.
Proof.
  intros Hn. unfold sub_span.
  assert (bol_free (re_span c n) = true) as Hbf
    by (destruct Hn as [Hn|[Hn|Hn]]; subst n; reflexivity).
  assert (needs (chr c) (re_span c n)) as Hneeds
    by (destruct Hn as [Hn|[Hn|Hn]]; subst n; reflexivity).
  induction s as [|d s IH]; intros H.
  - apply re_sub_nil. intros prev. destruct Hn as [Hn|[Hn|Hn]]; subst n; reflexivity.
  - cbn [lonely] in H. apply andb_true_iff in H as [Hd Hs].
    rewrite re_sub_miss; [rewrite IH by exact Hs; reflexivity | exact Hbf |].
    apply orb_true_iff in Hd as [Hd|Hd].
    + apply (match_needs (chr c)); [exact Hneeds|].
      destruct (chr c d); [discriminate | reflexivity].
    + apply span_far; [exact Hn|]. change (drop 2 (d :: s)) with (drop 1 s).
      rewrite forallb_forall in Hd. apply Forall_forall. intros x Hx.
      apply list_elem_of_In, Hd in Hx. destruct (chr c x); [discriminate | reflexivity].
Qed.

Lemma sub_emphasis_lonely s :
  lonely "*" s = true -> lonely "_" s = true -> sub_emphasis s = s.
Proof.
  intros H1 H2. unfold sub_emphasis.
  rewrite (sub_span_lonely "*" 3), (sub_span_lonely "*" 2), (sub_span_lonely "*" 1),
    (sub_span_lonely "_" 2), (sub_span_lonely "_" 1); auto.
Qed.

(** C4, amended.  Each emphasis pass, and so their sequence, rewrites the
    text line by line: no match spans a line feed, and the two markers of a
    span broken across a line feed are never removed as a pair.  When on
    each of the two lines no star (no underscore) has another one two
    characters or more after it, the emphasis passes leave the two lines as
    they are; if moreover no construct of the other passes occurs,
    [markdown_to_text] changes nothing but blank lines and outer white
    space, so the markers of the span stay. *)
Theorem emphasis_single_line :
  (forall u v, sub_emphasis (u ++ NL :: v) = sub_emphasis u ++ NL :: sub_emphasis v)
  /\ (forall u v,
        lonely "*" u && lonely "_" u && lonely "*" v && lonely "_" v = true ->
        sub_emphasis (u ++ NL :: v) = u ++ NL :: v)
  /\ (forall u v,
        lonely "*" u && lonely "_" u && lonely "*" v && lonely "_" v = true ->
        only_emphasis (u ++ NL :: v) = true ->
        markdown_to_text (u ++ NL :: v) = strip (sub_blank (u ++ NL :: v))).
Proof.
  assert (forall u v,
        lonely "*" u && lonely "_" u && lonely "*" v && lonely "_" v = true ->
        sub_emphasis (u ++ NL :: v) = u ++ NL :: v) as Hlonely.
  { intros u v H. rewrite !andb_true_iff in H. destruct H as (((H1 & H2) & H3) & H4).
    rewrite sub_emphasis_line, !sub_emphasis_lonely by assumption. reflexivity. }
  split; [exact sub_emphasis_line|]. split; [exact Hlonely|].
  intros u v H Hother. rewrite markdown_to_text_passes.
  destruct (u ++ NL :: v) as [|a t] eqn:E; [destruct u; discriminate|].
  rewrite <- E in *. f_equal. f_equal.
  unfold only_emphasis in Hother. rewrite !andb_true_iff in Hother.
  destruct Hother as (((((((Hh & Hc) & Hfo) & Hfc) & Hl) & Hq) & Hu) & Hr).
  unfold passes. unfold sub_header. rewrite lacks_sub by exact Hh.
  rewrite Hlonely by exact H.
  unfold sub_span. rewrite lacks_sub by exact Hc.
  unfold sub_fences. rewrite (lacks_sub re_fence_open) by exact Hfo.
  rewrite lacks_sub by exact Hfc.
  unfold sub_link. rewrite lacks_sub by exact Hl.
  unfold sub_quote. rewrite lacks_sub by exact Hq.
  unfold sub_ulist. rewrite lacks_sub by exact Hu.
  unfold sub_olist. rewrite re_sub_whole.
  unfold sub_rule. rewrite lacks_sub by exact Hr. reflexivity.
Qed.

Lemma emphasis_single_line_witness :
  markdown_to_text (txt "**bold" ++ NL :: txt "text**") = txt "**bold" ++ NL :: txt "text**".
Proof.
  exact (proj2 (proj2 emphasis_single_line) (txt "**bold") (txt "text**") eq_refl eq_refl).
Defined.

(** * The disk mirror *)

(** ** How a world evolves *)

Lemma steps_trans D w1 w2 w3 : steps D w1 w2 -> steps D w2 w3 -> steps D w1 w3.
Proof.
  induction 1; intros H3; eauto using steps.
Qed.

Lemma steps_mono (D D' : path -> Prop) w w' :
  (forall p, D p -> D' p) -> steps D w w' -> steps D' w w'.
Proof.
  intros HD. induction 1; eauto using steps.
Qed.

Lemma steps_env D w w' :
  steps D w w' -> home w' = home w /\ clock w' = clock w /\ denied w' = denied w.
Proof.
  induction 1 as [w|w w' _ IH|w p w' _ _ _ IH|w p data w' _ _ IH];
    [auto | exact IH | exact IH | exact IH].
Qed.

Lemma steps_templates_dir D w w' : steps D w w' -> templates_dir w' = templates_dir w.
Proof. intros H. unfold templates_dir. destruct (steps_env D w w' H) as [-> _]. reflexivity. Qed.

Lemma node_at_none w p : node_at w p = None -> p <> [] /\ fs w !! p = None.
Proof. destruct p; simpl; [discriminate|]. intros H. split; [discriminate | exact H]. Qed.

Lemma node_at_not_dir w p : node_at w p <> Some Dir -> p <> [] /\ fs w !! p <> Some Dir.
Proof. destruct p; simpl; [congruence|]. intros H. split; [discriminate | exact H]. Qed.

Lemma steps_keeps D w w' : steps D w w' -> keeps w w'.
Proof.
  induction 1 as [w|w w' _ IH|w p w' Hp _ _ IH|w p data w' Hp _ IH]; intros q.
  - destruct (fs w !! q) as [[|d]|]; eauto.
  - apply IH.
  - specialize (IH q). simpl in IH. apply node_at_none in Hp as [_ Hp].
    destruct (decide (p = q)) as [->|Hne].
    + rewrite Hp. exact I.
    + rewrite lookup_insert_ne in IH by exact Hne. exact IH.
  - specialize (IH q). simpl in IH. apply node_at_not_dir in Hp as [_ Hp].
    destruct (decide (p = q)) as [->|Hne].
    + rewrite lookup_insert_eq in IH.
      destruct (fs w !! q) as [[|d]|]; [congruence | exact IH | exact I].
    + rewrite lookup_insert_ne in IH by exact Hne. exact IH.
Qed.

(** Every directory of [w'] was there in [w] or was made at a path of [D]. *)
Lemma steps_new_dirs D w w' q :
  steps D w w' -> fs w' !! q = Some Dir -> fs w !! q = Some Dir \/ D q.
Proof.
  induction 1 as [w|w w' _ IH|w p w' Hp HD _ IH|w p data w' Hp _ IH]; intros Hq.
  - left. exact Hq.
  - apply IH, Hq.
  - destruct (IH Hq) as [H|H]; [|right; exact H]. simpl in H.
    destruct (decide (p = q)) as [->|Hne]; [right; exact HD|].
    rewrite lookup_insert_ne in H by exact Hne. left. exact H.
  - destruct (IH Hq) as [H|H]; [|right; exact H]. simpl in H.
    destruct (decide (p = q)) as [->|Hne].
    + rewrite lookup_insert_eq in H. discriminate.
    + rewrite lookup_insert_ne in H by exact Hne. left. exact H.
Qed.

Lemma keeps_is_dir w w' p : keeps w w' -> is_dir w p = true -> is_dir w' p = true.
Proof.
  intros Hk. unfold is_dir, node_at. destruct p as [|c p]; [trivial|].
  specialize (Hk (c :: p)). destruct (fs w !! (c :: p)) as [[|d]|]; try discriminate.
  rewrite Hk. trivial.
Qed.

Lemma keeps_file w w' p data :
  keeps w w' -> fs w !! p = Some (File data) -> exists data', fs w' !! p = Some (File data').
Proof. intros Hk H. specialize (Hk p). rewrite H in Hk. exact Hk. Qed.

(** ** What each operation does *)

Create HintDb mirror.
#[local] Hint Constructors steps : mirror.
#[local] Hint Resolve steps_trans : mirror.

Lemma bind_inv {A B} (m : io A) (k : A -> io B) w r w' :
  bind m k w = (r, w') ->
  (exists a w1, m w = (Ok a, w1) /\ k a w1 = (r, w'))
  \/ (exists e, m w = (Raise e, w') /\ r = Raise e).
Proof.
  unfold bind. destruct (m w) as [[a|e] w1]; intros H.
  - left. eauto.
  - right. injection H as <- <-. eauto.
Qed.

Lemma now_steps D w r w' :
  now w = (r, w') -> steps D w w' /\ exists d, r = Ok d.
Proof.
  unfold now. intros [= <- <-]. split; [|eauto].
  apply steps_tick, steps_refl.
Qed.

Lemma os_mkdir_steps p w r w' :
  os_mkdir p w = (r, w') ->
  steps (eq p) w w' /\ (r = Ok tt -> is_dir w' p = true).
Proof.
  unfold os_mkdir. destruct (node_at w (parent p)) as [[|d]|];
    try (intros [= <- <-]; split; [apply steps_refl | discriminate]).
  destruct (node_at w p) as [n|] eqn:Hp;
    [intros [= <- <-]; split; [apply steps_refl | discriminate]|].
  destruct (denied w p); intros [= <- <-]; (split; [|try discriminate]).
  - apply steps_refl.
  - eapply steps_mkdir; [exact Hp | reflexivity | apply steps_refl].
  - intros _. unfold is_dir, node_at. destruct p; [reflexivity|].
    simpl. rewrite lookup_insert_eq. reflexivity.
Qed.

Lemma mkdir_exist_ok_steps p w r w' :
  mkdir_exist_ok p w = (r, w') ->
  steps (eq p) w w' /\ (r = Ok tt -> is_dir w' p = true).
Proof.
  unfold mkdir_exist_ok. destruct (os_mkdir p w) as [[[]|e] w1] eqn:E.
  - intros [= <- <-]. apply os_mkdir_steps in E. exact E.
  - apply os_mkdir_steps in E as [Hs _].
    destruct e; try (destruct (is_dir w1 p) eqn:Hd; intros [= <- <-];
                     (split; [exact Hs | congruence || (intros _; exact Hd)])).
Qed.

Lemma ret_inv {A} (a : A) w r w' : ret a w = (r, w') -> r = Ok a /\ w' = w.
Proof. unfold ret. intros [= <- <-]. auto. Qed.

(** A run is its result and the world it leaves. *)
Lemma run_eq {A} (x : result A * world) (r : result A) :
  fst x = r -> x = (r, snd x).
Proof. intros <-. destruct x; reflexivity. Qed.

(** Take a computation made of [bind]s apart, along the path it took. *)
Ltac io_inv H :=
  let a := fresh "a" in
  let w1 := fresh "w" in
  let e := fresh "e" in
  let H1 := fresh "Hrun" in
  let H2 := fresh "Hrest" in
  apply bind_inv in H as [(a & w1 & H1 & H2)|(e & H1 & H2)].

Ltac ok_unit :=
  match goal with |- Ok ?x = Ok tt => destruct x; reflexivity end.

Lemma mkdir_parents_rev_steps rp :
  forall w r w',
    mkdir_parents_rev rp w = (r, w') ->
    steps (fun q => q `prefix_of` rev rp) w w' /\ (r = Ok tt -> is_dir w' (rev rp) = true).
Proof.
  induction rp as [|x rp IH]; intros w r w'.
  - simpl. unfold os_mkdir. simpl. intros [= <- <-].
    split; [apply steps_refl | reflexivity].
  - cbn [mkdir_parents_rev]. set (p := rev (x :: rp)).
    destruct (os_mkdir p w) as [[[]|e] w1] eqn:E;
      apply os_mkdir_steps in E as [Hs Hd];
      apply (steps_mono _ (fun q => q `prefix_of` p)) in Hs;
      try (intros q <-; reflexivity).
    + intros [= <- <-]. split; [exact Hs | exact Hd].
    + destruct e;
        try (destruct (is_dir w1 p) eqn:Hdir; intros [= <- <-];
             (split; [exact Hs | congruence || (intros _; exact Hdir)])).
      intros H. io_inv H.
      * apply IH in Hrun as [Hs1 _]. apply mkdir_exist_ok_steps in Hrest as [Hs2 Hd2].
        split; [|exact Hd2].
        eapply steps_trans; [exact Hs|]. eapply steps_trans.
        -- eapply steps_mono; [|exact Hs1]. intros q Hq. unfold p. simpl.
           apply prefix_app_r. exact Hq.
        -- eapply steps_mono; [|exact Hs2]. intros q <-. reflexivity.
      * apply IH in Hrun as [Hs1 _]. subst r. split; [|discriminate].
        eapply steps_trans; [exact Hs|].
        eapply steps_mono; [|exact Hs1]. intros q Hq. unfold p. simpl.
        apply prefix_app_r. exact Hq.
Qed.

Lemma mkdir_parents_steps p w r w' :
  mkdir_parents p w = (r, w') ->
  steps (fun q => q `prefix_of` p) w w' /\ (r = Ok tt -> is_dir w' p = true).
Proof.
  unfold mkdir_parents. intros H. apply mkdir_parents_rev_steps in H.
  rewrite rev_involutive in H. exact H.
Qed.

Lemma write_text_steps D p data w r w' :
  write_text p data w = (r, w') ->
  steps D w w' /\ (r = Ok tt -> fs w' !! p = Some (File data)).
Proof.
  unfold write_text. destruct (node_at w (parent p)) as [[|d]|];
    try (intros [= <- <-]; split; [apply steps_refl | discriminate]).
  assert (node_at w p <> Some Dir ->
          (if denied w p then (Raise PermissionError, w)
           else (Ok tt, with_fs w (<[p := File data]> (fs w)))) = (r, w') ->
          steps D w w' /\ (r = Ok tt -> fs w' !! p = Some (File data))) as Hw.
  { intros Hp. destruct (denied w p); intros [= <- <-].
    - split; [apply steps_refl | discriminate].
    - split; [eapply steps_write; [exact Hp | apply steps_refl]|].
      intros _. simpl. apply lookup_insert_eq. }
  destruct (node_at w p) as [[|d]|] eqn:Hp.
  - intros [= <- <-]. split; [apply steps_refl | discriminate].
  - apply Hw. discriminate.
  - apply Hw. discriminate.
Qed.

Lemma get_user_templates_dir_steps w r w' :
  get_user_templates_dir w = (r, w') ->
  steps (fun q => q `prefix_of` templates_dir w) w w'
  /\ (forall x, r = Ok x -> x = templates_dir w /\ is_dir w' x = true).
Proof.
  unfold get_user_templates_dir. intros H. io_inv H.
  - apply mkdir_parents_steps in Hrun as [Hs Hd]. apply ret_inv in Hrest as [-> ->].
    split; [exact Hs|]. intros x [= <-]. split; [reflexivity | apply Hd; ok_unit].
  - apply mkdir_parents_steps in Hrun as [Hs _]. subst r.
    split; [exact Hs | discriminate].
Qed.

Lemma sanitize_folder_name_steps D name w r w' :
  sanitize_folder_name name w = (r, w') ->
  steps D w w' /\ exists d, r = Ok (folder_dir_name d name).
Proof.
  unfold sanitize_folder_name, folder_dir_name.
  destruct (needs_folder_fallback (name_core name)).
  - unfold bind, now, ret. intros [= <- <-].
    split; [apply steps_tick, steps_refl | eauto].
  - intros H. apply ret_inv in H as [-> ->].
    split; [apply steps_refl | exists (clock w 0); reflexivity].
Qed.

Lemma sanitize_template_filename_steps D title w r w' :
  sanitize_template_filename title w = (r, w') ->
  steps D w w' /\ exists d, r = Ok (template_file_name d title).
Proof.
  unfold sanitize_template_filename, template_file_name.
  destruct (is_nonempty (name_core title)).
  - intros H. apply ret_inv in H as [-> ->].
    split; [apply steps_refl | exists (clock w 0); reflexivity].
  - unfold bind, now, ret. intros [= <- <-].
    split; [apply steps_tick, steps_refl | eauto].
Qed.

Lemma default_dir_steps parent_path w r w' :
  default_dir parent_path w = (r, w') ->
  steps (fun q => q `prefix_of` base_dir parent_path w) w w'
  /\ (forall x, r = Ok x -> x = base_dir parent_path w).
Proof.
  destruct parent_path as [p|]; simpl.
  - intros H. apply ret_inv in H as [-> ->]. split; [apply steps_refl|].
    intros x [= <-]. reflexivity.
  - intros H. apply get_user_templates_dir_steps in H as [Hs Hx].
    split; [exact Hs|]. intros x Hr. apply Hx, Hr.
Qed.

Lemma create_folder_on_disk_steps name parent_path w r w' :
  create_folder_on_disk name parent_path w = (r, w') ->
  steps (folder_dirs (base_dir parent_path w) name) w w'
  /\ (forall p, r = Ok p ->
        exists d, p = base_dir parent_path w ++ [folder_dir_name d name]
                  /\ is_dir w' p = true).
Proof.
  intros H. set (D := folder_dirs (base_dir parent_path w) name).
  assert (forall q, q `prefix_of` base_dir parent_path w -> D q) as Hbase.
  { intros q Hq. exists (clock w 0). apply prefix_app_r. exact Hq. }
  unfold create_folder_on_disk, get_folder_path in H.
  apply bind_inv in H as [(p & w3 & Hpath & Hmk)|(e & Hpath & ->)].
  - apply bind_inv in Hpath as [(b & w1 & Hdef & Hname)|(e & Hdef & [=])].
    apply default_dir_steps in Hdef as [Hs1 Hb]. specialize (Hb _ eq_refl). subst b.
    apply bind_inv in Hname as [(n & w2 & Hsan & Hret)|(e & Hsan & [=])].
    apply (sanitize_folder_name_steps D) in Hsan as [Hs2 [d [= ->]]].
    apply ret_inv in Hret as [[= ->] ->].
    assert (steps D w w2) as Hs12.
    { eapply steps_trans; [eapply steps_mono; [exact Hbase | exact Hs1] | exact Hs2]. }
    apply bind_inv in Hmk as [(u & w4 & Hmk & Hret)|(e & Hmk & ->)];
      apply mkdir_parents_steps in Hmk as [Hs3 Hdir];
      apply (steps_mono _ D) in Hs3; try (intros q Hq; exists d; exact Hq).
    + apply ret_inv in Hret as [-> ->]. split; [eapply steps_trans; eassumption|].
      intros p [= <-]. exists d. split; [reflexivity|]. apply Hdir. ok_unit.
    + split; [eapply steps_trans; eassumption | discriminate].
  - split; [|discriminate].
    apply bind_inv in Hpath as [(b & w1 & Hdef & Hname)|(e' & Hdef & _)].
    + apply default_dir_steps in Hdef as [Hs1 _].
      apply bind_inv in Hname as [(n & w2 & Hsan & Hret)|(e' & Hsan & _)].
      * apply ret_inv in Hret as [[=] _].
      * destruct (sanitize_folder_name_steps D _ _ _ _ Hsan) as [Hs2 [d Hd]]. discriminate.
    + apply default_dir_steps in Hdef as [Hs1 _].
      eapply steps_mono; [exact Hbase | exact Hs1].
Qed.

Lemma save_template_to_disk_steps D title content dir w r w' :
  save_template_to_disk title content (Some dir) w = (r, w') ->
  steps D w w'
  /\ (forall p, r = Ok p ->
        exists d data, p = dir ++ [template_file_name d title ++ txt ".md"]
                       /\ fs w' !! p = Some (File data)).
Proof.
  unfold save_template_to_disk. cbn [default_dir]. intros H.
  apply bind_inv in H as [(b & w1 & Hdef & H)|(e & Hdef & _)];
    apply ret_inv in Hdef as [[= ->] ->].
  apply bind_inv in H as [(n & w2 & Hsan & H)|(e & Hsan & _)];
    destruct (sanitize_template_filename_steps D _ _ _ _ Hsan) as [Hs1 [d [= ->]]].
  apply bind_inv in H as [(d' & w3 & Hnow & H)|(e & Hnow & _)];
    destruct (now_steps D _ _ _ Hnow) as [Hs2 [d'' [= ->]]].
  apply bind_inv in H as [(u & w4 & Hwr & H)|(e & Hwr & ->)];
    destruct (write_text_steps D _ _ _ _ _ Hwr) as [Hs3 Hfile].
  - apply ret_inv in H as [-> ->].
    split; [eauto with mirror|].
    intros p [= <-]. exists d. eexists. split; [reflexivity|]. apply Hfile. ok_unit.
  - split; [eauto with mirror | discriminate].
Qed.

Lemma template_step_steps folder_paths t w r w' :
  template_step folder_paths t w = (r, w') ->
  steps (fun q => q `prefix_of` templates_dir w) w w'
  /\ (r = Ok tt -> target_dir folder_paths t = None ->
      exists d data,
        fs w' !! (templates_dir w ++ [template_file_name d (title t) ++ txt ".md"])
        = Some (File data)).
Proof.
  unfold template_step. intros H.
  apply bind_inv in H as [(dir & w1 & Hdir & H)|(e & Hdir & ->)].
  - assert (steps (fun q => q `prefix_of` templates_dir w) w w1
            /\ (target_dir folder_paths t = None -> dir = templates_dir w)) as [Hs1 Hd].
    { destruct (target_dir folder_paths t) as [p|].
      - apply ret_inv in Hdir as [[= ->] ->]. split; [apply steps_refl | discriminate].
      - apply get_user_templates_dir_steps in Hdir as [Hs Hx].
        split; [exact Hs|]. intros _. apply Hx. reflexivity. }
    apply bind_inv in H as [(p & w2 & Hsave & H)|(e & Hsave & ->)];
      destruct (save_template_to_disk_steps (fun q => q `prefix_of` templates_dir w)
                  _ _ _ _ _ _ Hsave) as [Hs2 Hfile].
    + apply ret_inv in H as [-> ->]. split; [eauto with mirror|].
      intros _ Ht. destruct (Hfile p eq_refl) as (d & data & -> & Hf).
      rewrite (Hd Ht) in Hf. eauto.
    + split; [eauto with mirror | discriminate].
  - split; [|discriminate].
    destruct (target_dir folder_paths t) as [p|].
    + apply ret_inv in Hdir as [[=] _].
    + apply get_user_templates_dir_steps in Hdir as [Hs _]. exact Hs.
Qed.

Lemma for_each_app {A S} (body : S -> A -> io S) l1 l2 s w :
  for_each body (l1 ++ l2) s w = (s' <- for_each body l1 s ;; for_each body l2 s') w.
Proof.
  revert s w. induction l1 as [|a l1 IH]; intros s w; [reflexivity|].
  cbn [app for_each]. unfold bind.
  destruct (body s a w) as [[s1|e] w1]; [|reflexivity].
  rewrite IH. reflexivity.
Qed.

Lemma for_each_steps {A S} (D : path -> Prop) (body : S -> A -> io S) l :
  forall s w r w',
    (forall s a w1 r w2, In a l -> home w1 = home w -> body s a w1 = (r, w2) -> steps D w1 w2) ->
    for_each body l s w = (r, w') -> steps D w w'.
Proof.
  induction l as [|a l IH]; intros s w r w' Hbody H.
  - apply ret_inv in H as [_ ->]. apply steps_refl.
  - cbn [for_each] in H.
    apply bind_inv in H as [(s1 & w1 & Ha & H)|(e & Ha & _)];
      pose proof (Hbody s a w _ _ (or_introl eq_refl) eq_refl Ha) as Hs1;
      [|exact Hs1].
    eapply steps_trans; [exact Hs1|]. eapply IH; [|exact H].
    intros s2 b w2 r2 w3 Hb Hhome. apply Hbody; [right; exact Hb|].
    rewrite Hhome. apply (steps_env D w w1 Hs1).
Qed.

Lemma sync_templates_steps folder_paths templates w r w' :
  sync_templates folder_paths templates w = (r, w') ->
  steps (fun q => q `prefix_of` templates_dir w) w w'.
Proof.
  unfold sync_templates. apply for_each_steps.
  intros [] t w1 r1 w2 _ Hhome H. apply template_step_steps in H as [Hs _].
  unfold templates_dir in *. rewrite Hhome in Hs. exact Hs.
Qed.

(** C2, amended.  The rebuild does not catch a failure of a template
    write.  When the templates before [t] are written and the write of [t]
    raises [e], the rebuild raises [e] and ends in the world the failing
    write left: the templates after [t] are not written.  The files
    written before are still there, and the caller,
    [initialize_filesystem_sync], logs one error for the whole rebuild. *)
Theorem template_failure_aborts_rebuild
    (folders : list Folder) (pre post : list Template) (t : Template)
    (w w0 w1 w2 : world) (folder_paths : gmap Z path) (e : exn) :
  sync_folders folders w = (Ok folder_paths, w0) ->
  sync_templates folder_paths pre w0 = (Ok tt, w1) ->
  template_step folder_paths t w1 = (Raise e, w2) ->
  sync_database_to_filesystem folders (pre ++ t :: post) w = (Raise e, w2)
  /\ initialize_filesystem_sync folders (pre ++ t :: post) w
     = ([LogError (txt "Filesystem sync failed: ") e], w2)
  /\ (forall p data, fs w1 !! p = Some (File data) ->
        exists data', fs w2 !! p = Some (File data')).
Proof.
  intros Hf Hpre Ht.
  assert (sync_database_to_filesystem folders (pre ++ t :: post) w = (Raise e, w2)) as Hsync.
  { unfold sync_database_to_filesystem, bind. rewrite Hf.
    unfold sync_templates in *. rewrite for_each_app. unfold bind. rewrite Hpre.
    cbn [for_each]. unfold bind. rewrite Ht. reflexivity. }
  split; [exact Hsync|]. split.
  - unfold initialize_filesystem_sync. rewrite Hsync. reflexivity.
  - intros p data Hp. apply template_step_steps in Ht as [Hs _].
    eapply keeps_file; [eapply steps_keeps; exact Hs | exact Hp].
Qed.

Lemma template_failure_aborts_rebuild_witness :
  fst (sync_database_to_filesystem ex_named
         ([template_of (txt "first") (txt "x")]
          ++ template_of (txt "A") (txt "y") :: [template_of (txt "B") (txt "z")])
         ex_world)
  = Raise IsADirectoryError.
Proof.
  assert (fst (sync_folders ex_named ex_world) = Ok ex_named_paths) as H1
    by (vm_compute; reflexivity).
  assert (fst (sync_templates ex_named_paths [template_of (txt "first") (txt "x")]
                 (snd (sync_folders ex_named ex_world))) = Ok tt) as H2
    by (vm_compute; reflexivity).
  assert (fst (template_step ex_named_paths (template_of (txt "A") (txt "y"))
                 (snd (sync_templates ex_named_paths [template_of (txt "first") (txt "x")]
                         (snd (sync_folders ex_named ex_world)))))
          = Raise IsADirectoryError) as H3
    by (vm_compute; reflexivity).
  destruct (template_failure_aborts_rebuild
              ex_named [template_of (txt "first") (txt "x")]
              [template_of (txt "B") (txt "z")] (template_of (txt "A") (txt "y"))
              ex_world _ _ _ ex_named_paths IsADirectoryError
              (run_eq _ _ H1) (run_eq _ _ H2) (run_eq _ _ H3))
    as [H _].
  rewrite H. reflexivity.
Defined.

(** C2, as stated, fails: the folder [A.md] makes the write of the template
    [A] raise [IsADirectoryError]; the rebuild raises it, the template [B]
    that follows is never written, and the caller logs an error. *)
Lemma rebuild_stops_at_failed_write :
  let folders := [folder_of 1 (txt "A.md") None] in
  let templates := [template_of (txt "A") (txt "x"); template_of (txt "B") (txt "y")] in
  let run := sync_database_to_filesystem folders templates ex_world in
  fst run = Raise IsADirectoryError
  /\ fs (snd run) !! (templates_dir ex_world ++ [txt "B.md"]) = None
  /\ fst (initialize_filesystem_sync folders templates ex_world)
     = [LogError (txt "Filesystem sync failed: ") IsADirectoryError].
Proof. vm_compute. repeat split; reflexivity. Qed.

Lemma root_step_any folder_paths f w r w' :
  root_step folder_paths f w = (r, w') -> steps (fun _ => True) w w'.
Proof.
  unfold root_step. destruct (parent_id f).
  - intros H. apply ret_inv in H as [_ ->]. apply steps_refl.
  - intros H. apply bind_inv in H as [(p & w1 & Hc & H)|(e & Hc & _)];
      apply create_folder_on_disk_steps in Hc as [Hs _];
      apply (steps_mono _ (fun _ => True)) in Hs; try (intros; exact I).
    + apply ret_inv in H as [_ ->]. exact Hs.
    + exact Hs.
Qed.

Lemma child_step_any folder_paths f w r w' :
  child_step folder_paths f w = (r, w') -> steps (fun _ => True) w w'.
Proof.
  unfold child_step. destruct (parent_id f) as [pid|];
    [destruct (folder_paths !! pid) as [pp|]|];
    try (intros H; apply ret_inv in H as [_ ->]; apply steps_refl).
  intros H. apply bind_inv in H as [(p & w1 & Hc & H)|(e & Hc & _)];
    apply create_folder_on_disk_steps in Hc as [Hs _];
    apply (steps_mono _ (fun _ => True)) in Hs; try (intros; exact I).
  - apply ret_inv in H as [_ ->]. exact Hs.
  - exact Hs.
Qed.

Lemma sync_folders_any folders w r w' :
  sync_folders folders w = (r, w') -> steps (fun _ => True) w w'.
Proof.
  unfold sync_folders. intros H.
  apply bind_inv in H as [(fp & w1 & Hr & H)|(e & Hr & _)].
  - eapply steps_trans.
    + eapply for_each_steps; [|exact Hr]. intros. eapply root_step_any; eassumption.
    + eapply for_each_steps; [|exact H]. intros. eapply child_step_any; eassumption.
  - eapply for_each_steps; [|exact Hr]. intros. eapply root_step_any; eassumption.
Qed.

Lemma sync_templates_written folder_paths l :
  forall w w',
    sync_templates folder_paths l w = (Ok tt, w') ->
    forall t, In t l -> target_dir folder_paths t = None ->
      exists d data,
        fs w' !! (templates_dir w ++ [template_file_name d (title t) ++ txt ".md"])
        = Some (File data).
Proof.
  unfold sync_templates. induction l as [|a l IH]; intros w w' H t Hin Ht; [destruct Hin|].
  cbn [for_each] in H.
  apply bind_inv in H as [([] & w1 & Ha & H)|(e & _ & [=])].
  pose proof (template_step_steps _ _ _ _ _ Ha) as [Hs1 Hfile].
  destruct Hin as [->|Hin].
  - destruct (Hfile eq_refl Ht) as (d & data & Hf).
    pose proof (sync_templates_steps _ _ _ _ _ H) as Hs2.
    destruct (keeps_file _ _ _ _ (steps_keeps _ _ _ Hs2) Hf) as [data' Hf'].
    eauto.
  - rewrite <- (steps_templates_dir _ _ _ Hs1). eapply IH; eassumption.
Qed.

(** C5.  In a rebuild that completes, every template whose folder
    reference is unresolved (no folder id, or an id with no recorded
    directory) has its file, named by the sanitized title with the
    extension [.md], directly under the templates directory. *)
Theorem unresolved_template_at_root
    (folders : list Folder) (templates : list Template)
    (w w0 w' : world) (folder_paths : gmap Z path) :
  sync_folders folders w = (Ok folder_paths, w0) ->
  sync_templates folder_paths templates w0 = (Ok tt, w') ->
  sync_database_to_filesystem folders templates w = (Ok tt, w')
  /\ forall t, In t templates ->
       (template_folder_id t = None
        \/ exists fid, template_folder_id t = Some fid /\ folder_paths !! fid = None) ->
       exists d data,
         fs w' !! (templates_dir w ++ [template_file_name d (title t) ++ txt ".md"])
         = Some (File data).
Proof.
  intros Hf Ht. split.
  - unfold sync_database_to_filesystem, bind. rewrite Hf. exact Ht.
  - intros t Hin Hun.
    rewrite <- (steps_templates_dir _ _ _ (sync_folders_any _ _ _ _ Hf)).
    eapply sync_templates_written; [exact Ht | exact Hin|].
    unfold target_dir. destruct Hun as [->|(fid & -> & Hfid)]; [reflexivity|].
    destruct (Z.eqb fid 0); [reflexivity | exact Hfid].
Qed.

(** Reading the conclusion of the theorem for the template [T], filed
    under the unknown folder id 7. *)
Lemma unknown_folder_file (w' : world) :
  (forall t,
      In t [filed 7 (template_of (txt "T") (txt "raw"))] ->
      template_folder_id t = None
      \/ (exists fid, template_folder_id t = Some fid /\ ex_plain_paths !! fid = None) ->
      exists d data,
        fs w' !! (templates_dir ex_world ++ [template_file_name d (title t) ++ txt ".md"])
        = Some (File data)) ->
  exists data, fs w' !! (templates_dir ex_world ++ [txt "T.md"]) = Some (File data).
Proof.
  intros H.
  destruct (H (filed 7 (template_of (txt "T") (txt "raw")))) as (d & data & Hd).
  - left. reflexivity.
  - right. exists 7%Z. split; [reflexivity | vm_compute; reflexivity].
  - exists data.
    assert (template_file_name d (txt "T") ++ txt ".md" = txt "T.md") as E
      by (vm_compute; reflexivity).
    rewrite <- E. exact Hd.
Qed.

Lemma unresolved_template_at_root_witness :
  exists w',
    sync_database_to_filesystem
      ex_plain [filed 7 (template_of (txt "T") (txt "raw"))] ex_world = (Ok tt, w')
    /\ exists data, fs w' !! (templates_dir ex_world ++ [txt "T.md"]) = Some (File data).
Proof.
  assert (fst (sync_folders ex_plain ex_world) = Ok ex_plain_paths) as H1
    by (vm_compute; reflexivity).
  assert (fst (sync_templates ex_plain_paths [filed 7 (template_of (txt "T") (txt "raw"))]
                 (snd (sync_folders ex_plain ex_world))) = Ok tt) as H2
    by (vm_compute; reflexivity).
  destruct (unresolved_template_at_root
              ex_plain [filed 7 (template_of (txt "T") (txt "raw"))]
              ex_world _ _ ex_plain_paths (run_eq _ _ H1) (run_eq _ _ H2))
    as [Hsync H].
  eexists. split; [exact Hsync|]. apply unknown_folder_file. exact H.
Defined.

(** ** The folder loops *)

Lemma mirror_reachable folders base id p :
  mirror folders base id p -> reachable folders id.
Proof. induction 1; eauto using reachable. Qed.

Lemma placed_mono folders pre l id :
  placed folders pre id -> placed folders (pre ++ l) id.
Proof.
  intros H. revert l. induction H as [pre f Hin Hp|l1 f l2 pid Hp H IH]; intros l.
  - apply placed_root; assumption.
  - rewrite <- app_assoc. cbn [app]. eapply placed_child; eassumption.
Qed.

Lemma placed_reachable folders pre id :
  (forall f, In f pre -> In f folders) ->
  placed folders pre id -> reachable folders id.
Proof.
  intros Hincl H. induction H as [pre f Hin Hp|l1 f l2 pid Hp H IH].
  - apply reach_root; assumption.
  - eapply reach_child; [|exact Hp|].
    + apply Hincl, in_or_app. right. left. reflexivity.
    + apply IH. intros g Hg. apply Hincl, in_or_app. left. exact Hg.
Qed.

Lemma snoc_split {A} (l1 l2 pre : list A) (f g : A) :
  l1 ++ f :: l2 = pre ++ [g] ->
  (l2 = [] /\ l1 = pre /\ f = g) \/ (exists l2', l2 = l2' ++ [g] /\ pre = l1 ++ f :: l2').
Proof.
  destruct l2 as [|x l2' _] using rev_ind; intros H.
  - left. apply app_inj_tail in H as [-> ->]. auto.
  - right. change (l1 ++ f :: l2' ++ [x]) with (l1 ++ (f :: l2') ++ [x]) in H.
    rewrite app_assoc in H. apply app_inj_tail in H as [<- ->]. eauto.
Qed.

(** What one more folder adds to the pass. *)
Lemma placed_snoc folders pre f id :
  placed folders (pre ++ [f]) id <->
  placed folders pre id
  \/ (folder_id f = id /\ exists pid, parent_id f = Some pid /\ placed folders pre pid).
Proof.
  split.
  - intros H. remember (pre ++ [f]) as l eqn:El. revert pre El.
    destruct H as [l g Hin Hp|l1 g l2 pid Hp H]; intros pre El.
    + left. apply placed_root; assumption.
    + apply snoc_split in El as [(-> & -> & ->)|(l2' & -> & ->)].
      * right. split; [reflexivity|]. eauto.
      * left. eapply placed_child; eassumption.
  - intros [H|(<- & pid & Hp & H)].
    + apply placed_mono. exact H.
    + eapply placed_child; eassumption.
Qed.

Lemma placed_nil folders id :
  placed folders [] id <->
  exists f, In f folders /\ parent_id f = None /\ folder_id f = id.
Proof.
  split.
  - intros H. remember [] as l eqn:El. destruct H as [l f Hin Hp|l1 f l2 pid Hp H].
    + eauto.
    + destruct l1; discriminate.
  - intros (f & Hin & Hp & <-). apply placed_root; assumption.
Qed.

Lemma prefix_snoc_inv {A} (q l : list A) (x : A) :
  q `prefix_of` l ++ [x] -> q = l ++ [x] \/ q `prefix_of` l.
Proof.
  intros [k Hk]. destruct k as [|y k _] using rev_ind.
  - left. rewrite app_nil_r in Hk. symmetry. exact Hk.
  - right. rewrite app_assoc in Hk. apply app_inj_tail in Hk as [-> _].
    exists k. reflexivity.
Qed.

Lemma mirror_prefix folders base id p q :
  mirror folders base id p -> q `prefix_of` p -> mirror_dirs folders base q.
Proof.
  intros H. revert q. induction H as [f d Hin Hp|f pid pp d Hin Hp H IH]; intros q Hq.
  - apply prefix_snoc_inv in Hq as [->|Hq]; [|left; exact Hq].
    right. eexists. apply mirror_root; assumption.
  - apply prefix_snoc_inv in Hq as [->|Hq]; [|apply IH; exact Hq].
    right. eexists. eapply mirror_child; eassumption.
Qed.

Lemma recorded_ok_insert folders w0 folder_paths w w' D id p :
  recorded_ok folders w0 folder_paths w -> steps D w w' ->
  is_dir w' p = true -> mirror folders (templates_dir w0) id p ->
  recorded_ok folders w0 (<[id := p]> folder_paths) w'.
Proof.
  intros [Hh Hrec] Hs Hd Hm. split.
  - rewrite <- Hh. apply (steps_env D w w' Hs).
  - intros id' p' Hl. destruct (decide (id = id')) as [->|Hne].
    + rewrite lookup_insert_eq in Hl. injection Hl as <-. auto.
    + rewrite lookup_insert_ne in Hl by exact Hne.
      destruct (Hrec _ _ Hl) as [Hd' Hm']. split; [|exact Hm'].
      eapply keeps_is_dir; [eapply steps_keeps; exact Hs | exact Hd'].
Qed.

(** One creation of a folder directory, as both loops do it. *)
Lemma folder_step_inv folders w0 folder_paths f parent_path w r w' :
  In f folders ->
  recorded_ok folders w0 folder_paths w ->
  match parent_path, parent_id f with
  | None, None => True
  | Some pp, Some pid => folder_paths !! pid = Some pp
  | _, _ => False
  end ->
  (folder_path <- create_folder_on_disk (folder_name f) parent_path ;;
   ret (<[folder_id f := folder_path]> folder_paths)) w = (r, w') ->
  steps (mirror_dirs folders (templates_dir w0)) w w'
  /\ forall fp', r = Ok fp' ->
       (exists p, fp' = <[folder_id f := p]> folder_paths)
       /\ recorded_ok folders w0 fp' w'.
Proof.
  intros Hin Hok Hparent H. pose proof Hok as [Hh Hrec].
  assert (templates_dir w = templates_dir w0) as Hbase
    by (unfold templates_dir; rewrite Hh; reflexivity).
  assert (forall d, mirror folders (templates_dir w0) (folder_id f)
                      (base_dir parent_path w ++ [folder_dir_name d (folder_name f)])) as Hm.
  { intros d. destruct parent_path as [pp|], (parent_id f) as [pid|] eqn:Hp;
      try contradiction; simpl.
    - eapply mirror_child; [exact Hin | exact Hp | apply (Hrec _ _ Hparent)].
    - rewrite Hbase. apply mirror_root; assumption. }
  assert (forall q, folder_dirs (base_dir parent_path w) (folder_name f) q ->
                    mirror_dirs folders (templates_dir w0) q) as HD.
  { intros q [d Hq]. eapply mirror_prefix; [apply (Hm d) | exact Hq]. }
  apply bind_inv in H as [(p & w1 & Hc & H)|(e & Hc & ->)];
    apply create_folder_on_disk_steps in Hc as [Hs Hpost];
    apply (steps_mono _ _ _ _ HD) in Hs.
  - apply ret_inv in H as [-> ->]. split; [exact Hs|].
    intros fp' [= <-]. destruct (Hpost p eq_refl) as (d & -> & Hd).
    split; [eauto|].
    eapply recorded_ok_insert; eauto.
  - split; [exact Hs | discriminate].
Qed.

Lemma is_Some_insert (m : gmap Z path) (k id : Z) (p : path) :
  is_Some (<[k := p]> m !! id) <-> k = id \/ is_Some (m !! id).
Proof.
  destruct (decide (k = id)) as [->|Hne].
  - rewrite lookup_insert_eq. split; [auto | eauto].
  - rewrite lookup_insert_ne by exact Hne. split; [auto | intros [?|?]; [contradiction | assumption]].
Qed.

Lemma root_step_inv folders w0 folder_paths f w r w' :
  In f folders -> recorded_ok folders w0 folder_paths w ->
  root_step folder_paths f w = (r, w') ->
  steps (mirror_dirs folders (templates_dir w0)) w w'
  /\ forall fp', r = Ok fp' ->
       recorded_ok folders w0 fp' w'
       /\ forall id, is_Some (fp' !! id) <->
                     is_Some (folder_paths !! id)
                     \/ (parent_id f = None /\ folder_id f = id).
Proof.
  intros Hin Hok. unfold root_step. destruct (parent_id f) as [pid|] eqn:Hp.
  - intros H. apply ret_inv in H as [-> ->]. split; [apply steps_refl|].
    intros fp' [= <-]. split; [exact Hok|].
    intros id. split; [auto | intros [?|[? _]]; [assumption | discriminate]].
  - intros H. eapply folder_step_inv in H; [|exact Hin | exact Hok | rewrite Hp; exact I].
    destruct H as [Hs Hpost]. split; [exact Hs|].
    intros fp' Hr. destruct (Hpost fp' Hr) as [[p ->] Hok']. split; [exact Hok'|].
    intros id. rewrite is_Some_insert. split; intros [H|H]; auto. destruct H; auto.
Qed.

Lemma child_step_inv folders w0 folder_paths f w r w' :
  In f folders -> recorded_ok folders w0 folder_paths w ->
  child_step folder_paths f w = (r, w') ->
  steps (mirror_dirs folders (templates_dir w0)) w w'
  /\ forall fp', r = Ok fp' ->
       recorded_ok folders w0 fp' w'
       /\ forall id, is_Some (fp' !! id) <->
                     is_Some (folder_paths !! id)
                     \/ (folder_id f = id
                         /\ exists pid, parent_id f = Some pid
                                        /\ is_Some (folder_paths !! pid)).
Proof.
  intros Hin Hok. unfold child_step.
  destruct (parent_id f) as [pid|] eqn:Hp;
    [destruct (folder_paths !! pid) as [pp|] eqn:Hpp|].
  - intros H. eapply folder_step_inv in H; [|exact Hin | exact Hok | rewrite Hp; exact Hpp].
    destruct H as [Hs Hpost]. split; [exact Hs|].
    intros fp' Hr. destruct (Hpost fp' Hr) as [[p ->] Hok']. split; [exact Hok'|].
    intros id. rewrite is_Some_insert. split; intros [H|H]; auto.
    + right. split; [exact H|]. exists pid. rewrite Hpp. eauto.
    + destruct H; auto.
  - intros H. apply ret_inv in H as [-> ->]. split; [apply steps_refl|].
    intros fp' [= <-]. split; [exact Hok|].
    intros id. split; [auto|]. intros [H|(_ & pid' & [= <-] & H)]; [exact H|].
    rewrite Hpp in H. destruct H; discriminate.
  - intros H. apply ret_inv in H as [-> ->]. split; [apply steps_refl|].
    intros fp' [= <-]. split; [exact Hok|].
    intros id. split; [auto|]. intros [H|(_ & pid' & [=] & _)]. exact H.
Qed.

Lemma roots_inv folders w0 l :
  forall folder_paths w r w',
    (forall f, In f l -> In f folders) ->
    recorded_ok folders w0 folder_paths w ->
    for_each root_step l folder_paths w = (r, w') ->
    steps (mirror_dirs folders (templates_dir w0)) w w'
    /\ forall fp', r = Ok fp' ->
         recorded_ok folders w0 fp' w'
         /\ forall id, is_Some (fp' !! id) <->
                       is_Some (folder_paths !! id)
                       \/ exists f, In f l /\ parent_id f = None /\ folder_id f = id.
Proof.
  induction l as [|f l IH]; intros fp w r w' Hincl Hok H.
  - apply ret_inv in H as [-> ->]. split; [apply steps_refl|].
    intros fp' [= <-]. split; [exact Hok|].
    intros id. split; [auto | intros [?|(? & [] & _)]; assumption].
  - cbn [for_each] in H.
    apply bind_inv in H as [(fp1 & w1 & Hf & H)|(e & Hf & ->)];
      apply (root_step_inv folders w0) in Hf as [Hs1 Hpost1];
      try (apply Hincl; left; reflexivity); try exact Hok.
    + destruct (Hpost1 fp1 eq_refl) as [Hok1 Hdom1].
      apply IH in H as [Hs2 Hpost2]; [| intros g Hg; apply Hincl; right; exact Hg | exact Hok1].
      split; [eapply steps_trans; eassumption|].
      intros fp' Hr. destruct (Hpost2 fp' Hr) as [Hok2 Hdom2]. split; [exact Hok2|].
      intros id. rewrite Hdom2, Hdom1. split.
      * intros [[H|[Hp Hid]]|(g & Hg & Hp & Hid)]; [auto | right; exists f; simpl; auto |].
        right. exists g. simpl. auto.
      * intros [H|(g & [->|Hg] & Hp & Hid)]; [auto | auto |]. right. eauto.
    + split; [exact Hs1 | discriminate].
Qed.

Lemma children_inv folders w0 l :
  forall pre folder_paths w r w',
    (forall f, In f l -> In f folders) ->
    recorded_ok folders w0 folder_paths w ->
    (forall id, is_Some (folder_paths !! id) <-> placed folders pre id) ->
    for_each child_step l folder_paths w = (r, w') ->
    steps (mirror_dirs folders (templates_dir w0)) w w'
    /\ forall fp', r = Ok fp' ->
         recorded_ok folders w0 fp' w'
         /\ forall id, is_Some (fp' !! id) <-> placed folders (pre ++ l) id.
Proof.
  induction l as [|f l IH]; intros pre fp w r w' Hincl Hok Hdom H.
  - apply ret_inv in H as [-> ->]. split; [apply steps_refl|].
    intros fp' [= <-]. split; [exact Hok|]. rewrite app_nil_r. exact Hdom.
  - cbn [for_each] in H.
    apply bind_inv in H as [(fp1 & w1 & Hf & H)|(e & Hf & ->)];
      apply (child_step_inv folders w0) in Hf as [Hs1 Hpost1];
      try (apply Hincl; left; reflexivity); try exact Hok.
    + destruct (Hpost1 fp1 eq_refl) as [Hok1 Hdom1].
      apply (IH (pre ++ [f])) in H as [Hs2 Hpost2];
        [| intros g Hg; apply Hincl; right; exact Hg | exact Hok1 |].
      * split; [eapply steps_trans; eassumption|].
        intros fp' Hr. destruct (Hpost2 fp' Hr) as [Hok2 Hdom2]. split; [exact Hok2|].
        intros id. rewrite Hdom2, <- app_assoc. reflexivity.
      * intros id. rewrite Hdom1, placed_snoc, Hdom.
        split; (intros [H'|(Hid & pid & Hp & H')]; [left; exact H'|]);
          right; (split; [exact Hid|]); exists pid; (split; [exact Hp|]);
          apply Hdom; exact H'.
    + split; [exact Hs1 | discriminate].
Qed.

Lemma sync_folders_inv folders w r w' :
  sync_folders folders w = (r, w') ->
  steps (mirror_dirs folders (templates_dir w)) w w'
  /\ forall fp, r = Ok fp ->
       recorded_ok folders w fp w'
       /\ forall id, is_Some (fp !! id) <-> placed folders folders id.
Proof.
  unfold sync_folders. intros H.
  assert (recorded_ok folders w ∅ w) as Hok0.
  { split; [reflexivity|]. intros id p Hl. rewrite lookup_empty in Hl. discriminate. }
  apply bind_inv in H as [(fp0 & w0 & Hr & H)|(e & Hr & ->)];
    apply (roots_inv folders w) in Hr as [Hs1 Hpost1]; auto.
  - destruct (Hpost1 fp0 eq_refl) as [Hok1 Hdom1].
    apply (children_inv folders w folders []) in H as [Hs2 Hpost2]; auto.
    + split; [eapply steps_trans; eassumption | exact Hpost2].
    + intros id. rewrite Hdom1, placed_nil, lookup_empty.
      split; [intros [[? H']|H']; [discriminate | exact H'] | auto].
  - split; [exact Hs1 | discriminate].
Qed.

(** ** Which folders get a directory *)

Lemma NoDup_split_unique {A} (g : A) (a : list A) :
  forall b x y, NoDup (a ++ g :: b) -> a ++ g :: b = x ++ g :: y -> a = x.
Proof.
  induction a as [|a0 a IH]; intros b x y Hnd E.
  - destruct x as [|x0 x]; [reflexivity|]. exfalso.
    simpl in *. injection E as <- ->. apply NoDup_cons in Hnd as [Hn _].
    apply Hn. apply list_elem_of_In, in_or_app. right. left. reflexivity.
  - destruct x as [|x0 x]; simpl in *.
    + exfalso. injection E as -> <-. apply NoDup_cons in Hnd as [Hn _].
      apply Hn. apply list_elem_of_In, in_or_app. right. left. reflexivity.
    + injection E as <- E. f_equal. apply NoDup_cons in Hnd as [_ Hnd].
      eapply IH; eassumption.
Qed.

Lemma placed_before folders pre pid :
  placed folders pre pid ->
  forall l1 rest,
    pre = l1 ++ rest -> NoDup pre ->
    (forall g, In g pre -> folder_id g = pid -> parent_id g = None \/ In g l1) ->
    placed folders l1 pid.
Proof.
  intros H. destruct H as [pre g Hg Hgp|a g b pid' Hgp Ha]; intros l1 rest E Hnd Hb.
  - apply placed_root; assumption.
  - assert (In g (a ++ g :: b)) as Hg by (apply in_or_app; right; left; reflexivity).
    destruct (Hb g Hg eq_refl) as [Hnone|Hl1]; [congruence|].
    destruct (in_split _ _ Hl1) as (x & y & ->).
    assert (a = x) as ->.
    { eapply (NoDup_split_unique g a b x (y ++ rest)); [exact Hnd|].
      rewrite E, <- app_assoc. reflexivity. }
    eapply placed_child; eassumption.
Qed.

Lemma ordered_placed folders id :
  NoDup folders -> parent_first folders ->
  reachable folders id -> placed folders folders id.
Proof.
  intros Hnd Hpf H. induction H as [f Hin Hp|f pid Hin Hp H IH].
  - apply placed_root; assumption.
  - destruct (in_split _ _ Hin) as (l1 & l2 & E).
    rewrite E at 2. eapply placed_child; [exact Hp|].
    eapply (placed_before folders folders pid IH l1 (f :: l2) E Hnd).
    intros g Hg Eg. eapply Hpf; eassumption.
Qed.

(** C1, amended.  When the folder loops complete, a folder has a recorded
    directory exactly when it is a root or is listed after a folder that
    placed its parent (one pass, in list order), and every recorded path is
    a directory on disk.  So every folder whose ancestor chain resolves to
    listed folders gets its mirrored directory, at any nesting depth, when
    each non-root folder is listed after its parent. *)
Theorem single_pass_mirrors
    (folders : list Folder) (w w' : world) (folder_paths : gmap Z path) :
  sync_folders folders w = (Ok folder_paths, w') ->
  (forall id, is_Some (folder_paths !! id) <-> placed folders folders id)
  /\ (forall id p, folder_paths !! id = Some p -> is_dir w' p = true)
  /\ (NoDup (folder_id <$> folders) -> parent_first folders ->
      forall id, reachable folders id ->
        exists p, folder_paths !! id = Some p /\ is_dir w' p = true).
Proof.
  intros H. apply sync_folders_inv in H as [_ Hpost].
  destruct (Hpost _ eq_refl) as [[_ Hrec] Hdom].
  split; [exact Hdom|]. split; [intros id p Hl; apply (Hrec _ _ Hl)|].
  intros Hnd Hpf id Hreach. apply NoDup_fmap_1 in Hnd.
  destruct (proj2 (Hdom id) (ordered_placed _ _ Hnd Hpf Hreach)) as [p Hl].
  exists p. split; [exact Hl | apply (Hrec _ _ Hl)].
Qed.

Lemma single_pass_mirrors_witness :
  exists p,
    ex_deep_paths !! 2%Z = Some p
    /\ is_dir (snd (sync_folders ex_deep ex_world)) p = true.
Proof.
  assert (fst (sync_folders ex_deep ex_world) = Ok ex_deep_paths) as H1
    by (vm_compute; reflexivity).
  destruct (single_pass_mirrors ex_deep ex_world _ ex_deep_paths (run_eq _ _ H1))
    as (_ & Hdir & _).
  exists (templates_dir ex_world ++ [txt "A"; txt "B"]).
  split; [vm_compute; reflexivity|]. apply (Hdir 2%Z). vm_compute. reflexivity.
Defined.

(** C1, as stated, fails: in [ex_deep] the chain of folder 3 resolves (3 is
    under 2, 2 under 1, 1 is a root), but 3 is listed before 2, its parent
    has no recorded directory when the one pass reaches it, and it is left
    without a directory. *)
Lemma child_listed_first_unmirrored :
  reachable ex_deep 3
  /\ exists folder_paths,
       fst (sync_folders ex_deep ex_world) = Ok folder_paths
       /\ folder_paths !! 3%Z = None
       /\ fs (snd (sync_folders ex_deep ex_world))
            !! (templates_dir ex_world ++ [txt "A"; txt "B"; txt "C"]) = None.
Proof.
  split.
  - apply (reach_child ex_deep (folder_of 3 (txt "C") (Some 2%Z)) 2); [simpl; auto | reflexivity|].
    apply (reach_child ex_deep (folder_of 2 (txt "B") (Some 1%Z)) 1); [simpl; auto | reflexivity|].
    apply (reach_root ex_deep (folder_of 1 (txt "A") None)); [simpl; auto | reflexivity].
  - eexists. split; [vm_compute; reflexivity|]. split; vm_compute; reflexivity.
Qed.

(** ** Cycles *)

Lemma unique_id (folders : list Folder) f g :
  NoDup (folder_id <$> folders) -> In f folders -> In g folders ->
  folder_id f = folder_id g -> f = g.
Proof.
  induction folders as [|h l IH]; intros Hnd Hf Hg E; [destruct Hf|].
  cbn [fmap list_fmap] in Hnd. apply NoDup_cons in Hnd as [Hn Hnd].
  assert (forall x, In x l -> folder_id x <> folder_id h) as Hne.
  { intros x Hx Ex. apply Hn. rewrite <- Ex. apply list_elem_of_fmap.
    exists x. split; [reflexivity | apply list_elem_of_In; exact Hx]. }
  destruct Hf as [<-|Hf], Hg as [<-|Hg]; auto.
  - exfalso. apply (Hne g Hg). symmetry. exact E.
  - exfalso. apply (Hne f Hf). exact E.
Qed.

Lemma cycle_unreachable folders id :
  NoDup (folder_id <$> folders) -> reachable folders id -> ~ on_cycle folders id.
Proof.
  intros Hnd H. unfold on_cycle.
  induction H as [f Hin Hp|f pid Hin Hp H IH]; intros Hc.
  - assert (exists y, parent_of folders (folder_id f) y) as (y & g & Hg & Eg & Hgp).
    { inversion Hc; eauto. }
    rewrite (unique_id folders g f Hnd Hg Hin Eg) in Hgp. congruence.
  - assert (forall y, parent_of folders (folder_id f) y -> y = pid) as Hu.
    { intros y (g & Hg & Eg & Hgp).
      rewrite (unique_id folders g f Hnd Hg Hin Eg) in Hgp. congruence. }
    apply IH. inversion Hc as [x y Hstep|x y z Hstep Hrest]; subst.
    + pose proof (Hu _ Hstep) as E. rewrite <- E. apply tc_once. exact Hstep.
    + pose proof (Hu _ Hstep) as ->. eapply tc_r; eassumption.
Qed.

(** C9.  The folder phase is a total function of the folder list and the
    world: two loops over the list, each taking the folders once and in
    list order, whatever the parent references are; what it records is
    what one such pass places, not a fixpoint.  Every directory it makes is
    the templates directory, one of its ancestors, or the mirror path of a
    folder reachable by a parent chain from a parentless folder; every
    folder with a recorded directory is reachable; and with unique ids a
    folder on a parent cycle is not reachable and has no recorded
    directory. *)
Theorem folder_phase_bounded (folders : list Folder) (w : world) :
  exists r w',
    sync_folders folders w = (r, w')
    /\ (forall q, fs w' !! q = Some Dir ->
          fs w !! q = Some Dir
          \/ q `prefix_of` templates_dir w
          \/ exists id, reachable folders id /\ mirror folders (templates_dir w) id q)
    /\ (forall fp id, r = Ok fp ->
          (is_Some (fp !! id) <-> placed folders folders id)
          /\ (is_Some (fp !! id) -> reachable folders id))
    /\ (NoDup (folder_id <$> folders) ->
        forall id, on_cycle folders id ->
          ~ reachable folders id /\ forall fp, r = Ok fp -> fp !! id = None).
Proof.
  destruct (sync_folders folders w) as [r w'] eqn:E. exists r, w'.
  split; [reflexivity|]. apply sync_folders_inv in E as [Hs Hpost].
  assert (forall fp id, r = Ok fp -> is_Some (fp !! id) -> reachable folders id) as Hreach.
  { intros fp id Hr Hl. destruct (Hpost fp Hr) as [_ Hdom].
    apply Hdom in Hl. eapply placed_reachable; [|exact Hl]. auto. }
  split; [|split].
  - intros q Hq. destruct (steps_new_dirs _ _ _ q Hs Hq) as [H|[H|[id H]]]; auto.
    right. right. exists id. split; [eapply mirror_reachable; exact H | exact H].
  - intros fp id Hr. split; [apply (Hpost fp Hr) | apply Hreach; exact Hr].
  - intros Hnd id Hc.
    assert (~ reachable folders id) as Hn
      by (intros Hr; exact (cycle_unreachable folders id Hnd Hr Hc)).
    split; [exact Hn|]. intros fp Hr.
    destruct (fp !! id) as [p|] eqn:El; [|reflexivity].
    exfalso. apply Hn. eapply Hreach; [exact Hr|]. rewrite El. eauto.
Qed.

Lemma folder_phase_bounded_witness :
  on_cycle ex_cycle 1
  /\ exists r w',
       sync_folders ex_cycle ex_world = (r, w')
       /\ forall fp, r = Ok fp -> fp !! 1%Z = None.
Proof.
  assert (on_cycle ex_cycle 1) as Hc.
  { eapply tc_l; [|apply tc_once].
    - exists (folder_of 1 (txt "A") (Some 2%Z)). simpl. auto.
    - exists (folder_of 2 (txt "B") (Some 1%Z)). simpl. auto. }
  split; [exact Hc|].
  destruct (folder_phase_bounded ex_cycle ex_world) as (r & w' & E & _ & _ & H).
  exists r, w'. split; [exact E|].
  apply H; [|exact Hc].
  apply (bool_decide_unpack _). vm_compute. exact I.
Defined.

(** * Greedy repetitions *)

Lemma before_cons prev c m : before prev (c :: m) = before (Some c) m.
Proof.
  unfold before. destruct m as [|d m]; [reflexivity|].
  change (last (c :: d :: m)) with (last (d :: m)).
  destruct (last (d :: m)) eqn:E; [reflexivity|].
  apply last_None in E. discriminate.
Qed.

(** A greedy repetition takes the whole run of its class when the rest of
    the pattern matches after the run. *)
Lemma rep_greedy_take cls cap (k : cont) rest r :
  forall run lo hi prev acc gs,
    Forall (fun c => cls c = true) run ->
    match rest with [] => True | c :: _ => cls c = false end
    \/ hi = Some (length run) ->
    lo <= length run ->
    match hi with Some h => length run <= h | None => True end ->
    k (before prev run) rest (close_group cap (rev run ++ acc) gs) = Some r ->
    rep cls Greedy cap k lo hi prev (run ++ rest) acc gs = Some r.
Proof.
  induction run as [|c run IH]; intros lo hi prev acc gs Hrun Hstop Hlo Hhi Hk.
  - simpl in *. assert (lo = 0) as -> by lia.
    assert (match rest with
            | c :: s' =>
                if cls c && may_take hi
                then rep cls Greedy cap k (pred 0) (pred <$> hi) (Some c) s' (c :: acc) gs
                else None
            | [] => None
            end = None) as E.
    { destruct rest as [|c s']; [reflexivity|].
      destruct Hstop as [-> | ->]; [reflexivity | rewrite andb_false_r; reflexivity]. }
    destruct rest as [|c s']; cbn [rep]; [exact Hk|]. rewrite E. exact Hk.
  - apply Forall_cons in Hrun as [Hc Hrun]. cbn [app rep]. rewrite Hc.
    assert (may_take hi = true) as ->.
    { destruct hi as [[|h]|]; simpl in *; [lia | reflexivity | reflexivity]. }
    cbn [andb]. rewrite (IH (pred lo) (pred <$> hi) (Some c) (c :: acc) gs); [reflexivity|..].
    + exact Hrun.
    + destruct Hstop as [H| ->]; [left; exact H | right; reflexivity].
    + simpl in Hlo. lia.
    + destruct hi as [h|]; simpl in *; [lia | exact I].
    + rewrite before_cons in Hk. simpl in Hk. rewrite <- app_assoc in Hk. exact Hk.
Qed.

(** It fails when the run is shorter than its lower bound. *)
Lemma rep_greedy_short cls cap (k : cont) rest :
  forall run lo hi prev acc gs,
    Forall (fun c => cls c = true) run ->
    match rest with [] => True | c :: _ => cls c = false end ->
    length run < lo ->
    rep cls Greedy cap k lo hi prev (run ++ rest) acc gs = None.
Proof.
  induction run as [|c run IH]; intros lo hi prev acc gs Hrun Hstop Hlo.
  - simpl. destruct lo as [|lo]; [simpl in Hlo; lia|].
    destruct rest as [|c s']; cbn [rep]; [reflexivity|]. rewrite Hstop. reflexivity.
  - apply Forall_cons in Hrun as [Hc Hrun]. cbn [app rep]. rewrite Hc. cbn [andb].
    destruct lo as [|lo]; [simpl in Hlo; lia|].
    destruct (may_take hi); [|reflexivity].
    rewrite IH; [reflexivity | exact Hrun | exact Hstop | simpl in *; lia].
Qed.

Lemma take_drop_while P s : take_while P s ++ drop_while P s = s.
Proof.
  induction s as [|c s IH]; [reflexivity|]. simpl.
  destruct (P c); [simpl; f_equal; exact IH | reflexivity].
Qed.

Lemma take_while_all P s : Forall (fun c => P c = true) (take_while P s).
Proof.
  induction s as [|c s IH]; [constructor|]. simpl.
  destruct (P c) eqn:E; constructor; assumption.
Qed.

(** * The sanitizers of names *)

(** The pattern [_{2,}] matches a run of two underscores or more, whole. *)
Lemma match_underscores prev s :
  match_items re_underscores prev s [] =
  if 2 <=? length (take_while (chr "_") s)
  then Some ([], drop_while (chr "_") s) else None.
Proof.
  unfold re_underscores. cbn [match_items].
  rewrite <- (take_drop_while (chr "_") s) at 1.
  destruct (2 <=? length (take_while (chr "_") s)) eqn:E.
  - apply Nat.leb_le in E. apply rep_greedy_take.
    + apply take_while_all.
    + left. apply drop_while_is_head.
    + exact E.
    + exact I.
    + reflexivity.
  - apply Nat.leb_gt in E. apply rep_greedy_short.
    + apply take_while_all.
    + apply drop_while_is_head.
    + exact E.
Qed.

Lemma squeeze_after b s :
  take_while (chr "_") s = [] -> squeeze b s = squeeze false s.
Proof.
  destruct s as [|c s]; [reflexivity|]. simpl.
  destruct (chr "_" c); [discriminate | reflexivity].
Qed.

Lemma scan_underscores s :
  forall prev n,
    n = 0 \/ n = length (take_while (chr "_") s) ->
    flat_map (piece_sub (fun _ _ => txt "_")) (scan re_underscores prev s n)
    = squeeze (negb (n =? 0)) s.
Proof.
  induction s as [|c s IH]; intros prev n Hn.
  - assert (n = 0) as -> by (destruct Hn as [-> | ->]; reflexivity). reflexivity.
  - destruct n as [|n].
    + cbn [scan]. rewrite match_underscores. cbn [take_while drop_while].
      destruct (chr "_" c) eqn:Hc.
      * cbn [length]. destruct (take_while (chr "_") s) as [|d run] eqn:Erun.
        -- simpl. rewrite Hc. rewrite IH by (left; reflexivity). simpl.
           rewrite (squeeze_after true) by exact Erun. reflexivity.
        -- cbn [length Nat.leb].
           assert (S (length s) - length (drop_while (chr "_") s) = S (S (length run))) as ->.
           { pose proof (take_drop_while (chr "_") s) as E. rewrite Erun in E.
             rewrite <- E at 1. simpl. rewrite length_app. lia. }
           cbn [flat_map piece_sub]. rewrite IH by (right; reflexivity).
           simpl. rewrite Hc. unfold chr in Hc. apply Ascii.eqb_eq in Hc. subst c.
           reflexivity.
      * simpl. rewrite Hc. rewrite IH by (left; reflexivity). reflexivity.
    + cbn [scan]. destruct Hn as [Hn|Hn]; [discriminate|].
      cbn [take_while] in Hn. destruct (chr "_" c) eqn:Hc; [|discriminate].
      simpl in Hn. injection Hn as Hn.
      rewrite IH by (right; exact Hn). simpl. rewrite Hc.
      destruct n as [|n]; [|reflexivity]. simpl.
      symmetry. apply squeeze_after. destruct (take_while (chr "_") s); [reflexivity | discriminate].
Qed.

(** Substituting one underscore for [_{2,}] keeps one underscore of every
    run. *)
Lemma re_sub_underscores s :
  re_sub re_underscores (fun _ _ => txt "_") s = squeeze false s.
Proof. rewrite re_sub_pieces. apply (scan_underscores s None 0). left. reflexivity. Qed.

Lemma squeeze_single s :
  forall b, single_underscores (squeeze b s) = true
            /\ (b = true -> take_while (chr "_") (squeeze b s) = []).
Proof.
  induction s as [|c s IH]; intros b; [split; reflexivity|].
  cbn [squeeze]. destruct (chr "_" c) eqn:Hc.
  - destruct b.
    + apply IH.
    + split; [|discriminate]. cbn [single_underscores]. rewrite Hc.
      destruct (IH true) as [H1 H2]. rewrite H1. specialize (H2 eq_refl).
      destruct (squeeze true s) as [|d t]; [reflexivity|].
      simpl in H2. destruct (chr "_" d); [discriminate | reflexivity].
  - split.
    + cbn [single_underscores]. rewrite Hc. apply IH.
    + intros _. simpl. rewrite Hc. reflexivity.
Qed.

Lemma squeeze_fix s : single_underscores s = true -> squeeze false s = s.
Proof.
  induction s as [|c s IH]; [reflexivity|]. cbn [single_underscores squeeze].
  intros H. apply andb_true_iff in H as [H1 H2].
  destruct (chr "_" c) eqn:Hc.
  - f_equal. rewrite squeeze_after; [apply IH, H2|].
    destruct s as [|d s]; [reflexivity|]. simpl in *.
    destruct (chr "_" d); [discriminate | reflexivity].
  - f_equal. apply IH, H2.
Qed.

Lemma single_underscores_suffix l s :
  single_underscores (l ++ s) = true -> single_underscores s = true.
Proof.
  induction l as [|c l IH]; [trivial|]. cbn [app single_underscores].
  intros H. apply andb_true_iff in H as [_ H]. apply IH, H.
Qed.

Lemma single_underscores_prefix s r :
  single_underscores (s ++ r) = true -> single_underscores s = true.
Proof.
  induction s as [|c s IH]; [reflexivity|]. cbn [app single_underscores].
  intros H. apply andb_true_iff in H as [H1 H2]. rewrite (IH H2), andb_true_r.
  destruct s as [|d s]; [rewrite andb_false_r; reflexivity | exact H1].
Qed.

Lemma Forall_suffix {A} (P : A -> Prop) (l s : list A) : Forall P (l ++ s) -> Forall P s.
Proof. intros H. apply Forall_app in H as [_ H]. exact H. Qed.

Lemma Forall_prefix {A} (P : A -> Prop) (s r : list A) : Forall P (s ++ r) -> Forall P s.
Proof. intros H. apply Forall_app in H as [H _]. exact H. Qed.

(** What [strip] with a set of characters leaves has none of them at
    either end, and a text with none of them at either end is left as it
    is. *)
Lemma strip_by_trimmed P s : trimmed P (rstrip_by P (lstrip_by P s)).
Proof.
  unfold lstrip_by. set (a := drop_while P s). split.
  - destruct (rstrip_prefix P a) as [r Hr].
    pose proof (drop_while_is_head P s) as Hh. fold a in Hh.
    destruct (rstrip_by P a) as [|c b]; [exact I|].
    rewrite Hr in Hh. exact Hh.
  - unfold rstrip_by. rewrite rev_involutive. apply drop_while_is_head.
Qed.

Lemma strip_by_fix P s : trimmed P s -> rstrip_by P (lstrip_by P s) = s.
Proof.
  intros [H1 H2]. unfold lstrip_by, rstrip_by.
  rewrite (drop_while_head P s) by exact H1.
  rewrite (drop_while_head P (rev s)) by exact H2.
  apply rev_involutive.
Qed.

Lemma strip_by_part P s : exists l r, s = l ++ rstrip_by P (lstrip_by P s) ++ r.
Proof.
  unfold lstrip_by. destruct (drop_while_suffix P s) as [l Hl].
  destruct (rstrip_prefix P (drop_while P s)) as [r Hr].
  exists l, r. rewrite <- Hr. exact Hl.
Qed.

Lemma replaced_valid s :
  Forall (fun c => one_of invalid_chars c = false)
         (re_sub [One (one_of invalid_chars)] (fun _ _ => txt "_") s).
Proof.
  rewrite re_sub_one. induction s as [|c s IH]; [constructor|]. cbn [flat_map].
  destruct (one_of invalid_chars c) eqn:E; cbn [app txt list_ascii_of_string];
    constructor; auto.
Qed.

Lemma rewritten_valid s : Forall (fun c => one_of invalid_chars c = false) (rewritten s).
Proof.
  unfold rewritten. apply re_sub_Forall; [apply replaced_valid|].
  intros w gs. repeat constructor.
Qed.

(** What the three rewrites give is tidy. *)
Lemma strip_rewritten_tidy cs name : tidy cs (strip_chars cs (rewritten name)).
Proof.
  unfold strip_chars.
  destruct (strip_by_part (one_of cs) (rewritten name)) as (l & r & E).
  split; [|split].
  - pose proof (rewritten_valid name) as H. rewrite E in H.
    apply Forall_suffix, Forall_prefix in H. exact H.
  - assert (single_underscores (rewritten name) = true) as H.
    { unfold rewritten. rewrite re_sub_underscores. apply squeeze_single. }
    rewrite E in H. apply single_underscores_suffix, single_underscores_prefix in H.
    exact H.
  - apply strip_by_trimmed.
Qed.

(** A tidy name is left as it is by the three rewrites. *)
Lemma strip_rewritten_fix cs s : tidy cs s -> strip_chars cs (rewritten s) = s.
Proof.
  intros (Hv & Hs & Ht). unfold rewritten.
  rewrite (re_sub_absent (one_of invalid_chars) [One (one_of invalid_chars)]);
    [|reflexivity | exact Hv].
  rewrite re_sub_underscores, squeeze_fix by exact Hs.
  apply strip_by_fix, Ht.
Qed.

Lemma name_core_tidy name : tidy (txt "_ .") (name_core name).
Proof. apply (strip_rewritten_tidy (txt "_ .")). Qed.

Lemma name_core_fix s : tidy (txt "_ .") s -> name_core s = s.
Proof. apply (strip_rewritten_fix (txt "_ .")). Qed.

(** ** The names made from the clock *)

Lemma decimal_digits n : Forall (fun c => is_digit c = true) (decimal n).
Proof.
  unfold decimal. generalize (Nat.to_uint n) as u.
  induction u; simpl; constructor; auto.
Qed.

Lemma pad_digits width n : Forall (fun c => is_digit c = true) (pad width n).
Proof.
  unfold pad. apply Forall_app. split.
  - apply Forall_forall. intros c Hc. apply list_elem_of_In, repeat_spec in Hc.
    subst c. reflexivity.
  - destruct n; [repeat constructor | apply decimal_digits].
Qed.

Lemma pad_length width n : width <= length (pad width n).
Proof. unfold pad. rewrite length_app, repeat_length. lia. Qed.

Lemma pad_nonempty width n : 0 < width -> pad width n <> [].
Proof.
  intros Hw E. pose proof (pad_length width n) as H. rewrite E in H. simpl in H. lia.
Qed.

(** The compact time stamp is made of two groups of digits with an
    underscore between them. *)
Lemma strftime_compact_shape d :
  exists D1 D2,
    strftime_compact d = D1 ++ "_" :: D2
    /\ Forall (fun c => is_digit c = true) D1 /\ D1 <> []
    /\ Forall (fun c => is_digit c = true) D2 /\ D2 <> [].
Proof.
  exists (pad 4 (year d) ++ pad 2 (month d) ++ pad 2 (day d)),
         (pad 2 (hour d) ++ pad 2 (minute d) ++ pad 2 (second d)).
  split; [|split; [|split; [|split]]].
  - unfold strftime_compact. rewrite <- !app_assoc. reflexivity.
  - apply Forall_app; split; [apply pad_digits|].
    apply Forall_app; split; apply pad_digits.
  - intros E. apply app_eq_nil in E as [E _]. revert E. apply pad_nonempty. lia.
  - apply Forall_app; split; [apply pad_digits|].
    apply Forall_app; split; apply pad_digits.
  - intros E. apply app_eq_nil in E as [E _]. revert E. apply pad_nonempty. lia.
Qed.

Lemma digit_plain c :
  is_digit c = true ->
  one_of invalid_chars c = false /\ one_of (txt "_ .") c = false /\ chr "_" c = false.
Proof.
  destruct c as [[] [] [] [] [] [] [] []]; intros H; try discriminate H;
    repeat split; reflexivity.
Qed.

Lemma single_underscores_skip p r :
  Forall (fun c => chr "_" c = false) p ->
  single_underscores (p ++ r) = single_underscores r.
Proof.
  induction 1 as [|c p Hc _ IH]; [reflexivity|].
  cbn [app single_underscores]. rewrite Hc, IH. reflexivity.
Qed.

Lemma single_underscores_sep D r :
  Forall (fun c => is_digit c = true) D -> D <> [] ->
  single_underscores ("_" :: D ++ r) = single_underscores r.
Proof.
  intros HD Hne. cbn [single_underscores].
  rewrite single_underscores_skip
    by (eapply Forall_impl; [exact HD | intros c Hc; apply digit_plain, Hc]).
  destruct D as [|x D]; [contradiction|]. apply Forall_cons in HD as [Hx _].
  simpl. destruct (digit_plain x Hx) as (_ & _ & ->). reflexivity.
Qed.

(** A word, an underscore and the compact time stamp make a tidy name of
    five characters or more. *)
Lemma stamped_tidy (a : ascii) (p : text) (d : datetime) :
  Forall (fun c => one_of invalid_chars c = false /\ chr "_" c = false) (a :: p) ->
  one_of (txt "_ .") a = false ->
  tidy (txt "_ .") ((a :: p) ++ "_" :: strftime_compact d)
  /\ 4 < length ((a :: p) ++ "_" :: strftime_compact d).
Proof.
  intros Hp Ha. destruct (strftime_compact_shape d) as (D1 & D2 & -> & H1 & N1 & H2 & N2).
  split; [split; [|split]|].
  - apply Forall_app. split; [eapply Forall_impl; [exact Hp | intros c [Hc _]; exact Hc]|].
    constructor; [reflexivity|]. apply Forall_app. split.
    + eapply Forall_impl; [exact H1 | intros c Hc; apply digit_plain, Hc].
    + constructor; [reflexivity|].
      eapply Forall_impl; [exact H2 | intros c Hc; apply digit_plain, Hc].
  - rewrite single_underscores_skip
      by (eapply Forall_impl; [exact Hp | intros c [_ Hc]; exact Hc]).
    rewrite single_underscores_sep by assumption.
    rewrite <- (app_nil_r D2). apply single_underscores_sep; assumption.
  - split; [exact Ha|].
    assert ((a :: p) ++ "_" :: D1 ++ "_" :: D2
            = ((a :: p) ++ "_" :: D1 ++ ["_"]) ++ D2) as ->.
    { rewrite <- !app_assoc. simpl. rewrite <- !app_assoc. reflexivity. }
    rewrite rev_app_distr.
    destruct (rev D2) as [|z t] eqn:E.
    + exfalso. apply N2. rewrite <- (rev_involutive D2), E. reflexivity.
    + simpl. apply digit_plain. rewrite Forall_forall in H2. apply H2.
      apply list_elem_of_In, in_rev. rewrite E. left. reflexivity.
  - destruct D1 as [|x1 D1]; [contradiction|]. destruct D2 as [|y1 D2]; [contradiction|].
    simpl. rewrite !length_app. simpl. rewrite length_app. simpl. lia.
Qed.

Lemma folder_stamp_tidy d :
  tidy (txt "_ .") (txt "folder_" ++ strftime_compact d)
  /\ 4 < length (txt "folder_" ++ strftime_compact d).
Proof.
  apply (stamped_tidy "f" (txt "older") d); [|reflexivity].
  repeat constructor.
Qed.

Lemma template_stamp_tidy d :
  tidy (txt "_ .") (txt "template_" ++ strftime_compact d)
  /\ 4 < length (txt "template_" ++ strftime_compact d).
Proof.
  apply (stamped_tidy "t" (txt "emplate") d); [|reflexivity].
  repeat constructor.
Qed.

Lemma reserved_short n : In n reserved_names -> length n <= 4.
Proof.
  assert (forallb (fun r => length r <=? 4) reserved_names = true) as H by reflexivity.
  rewrite forallb_forall in H. intros Hn. apply Nat.leb_le, H, Hn.
Qed.

Lemma lower_length s : length (lower s) = length s.
Proof. apply length_map. Qed.

Lemma fallback_reserved s :
  needs_folder_fallback s = false -> s <> [] /\ ~ In (lower s) reserved_names.
Proof.
  unfold needs_folder_fallback. intros H. apply orb_false_iff in H as [H1 H2]. split.
  - intros ->. discriminate.
  - intros Hin. assert (existsb (text_eqb (lower s)) reserved_names = true) as E.
    { apply existsb_exists. exists (lower s). split; [exact Hin|].
      unfold text_eqb. apply bool_decide_eq_true. reflexivity. }
    congruence.
Qed.

Lemma not_reserved_fallback s :
  s <> [] -> ~ In (lower s) reserved_names -> needs_folder_fallback s = false.
Proof.
  intros Hne Hin. unfold needs_folder_fallback. apply orb_false_iff. split.
  - destruct s; [contradiction | reflexivity].
  - destruct (existsb (text_eqb (lower s)) reserved_names) eqn:E; [|reflexivity].
    exfalso. apply existsb_exists in E as (r & Hr & E). unfold text_eqb in E.
    apply bool_decide_eq_true in E. subst r. exact (Hin Hr).
Qed.

(** The name of a folder directory, whatever the clock reads. *)
Lemma folder_dir_name_safe d name :
  folder_dir_name d name <> []
  /\ tidy (txt "_ .") (folder_dir_name d name)
  /\ ~ In (lower (folder_dir_name d name)) reserved_names.
Proof.
  unfold folder_dir_name. destruct (needs_folder_fallback (name_core name)) eqn:E.
  - destruct (folder_stamp_tidy d) as [Ht Hl]. split; [|split].
    + intros E'. rewrite E' in Hl. simpl in Hl. lia.
    + exact Ht.
    + intros Hin. apply reserved_short in Hin. rewrite lower_length in Hin. lia.
  - apply fallback_reserved in E as [Hne Hr]. split; [exact Hne|].
    split; [apply name_core_tidy | exact Hr].
Qed.

Lemma template_file_name_safe d title :
  template_file_name d title <> [] /\ tidy (txt "_ .") (template_file_name d title).
Proof.
  unfold template_file_name. destruct (name_core title) as [|c s] eqn:E.
  - destruct (template_stamp_tidy d) as [Ht Hl]. split; [|exact Ht].
    cbn [is_nonempty]. intros E'. rewrite E' in Hl. simpl in Hl. lia.
  - simpl. split; [discriminate|]. rewrite <- E. apply name_core_tidy.
Qed.

Lemma tidy_stays n : n <> [] -> tidy (txt "_ .") n -> ~ escapes n.
Proof.
  intros Hne (Hv & _ & Ht & _) [-> |[-> |[H|H]]].
  - discriminate Ht.
  - discriminate Ht.
  - rewrite Forall_forall in Hv. apply list_elem_of_In, Hv in H. discriminate H.
  - rewrite Forall_forall in Hv. apply list_elem_of_In, Hv in H. discriminate H.
Qed.

(** X1.  [sanitize_folder_name] never raises and changes no file.  The name it
    gives is not empty, has none of the nine invalid characters and no two
    underscores in a row, neither starts nor ends with an underscore, a
    space or a full stop, and is no reserved device name in any case of
    letters; so it is neither [.] nor [..] and has no path separator: the
    directory made from it lies directly under its parent. *)
Theorem sanitize_folder_name_safe (name : text) (w : world) :
  exists n w',
    sanitize_folder_name name w = (Ok n, w')
    /\ fs w' = fs w
    /\ n <> []
    /\ tidy (txt "_ .") n
    /\ ~ escapes n
    /\ ~ In (lower n) reserved_names.
Proof.
  destruct (sanitize_folder_name name w) as [r w'] eqn:E.
  pose proof E as E'. unfold sanitize_folder_name in E'.
  assert (fs w' = fs w) as Hfs.
  { destruct (needs_folder_fallback (name_core name)).
    - unfold bind, now, ret in E'. injection E' as _ <-. reflexivity.
    - unfold ret in E'. injection E' as _ <-. reflexivity. }
  destruct (sanitize_folder_name_steps (fun _ => True) _ _ _ _ E) as [_ [d ->]].
  destruct (folder_dir_name_safe d name) as (Hne & Ht & Hr).
  exists (folder_dir_name d name), w'.
  split; [reflexivity|]. split; [exact Hfs|]. split; [exact Hne|].
  split; [exact Ht|]. split; [apply tidy_stays; assumption | exact Hr].
Qed.

(** X2.  [sanitize_template_filename] never raises and changes no file.  The
    name it gives is not empty, has none of the nine invalid characters and
    no two underscores in a row, and neither starts nor ends with an
    underscore, a space or a full stop; it is neither [.] nor [..] and has
    no path separator.  A reserved device name is kept as it is. *)
Theorem sanitize_template_filename_safe (title : text) (w : world) :
  (exists n w',
      sanitize_template_filename title w = (Ok n, w')
      /\ fs w' = fs w
      /\ n <> []
      /\ tidy (txt "_ .") n
      /\ ~ escapes n)
  /\ sanitize_template_filename (txt "con") w = (Ok (txt "con"), w).
Proof.
  split; [|reflexivity].
  destruct (sanitize_template_filename title w) as [r w'] eqn:E.
  pose proof E as E'. unfold sanitize_template_filename in E'.
  assert (fs w' = fs w) as Hfs.
  { destruct (is_nonempty (name_core title)).
    - unfold ret in E'. injection E' as _ <-. reflexivity.
    - unfold bind, now, ret in E'. injection E' as _ <-. reflexivity. }
  destruct (sanitize_template_filename_steps (fun _ => True) _ _ _ _ E) as [_ [d ->]].
  destruct (template_file_name_safe d title) as (Hne & Ht).
  exists (template_file_name d title), w'.
  split; [reflexivity|]. split; [exact Hfs|]. split; [exact Hne|].
  split; [exact Ht | apply tidy_stays; assumption].
Qed.

(** X3.  A name that a sanitizer of [filesystem.py] has given is left as it is
    by the same sanitizer, which then does not read the clock. *)
Theorem sanitized_names_stable (name n : text) (w w1 : world) :
  (sanitize_folder_name name w = (Ok n, w1) ->
   forall w2, sanitize_folder_name n w2 = (Ok n, w2))
  /\ (sanitize_template_filename name w = (Ok n, w1) ->
      forall w2, sanitize_template_filename n w2 = (Ok n, w2)).
Proof.
  split; intros H w2.
  - destruct (sanitize_folder_name_steps (fun _ => True) _ _ _ _ H) as [_ [d [= ->]]].
    destruct (folder_dir_name_safe d name) as (Hne & Ht & Hr).
    unfold sanitize_folder_name. rewrite (name_core_fix _ Ht).
    rewrite (not_reserved_fallback _ Hne Hr). reflexivity.
  - destruct (sanitize_template_filename_steps (fun _ => True) _ _ _ _ H) as [_ [d [= ->]]].
    destruct (template_file_name_safe d name) as (Hne & Ht).
    unfold sanitize_template_filename. rewrite (name_core_fix _ Ht).
    destruct (template_file_name d name); [contradiction | reflexivity].
Qed.

Lemma sanitized_names_stable_witness :
  sanitize_folder_name (txt "a_b") ex_world = (Ok (txt "a_b"), ex_world)
  /\ sanitize_template_filename (txt "template_20240102_030405") ex_world
     = (Ok (txt "template_20240102_030405"), ex_world).
Proof.
  split.
  - apply (proj1 (sanitized_names_stable (txt "a/b") (txt "a_b") ex_world ex_world)).
    vm_compute. reflexivity.
  - apply (proj2 (sanitized_names_stable (txt "??") (txt "template_20240102_030405")
                    ex_world (tick ex_world))).
    vm_compute. reflexivity.
Defined.

(** ** [sanitize_filename] *)

Lemma sanitized_core_tidy filename : tidy (txt "_ ") (sanitized_core filename).
Proof. apply (strip_rewritten_tidy (txt "_ ")). Qed.

Lemma untitled_tidy : tidy (txt "_ ") (txt "untitled").
Proof. split; [repeat constructor | split; [reflexivity | split; reflexivity]]. Qed.

Lemma single_underscores_take n s :
  single_underscores s = true -> single_underscores (take n s) = true.
Proof.
  intros H. rewrite <- (take_drop n s) in H.
  apply single_underscores_prefix in H. exact H.
Qed.

(** X4.  The name that [sanitize_filename] gives has none of the nine invalid
    characters and no two underscores in a row, and does not start with an
    underscore or a space.  It can end with one: the name is cut to 100
    characters after it has been stripped. *)
Theorem sanitize_filename_clean (filename : text) :
  Forall (fun c => one_of invalid_chars c = false) (sanitize_filename filename)
  /\ single_underscores (sanitize_filename filename) = true
  /\ (forall c, head (sanitize_filename filename) = Some c -> one_of (txt "_ ") c = false)
  /\ last (sanitize_filename (repeat "a" 99 ++ txt "_b")) = Some "_".
Proof.
  assert (exists name, tidy (txt "_ ") name /\ name <> []
            /\ sanitize_filename filename
               = if 100 <? length name then take 100 name else name)
    as (name & (Hv & Hs & Hh & _) & Hne & ->).
  { rewrite sanitize_filename_core. destruct (sanitized_core filename) as [|c s] eqn:E.
    - exists (txt "untitled"). split; [apply untitled_tidy | split; [discriminate | reflexivity]].
    - exists (c :: s). split; [rewrite <- E; apply sanitized_core_tidy|].
      split; [discriminate | reflexivity]. }
  split; [|split; [|split]].
  - destruct (100 <? length name); [apply Forall_take|]; exact Hv.
  - destruct (100 <? length name); [apply single_underscores_take|]; exact Hs.
  - intros c Hc. destruct name as [|a name]; [contradiction|].
    assert (c = a) as -> by (destruct (100 <? length (a :: name)); simpl in Hc; congruence).
    exact Hh.
  - vm_compute. reflexivity.
Qed.

(** X5.  A name that [sanitize_filename] has not cut is left as it is by
    [sanitize_filename]. *)
Theorem sanitize_filename_idempotent (filename : text) :
  length (sanitized_core filename) <= 100 ->
  sanitize_filename (sanitize_filename filename) = sanitize_filename filename.
Proof.
  intros Hlen. rewrite (sanitize_filename_core filename).
  destruct (sanitized_core filename) as [|c s] eqn:E; [vm_compute; reflexivity|].
  cbv zeta. apply Nat.ltb_ge in Hlen. rewrite Hlen.
  rewrite sanitize_filename_core.
  assert (sanitized_core (c :: s) = c :: s) as ->.
  { apply (strip_rewritten_fix (txt "_ ")). rewrite <- E. apply sanitized_core_tidy. }
  cbv zeta. rewrite Hlen. reflexivity.
Qed.

Lemma sanitize_filename_idempotent_witness :
  sanitize_filename (sanitize_filename (txt "a<b> c_")) = sanitize_filename (txt "a<b> c_").
Proof.
  apply (sanitize_filename_idempotent (txt "a<b> c_")). vm_compute. lia.
Defined.

(** * The passes of [markdown_to_text], one construct at a time *)

Lemma scan_skip_prev p m :
  forall prev rest, scan p prev (m ++ rest) (length m) = scan p (before prev m) rest 0.
Proof.
  induction m as [|c m IH]; intros prev rest; [reflexivity|].
  cbn [app length scan]. rewrite IH, before_cons. reflexivity.
Qed.

(** A match at the start of the text, and the scan after it. *)
Lemma scan_hit p prev m rest gs :
  match_items p prev (m ++ rest) [] = Some (gs, rest) -> m <> [] ->
  scan p prev (m ++ rest) 0 = Hit m gs :: scan p (before prev m) rest 0.
Proof.
  intros Hm Hne. destruct m as [|c m]; [contradiction|].
  cbn [app scan]. change (c :: m ++ rest) with ((c :: m) ++ rest) in *. rewrite Hm.
  assert (length ((c :: m) ++ rest) - length rest = S (length m)) as ->.
  { rewrite length_app. simpl. lia. }
  rewrite (take_app_length' (c :: m)) by reflexivity.
  f_equal. change (c :: m ++ rest) with ((c :: m) ++ rest).
  rewrite before_cons. apply (scan_skip_prev p m (Some c) rest).
Qed.

Lemma scan_miss p prev c s :
  match_items p prev (c :: s) [] = None ->
  scan p prev (c :: s) 0 = Keep c :: scan p (Some c) s 0.
Proof. intros Hm. cbn [scan]. rewrite Hm. reflexivity. Qed.

(** A pattern anchored at the start of a line matches nowhere inside a
    line. *)
Lemma match_inside p c s gs :
  c <> NL -> match_items (Bol :: p) (Some c) s gs = None.
Proof.
  intros Hc. cbn [match_items at_bol].
  destruct (Ascii.eqb_spec c NL); [contradiction | reflexivity].
Qed.

Lemma scan_inside p l :
  forall c rest,
    c <> NL -> Forall (fun x => dot x = true) l ->
    scan (Bol :: p) (Some c) (l ++ rest) 0
    = map Keep l ++ scan (Bol :: p) (before (Some c) l) rest 0.
Proof.
  induction l as [|a l IH]; intros c rest Hc Hl; [reflexivity|].
  apply Forall_cons in Hl as [Ha Hl]. cbn [app map].
  rewrite scan_miss by (apply match_inside; exact Hc).
  rewrite IH, before_cons; [reflexivity | | exact Hl].
  intros ->. discriminate.
Qed.

Lemma flat_map_keep repl l : flat_map (piece_sub repl) (map Keep l) = l.
Proof. induction l as [|a l IH]; [reflexivity|]. simpl. rewrite IH. reflexivity. Qed.

Lemma before_line c l : c <> NL -> Forall (fun x => dot x = true) l ->
  exists d, before (Some c) l = Some d /\ d <> NL.
Proof.
  intros Hc Hl. unfold before. destruct (last l) as [d|] eqn:E; [|eauto].
  exists d. split; [reflexivity|]. apply last_Some in E as [l' ->].
  apply Forall_app in Hl as [_ Hl]. apply Forall_cons in Hl as [Hd _].
  intros ->. discriminate.
Qed.

(** The scan at the end of a line goes on at the start of the next one. *)
Lemma scan_line_end p d rest :
  d <> NL ->
  scan (Bol :: p) (Some d) (NL :: rest) 0 = Keep NL :: scan (Bol :: p) None rest 0.
Proof.
  intros Hd. rewrite scan_miss by (apply match_inside; exact Hd). f_equal.
  apply scan_prev. left. reflexivity.
Qed.

(** Substituting a pattern anchored at the start of a line: a line that
    the pattern matches whole is replaced, and the substitution goes on
    with the next line. *)
Lemma re_sub_line_hit p repl m gs rest :
  m <> [] -> Forall (fun x => dot x = true) m ->
  match_items (Bol :: p) None (m ++ NL :: rest) [] = Some (gs, NL :: rest) ->
  re_sub (Bol :: p) repl (m ++ NL :: rest) = repl m gs ++ NL :: re_sub (Bol :: p) repl rest.
Proof.
  intros Hne Hm Hmatch. rewrite !re_sub_pieces, (scan_hit _ _ _ _ _ Hmatch Hne).
  cbn [flat_map piece_sub]. f_equal.
  destruct m as [|c m]; [contradiction|]. apply Forall_cons in Hm as [Hc Hm].
  rewrite before_cons.
  destruct (before_line c m) as (d & -> & Hd); [intros ->; discriminate | exact Hm|].
  rewrite scan_line_end by exact Hd. reflexivity.
Qed.

Lemma re_sub_last_hit p repl m gs :
  m <> [] -> consumes (Bol :: p) ->
  match_items (Bol :: p) None m [] = Some (gs, []) ->
  re_sub (Bol :: p) repl m = repl m gs.
Proof.
  intros Hne Hc Hmatch. rewrite re_sub_pieces.
  rewrite <- (app_nil_r m) in Hmatch |- * at 1.
  rewrite (scan_hit _ _ _ _ _ Hmatch Hne). cbn [flat_map piece_sub scan].
  rewrite (Hc _). simpl. rewrite app_nil_r. reflexivity.
Qed.

(** A line that the pattern does not match at its start is left as it
    is. *)
Lemma re_sub_line_miss p repl l rest :
  Forall (fun x => dot x = true) l ->
  match_items (Bol :: p) None (l ++ NL :: rest) [] = None ->
  re_sub (Bol :: p) repl (l ++ NL :: rest) = l ++ NL :: re_sub (Bol :: p) repl rest.
Proof.
  intros Hl Hmatch. rewrite !re_sub_pieces. destruct l as [|c l].
  - cbn [app] in *. rewrite scan_miss by exact Hmatch. cbn [flat_map piece_sub app].
    f_equal. f_equal. apply scan_prev. left. reflexivity.
  - apply Forall_cons in Hl as [Hc Hl]. cbn [app] in *.
    rewrite scan_miss by exact Hmatch. cbn [flat_map piece_sub app]. f_equal.
    assert (c <> NL) as Hcn by (intros ->; discriminate).
    rewrite scan_inside by assumption. rewrite flat_map_app, flat_map_keep. f_equal.
    destruct (before_line c l Hcn Hl) as (d & -> & Hd).
    rewrite scan_line_end by exact Hd. reflexivity.
Qed.

Lemma is_blank_space ws : is_blank ws = true -> Forall (fun c => is_space c = true) ws.
Proof.
  unfold is_blank. intros H. rewrite forallb_forall in H. apply Forall_forall.
  intros c Hc. apply list_elem_of_In, H, andb_true_iff in Hc as [Hc _]. exact Hc.
Qed.

Lemma match_line_tail lo prev ws a title rest gs :
  is_blank ws = true -> lo <= length ws ->
  is_space a = false -> Forall (fun x => dot x = true) (a :: title) ->
  at_eol rest = true ->
  match_items (line_tail lo) prev (ws ++ (a :: title) ++ rest) gs
  = Some (gs ++ [a :: title], rest).
Proof.
  intros Hws Hlo Ha Ht Heol. unfold line_tail. cbn [match_items].
  apply rep_greedy_take; [apply is_blank_space, Hws | left; exact Ha | exact Hlo | exact I|].
  cbn [close_group]. apply rep_greedy_take; [exact Ht | | simpl; lia | exact I|].
  - left. destruct rest as [|c rest]; [exact I|]. simpl in Heol.
    apply Ascii.eqb_eq in Heol. subst c. reflexivity.
  - cbn [match_items close_group]. rewrite Heol, app_nil_r, rev_involutive. reflexivity.
Qed.

Lemma re_sub_line_start p repl cls rest :
  needs cls (Bol :: p) -> cls NL = false ->
  re_sub (Bol :: p) repl (NL :: rest) = NL :: re_sub (Bol :: p) repl rest.
Proof.
  intros Hn Hc. apply (re_sub_line_miss p repl [] rest); [constructor|].
  apply (match_needs cls); [exact Hn | exact Hc].
Qed.

(** A line that the pattern matches whole, at the end of the text or
    before a line feed. *)
Lemma re_sub_line p repl cls m gs rest :
  needs cls (Bol :: p) -> cls NL = false ->
  m <> [] -> Forall (fun x => dot x = true) m -> at_eol rest = true ->
  match_items (Bol :: p) None (m ++ rest) [] = Some (gs, rest) ->
  re_sub (Bol :: p) repl (m ++ rest) = repl m gs ++ re_sub (Bol :: p) repl rest.
Proof.
  intros Hn Hc Hne Hm Heol Hmatch.
  assert (consumes (Bol :: p)) as Hcons.
  { intros prev. apply (match_needs cls); [exact Hn | exact I]. }
  destruct rest as [|c rest].
  - rewrite app_nil_r in *. rewrite (re_sub_nil _ _ Hcons), app_nil_r.
    apply re_sub_last_hit; assumption.
  - simpl in Heol. apply Ascii.eqb_eq in Heol. subst c.
    rewrite (re_sub_line_start p repl cls rest Hn Hc).
    apply re_sub_line_hit; assumption.
Qed.

Lemma repeat_all {A} (x : A) n (P : A -> Prop) : P x -> Forall P (repeat x n).
Proof. intros H. induction n; simpl; constructor; assumption. Qed.

Lemma dot_blank ws : is_blank ws = true -> Forall (fun x => dot x = true) ws.
Proof.
  unfold is_blank. intros H. rewrite forallb_forall in H. apply Forall_forall.
  intros c Hc. apply list_elem_of_In, H, andb_true_iff in Hc as [_ Hc]. exact Hc.
Qed.

Lemma match_bol p s gs : match_items (Bol :: p) None s gs = match_items p None s gs.
Proof. reflexivity. Qed.

Lemma match_first cls p c s gs :
  cls c = true ->
  match_items (Rep false cls 1 (Some 1) Greedy :: p) None (c :: s) gs
  = match_items p (Some c) s gs.
Proof. intros H. rewrite match_one_step, H. reflexivity. Qed.

(** ** Headers *)

Lemma match_header n ws a title rest :
  1 <= n <= 6 -> is_blank ws = true -> is_space a = false -> a <> "#" ->
  Forall (fun x => dot x = true) (a :: title) -> at_eol rest = true ->
  match_items re_header None ((repeat "#" n ++ ws ++ a :: title) ++ rest) []
  = Some ([a :: title], rest).
Proof.
  intros Hn Hws Ha Hh Ht Heol. unfold re_header. cbn [match_items at_bol].
  rewrite <- !app_assoc.
  apply rep_greedy_take.
  - apply repeat_all. reflexivity.
  - left. destruct ws as [|c ws].
    + simpl. unfold chr. destruct (Ascii.eqb_spec a "#"); [contradiction | reflexivity].
    + simpl. apply is_blank_space in Hws. apply Forall_cons in Hws as [Hc _].
      unfold chr. destruct (Ascii.eqb_spec c "#") as [->|_]; [discriminate | reflexivity].
  - rewrite repeat_length. lia.
  - rewrite repeat_length. lia.
  - cbn [close_group]. apply (match_line_tail 0); try assumption. lia.
Qed.

Lemma match_header_long n ws a title rest :
  6 < n -> is_blank ws = true ->
  Forall (fun x => dot x = true) (a :: title) -> at_eol rest = true ->
  match_items re_header None ((repeat "#" n ++ ws ++ a :: title) ++ rest) []
  = Some (["#" :: repeat "#" (n - 7) ++ ws ++ a :: title], rest).
Proof.
  intros Hn Hws Ht Heol. unfold re_header. cbn [match_items at_bol].
  assert (n = 6 + S (n - 7)) as E by lia. rewrite E at 1.
  rewrite repeat_app, <- !app_assoc. cbn [repeat app].
  apply (rep_greedy_take (chr "#") false _
           ("#" :: repeat "#" (n - 7) ++ ws ++ a :: title ++ rest) _ (txt "######")).
  - repeat constructor.
  - right. reflexivity.
  - simpl. lia.
  - simpl. lia.
  - cbn [close_group].
    pose proof (match_line_tail 0 (before None (txt "######")) [] "#"
                  (repeat "#" (n - 7) ++ ws ++ a :: title) rest []) as H.
    cbn [app] in H. rewrite <- ?app_assoc in H. cbn [app] in H. rewrite <- ?app_assoc in H.
    apply H; [reflexivity | simpl; lia | reflexivity | | exact Heol].
    constructor; [reflexivity|]. apply Forall_app. split; [apply repeat_all; reflexivity|].
    apply Forall_app. split; [apply dot_blank, Hws | exact Ht].
Qed.

(** X6.  The header pass on a header line: one to six hashes, white space and
    a title give the title in upper case; of seven hashes or more, six are
    taken away and the others stay, with what follows them. *)
Theorem header_line_shouted (n : nat) (ws title rest : text) (a : ascii) :
  is_blank ws = true -> is_space a = false -> a <> "#" ->
  Forall (fun x => dot x = true) (a :: title) -> at_eol rest = true ->
  (1 <= n <= 6 ->
   sub_header ((repeat "#" n ++ ws ++ a :: title) ++ rest)
   = upper (a :: title) ++ sub_header rest)
  /\ (6 < n ->
      sub_header ((repeat "#" n ++ ws ++ a :: title) ++ rest)
      = upper (repeat "#" (n - 6) ++ ws ++ a :: title) ++ sub_header rest).
Proof.
  intros Hws Ha Hh Ht Heol.
  assert (Forall (fun x => dot x = true) (repeat "#" n ++ ws ++ a :: title)) as Hline.
  { apply Forall_app. split; [apply repeat_all; reflexivity|].
    apply Forall_app. split; [apply dot_blank, Hws | exact Ht]. }
  split; intros Hn; unfold sub_header, re_header.
  - rewrite (re_sub_line _ _ (chr "#") _ [a :: title]);
      [reflexivity | reflexivity | reflexivity | | exact Hline | exact Heol|].
    + destruct n; [lia | discriminate].
    + apply match_header; assumption.
  - rewrite (re_sub_line _ _ (chr "#") _ ["#" :: repeat "#" (n - 7) ++ ws ++ a :: title]);
      [|reflexivity | reflexivity | | exact Hline | exact Heol|].
    + cbn [group nth pred]. replace (n - 6) with (S (n - 7)) by lia. reflexivity.
    + destruct n; [lia | discriminate].
    + apply match_header_long; assumption.
Qed.

Lemma header_line_shouted_witness :
  sub_header (txt "## Plan" ++ NL :: txt "text") = txt "PLAN" ++ NL :: txt "text"
  /\ sub_header (txt "####### Plan") = txt "# PLAN".
Proof.
  destruct (header_line_shouted 2 (txt " ") (txt "lan") (NL :: txt "text") "P")
    as [H1 _]; try reflexivity; [discriminate | repeat constructor|].
  destruct (header_line_shouted 7 (txt " ") (txt "lan") [] "P")
    as [_ H2]; try reflexivity; [discriminate | repeat constructor|].
  split; [exact (H1 ltac:(lia)) | exact (H2 ltac:(lia))].
Defined.

(** ** Block quotes and list items *)

(** X7.  The block quote pass: a line that starts with [>], white space and a
    text becomes the text between double quotes. *)
Theorem quote_line_quoted (ws title rest : text) (a : ascii) :
  is_blank ws = true -> is_space a = false ->
  Forall (fun x => dot x = true) (a :: title) -> at_eol rest = true ->
  sub_quote ((">" :: ws ++ a :: title) ++ rest)
  = DQUOTE :: (a :: title) ++ DQUOTE :: sub_quote rest.
Proof.
  intros Hws Ha Ht Heol. unfold sub_quote, re_quote.
  rewrite (re_sub_line _ _ (chr ">") _ [a :: title]);
    [|reflexivity | reflexivity | discriminate | | exact Heol|].
  - cbn [group nth pred]. cbn [app]. rewrite <- app_assoc. reflexivity.
  - constructor; [reflexivity|]. apply Forall_app. split; [apply dot_blank, Hws | exact Ht].
  - rewrite match_bol. cbn [app]. unfold Lit. rewrite match_first by reflexivity.
    rewrite <- app_assoc. apply (match_line_tail 0); try assumption. lia.
Qed.

Lemma quote_line_quoted_witness :
  sub_quote (txt "> Stay calm" ++ NL :: txt "and go on")
  = DQUOTE :: txt "Stay calm" ++ DQUOTE :: NL :: txt "and go on".
Proof.
  apply (quote_line_quoted (txt " ") (txt "tay calm") (NL :: txt "and go on") "S");
    [reflexivity | reflexivity | repeat constructor | reflexivity].
Defined.

(** X8.  The list pass: a line that starts with a star, a minus or a plus,
    then white space and a text, becomes a bullet, one space and the text.
    Without white space after the marker the line is no list item. *)
Theorem list_line_bulleted (marker : ascii) (ws title rest : text) (a : ascii) :
  one_of ["*"; "-"; "+"] marker = true ->
  is_blank ws = true -> ws <> [] -> is_space a = false ->
  Forall (fun x => dot x = true) (a :: title) -> at_eol rest = true ->
  sub_ulist ((marker :: ws ++ a :: title) ++ rest)
  = BULLET ++ " " :: (a :: title) ++ sub_ulist rest.
Proof.
  intros Hm Hws Hne Ha Ht Heol. unfold sub_ulist, re_ulist.
  assert (dot marker = true) as Hdm.
  { destruct marker as [[] [] [] [] [] [] [] []]; try discriminate Hm; reflexivity. }
  rewrite (re_sub_line _ _ (one_of ["*"; "-"; "+"]) _ [a :: title]);
    [|reflexivity | reflexivity | discriminate | | exact Heol|].
  - cbn [group nth pred]. rewrite <- !app_assoc. reflexivity.
  - constructor; [exact Hdm|]. apply Forall_app. split; [apply dot_blank, Hws | exact Ht].
  - rewrite match_bol. cbn [app]. unfold One. rewrite match_first by exact Hm.
    rewrite <- app_assoc. apply (match_line_tail 1); try assumption.
    destruct ws; [contradiction | simpl; lia].
Qed.

Lemma list_line_bulleted_witness :
  sub_ulist (txt "- milk" ++ NL :: txt "-eggs") = BULLET ++ txt " milk" ++ NL :: txt "-eggs".
Proof.
  apply (list_line_bulleted "-" (txt " ") (txt "ilk") (NL :: txt "-eggs") "m");
    [reflexivity | reflexivity | discriminate | reflexivity
    | repeat constructor | reflexivity].
Defined.

(** ** Links *)

Lemma match_first_any cls p prev c s gs :
  cls c = true ->
  match_items (Rep false cls 1 (Some 1) Greedy :: p) prev (c :: s) gs
  = match_items p (Some c) s gs.
Proof. intros H. rewrite match_one_step, H. reflexivity. Qed.

Lemma match_link prev label url rest :
  label <> [] -> url <> [] ->
  Forall (fun c => none_of ["]"] c = true) label ->
  Forall (fun c => none_of [")"] c = true) url ->
  match_items re_link prev ("[" :: label ++ "]" :: "(" :: url ++ ")" :: rest) []
  = Some ([label; url], rest).
Proof.
  intros Hl Hu Hlabel Hurl. unfold re_link, Lit.
  rewrite match_first_any by reflexivity. cbn [match_items].
  apply rep_greedy_take; [exact Hlabel | left; reflexivity | | exact I|].
  { destruct label; [contradiction | simpl; lia]. }
  cbn [close_group]. rewrite app_nil_r, rev_involutive.
  change (match_items
            [Rep false (chr "]") 1 (Some 1) Greedy; Rep false (chr "(") 1 (Some 1) Greedy;
             Rep true (none_of [")"]) 1 None Greedy; Rep false (chr ")") 1 (Some 1) Greedy]
            (before (Some "[") label) ("]" :: "(" :: url ++ ")" :: rest) ([] ++ [label])
          = Some ([label; url], rest)).
  rewrite match_first_any by reflexivity. rewrite match_first_any by reflexivity.
  cbn [match_items].
  apply rep_greedy_take; [exact Hurl | left; reflexivity | | exact I|].
  { destruct url; [contradiction | simpl; lia]. }
  cbn [close_group]. rewrite app_nil_r, rev_involutive.
  change (match_items [Rep false (chr ")") 1 (Some 1) Greedy]
            (before (Some "(") url) (")" :: rest) (([] ++ [label]) ++ [url])
          = Some ([label; url], rest)).
  rewrite match_first_any by reflexivity. reflexivity.
Qed.

(** Before the first character that can start a match, a substitution
    changes nothing. *)
Lemma re_sub_skip p repl cls x s :
  bol_free p = true -> needs cls p -> Forall (fun c => cls c = false) x ->
  re_sub p repl (x ++ s) = x ++ re_sub p repl s.
Proof.
  intros Hb Hn. induction 1 as [|c x Hc _ IH]; [reflexivity|].
  cbn [app]. rewrite re_sub_miss; [rewrite IH; reflexivity | exact Hb|].
  apply (match_needs cls); [exact Hn | exact Hc].
Qed.

(** X9.  The link pass: the first link of the text, [[label](url)], becomes
    [label (url)]; the text before it is left as it is and the pass goes
    on after it. *)
Theorem link_rewritten (before_link label url after_link : text) :
  Forall (fun c => chr "[" c = false) before_link ->
  label <> [] -> url <> [] ->
  Forall (fun c => none_of ["]"] c = true) label ->
  Forall (fun c => none_of [")"] c = true) url ->
  sub_link (before_link ++ "[" :: label ++ "]" :: "(" :: url ++ ")" :: after_link)
  = before_link ++ label ++ txt " (" ++ url ++ ")" :: sub_link after_link.
Proof.
  intros Hx Hl Hu Hlabel Hurl. unfold sub_link.
  rewrite (re_sub_skip _ _ (chr "[")); [|reflexivity | reflexivity | exact Hx].
  f_equal.
  rewrite (re_sub_hit re_link _ _ [label; url]
             ("[" :: label ++ "]" :: "(" :: url ++ [")"]) after_link);
    [| reflexivity | apply match_link; assumption | | discriminate].
  - cbn [group nth pred]. rewrite <- !app_assoc. reflexivity.
  - cbn [app]. rewrite <- !app_assoc. cbn [app]. rewrite <- !app_assoc. reflexivity.
Qed.

Lemma link_rewritten_witness :
  sub_link (txt "See [the docs](https://example.org/a_b) now")
  = txt "See the docs (https://example.org/a_b) now".
Proof.
  apply (link_rewritten (txt "See ") (txt "the docs") (txt "https://example.org/a_b")
           (txt " now")); try discriminate; repeat constructor.
Defined.

(** ** The passes that change nothing *)

Lemma ordered_list_idle s : sub_olist s = s.
Proof. unfold sub_olist. apply re_sub_whole. Qed.

(** X10.  The ordered list pass puts back what it has matched: it leaves every
    text as it is, whether it has ordered list lines or not. *)
Theorem ordered_list_pass_idle (s : text) :
  sub_olist s = s
  /\ sub_olist (txt "1. one" ++ NL :: txt "2. two") = txt "1. one" ++ NL :: txt "2. two"
  /\ re_findall re_olist (txt "1. one" ++ NL :: txt "2. two")
     = [(txt "1. one", [txt "one"]); (txt "2. two", [txt "two"])].
Proof. split; [apply ordered_list_idle|]. split; vm_compute; reflexivity. Qed.

(** ** The result as a whole *)

(** X11.  What [markdown_to_text] gives neither starts nor ends with white
    space. *)
Theorem markdown_to_text_trimmed (markdown_content : text) :
  trimmed is_space (markdown_to_text markdown_content)
  /\ strip (markdown_to_text markdown_content) = markdown_to_text markdown_content.
Proof.
  destruct (markdown_to_text_shape markdown_content) as [x ->].
  split; [apply strip_by_trimmed | apply strip_idem].
Qed.

Lemma lacks_absent cls p t :
  needs cls p -> Forall (fun c => cls c = false) t -> lacks p t = true.
Proof.
  intros Hn Ht. unfold lacks, re_findall.
  pose proof (scan_absent cls p t Hn Ht None 0) as H.
  revert H. generalize (scan p None t 0) as ps.
  induction ps as [|x ps IH]; [reflexivity|].
  destruct x; simpl; [exact IH | discriminate].
Qed.

Lemma space_no_marker c :
  is_space c = true ->
  one_of ["#"; "*"; "`"; "_"; "["; ">"; "-"; "+"] c = false.
Proof.
  destruct c as [[] [] [] [] [] [] [] []]; intros H; try discriminate H; reflexivity.
Qed.

Lemma spaces_lack (cls : ascii -> bool) t :
  (forall c, cls c = true -> one_of ["#"; "*"; "`"; "_"; "["; ">"; "-"; "+"] c = true) ->
  Forall (fun c => is_space c = true) t -> Forall (fun c => cls c = false) t.
Proof.
  intros Hcls Ht. eapply Forall_impl; [exact Ht|]. intros c Hc. simpl.
  destruct (cls c) eqn:E; [|reflexivity].
  apply Hcls in E. rewrite (space_no_marker c Hc) in E. discriminate.
Qed.

Lemma blank_clean t : Forall (fun c => is_space c = true) t -> clean t = true.
Proof.
  intros Ht. unfold clean. rewrite !andb_true_iff. repeat split.
  - unfold marker_free. apply forallb_forall. intros c Hc.
    rewrite Forall_forall in Ht. apply list_elem_of_In, Ht in Hc.
    destruct c as [[] [] [] [] [] [] [] []]; try discriminate Hc; reflexivity.
  - apply (lacks_absent (chr "[")); [reflexivity|]. apply spaces_lack; [|exact Ht].
    intros c Hc. unfold chr in Hc. apply Ascii.eqb_eq in Hc. subst c. reflexivity.
  - apply (lacks_absent (chr ">")); [reflexivity|]. apply spaces_lack; [|exact Ht].
    intros c Hc. unfold chr in Hc. apply Ascii.eqb_eq in Hc. subst c. reflexivity.
  - apply (lacks_absent (one_of ["*"; "-"; "+"])); [reflexivity|].
    apply spaces_lack; [|exact Ht].
    intros c Hc. destruct c as [[] [] [] [] [] [] [] []]; try discriminate Hc; reflexivity.
  - apply (lacks_absent (one_of ["-"; "*"; "_"])); [reflexivity|].
    apply spaces_lack; [|exact Ht].
    intros c Hc. destruct c as [[] [] [] [] [] [] [] []]; try discriminate Hc; reflexivity.
Qed.

(** X12.  A content made of white space only gives the empty text, like the
    empty content. *)
Theorem blank_content_gives_empty (markdown_content : text) :
  Forall (fun c => is_space c = true) markdown_content ->
  markdown_to_text markdown_content = [].
Proof.
  intros Hs. rewrite markdown_to_text_passes.
  destruct markdown_content as [|c s] eqn:E; [reflexivity|]. rewrite <- E in *.
  rewrite passes_clean by (apply blank_clean; exact Hs).
  unfold strip, lstrip_by. rewrite drop_while_all; [reflexivity|].
  unfold sub_blank. apply re_sub_Forall; [exact Hs|]. intros w gs. repeat constructor.
Qed.

Lemma blank_content_gives_empty_witness :
  markdown_to_text (txt " " ++ [NL; "009"; NL; NL; " "]) = [].
Proof. apply blank_content_gives_empty. repeat constructor. Defined.

(** X13.  A text with no marker character and no link, block quote, list or
    rule construct, with no run of three line feeds in its white space and
    no white space at either end, is left as it is. *)
Theorem plain_text_unchanged (t : text) :
  clean t = true -> settled t = true -> trimmed is_space t ->
  markdown_to_text t = t.
Proof.
  intros Hc Hs Ht. rewrite markdown_to_text_passes. destruct t as [|c s] eqn:E; [reflexivity|].
  rewrite <- E in *. rewrite passes_clean by exact Hc.
  rewrite settled_fix by exact Hs. apply strip_by_fix. exact Ht.
Qed.

Lemma plain_text_unchanged_witness :
  markdown_to_text (txt "Dear all," ++ NL :: NL :: txt "see you at 5.")
  = txt "Dear all," ++ NL :: NL :: txt "see you at 5.".
Proof.
  apply plain_text_unchanged; [vm_compute; reflexivity | vm_compute; reflexivity|].
  split; reflexivity.
Defined.

(** ** [get_export_stats] *)

Lemma split_on_length sep s :
  length (split_on sep s) = S (length (List.filter (Ascii.eqb sep) s)).
Proof.
  induction s as [|c s IH]; [reflexivity|]. cbn [split_on List.filter].
  rewrite (Ascii.eqb_sym sep c). destruct (Ascii.eqb c sep).
  - simpl. rewrite IH. reflexivity.
  - destruct (split_on sep s) as [|l ls]; [discriminate IH|]. exact IH.
Qed.

Lemma count_words_chars s :
  forall inword, count_words inword s <= length (remove_spaces s).
Proof.
  unfold remove_spaces. induction s as [|c s IH]; intros inword; [simpl; lia|].
  cbn [count_words]. destruct (is_space c) eqn:Hc.
  - specialize (IH false). rewrite filter_cons. destruct (decide (c <> " ")); simpl; lia.
  - specialize (IH true). rewrite filter_cons_True by (intros ->; discriminate).
    destruct inword; simpl; lia.
Qed.

(** X14.  The figures of [get_export_stats] fit together: the lines are one
    more than the line feeds of the content (an empty content has one
    line), the lines that are not empty are among them, every word has a
    character that is no space, and the reading time is one minute at
    least, and the words divided by 200 from 200 words on. *)
Theorem export_stats_consistent (t : Template) :
  let st := get_export_stats t in
  total_lines st = S (length (List.filter (Ascii.eqb NL) (content t)))
  /\ non_empty_lines st <= total_lines st
  /\ words st <= characters_no_spaces st
  /\ characters_no_spaces st <= characters st
  /\ 1 <= estimated_reading_time st
  /\ estimated_reading_time st = (if words st <? 200 then 1 else words st / 200).
Proof.
  cbv zeta. unfold get_export_stats.
  cbn [total_lines non_empty_lines words characters_no_spaces characters
       estimated_reading_time].
  split; [apply split_on_length|]. split; [apply List.filter_length_le|].
  split; [apply count_words_chars|]. split; [apply length_filter|].
  split; [lia|].
  destruct (count_words false (content t) <? 200) eqn:E.
  - apply Nat.ltb_lt in E.
    rewrite (Nat.div_small _ 200) by exact E. reflexivity.
  - apply Nat.ltb_ge in E.
    assert (1 <= count_words false (content t) / 200).
    { apply Nat.div_le_lower_bound; lia. }
    lia.
Qed.

(** ** Fenced code blocks *)

Lemma ordinary_lacks (cls : ascii -> bool) t :
  (forall c, cls c = true -> ordinary c = false) ->
  Forall (fun c => ordinary c = true) t -> Forall (fun c => cls c = false) t.
Proof.
  intros Hcls Ht. eapply Forall_impl; [exact Ht|]. intros c Hc. simpl.
  destruct (cls c) eqn:E; [|reflexivity]. apply Hcls in E. congruence.
Qed.

Lemma chr_not_ordinary m c :
  ordinary m = false -> chr m c = true -> ordinary c = false.
Proof. unfold chr. intros Hm Hc. apply Ascii.eqb_eq in Hc. subst c. exact Hm. Qed.

Lemma span_idle c n s :
  needs (chr c) (re_span c n) -> Forall (fun x => chr c x = false) s ->
  sub_span c n s = s.
Proof. intros Hn Hs. unfold sub_span. apply (re_sub_absent (chr c)); assumption. Qed.

(** A lazy repetition of one character or more takes one character when
    the rest of the pattern matches after it. *)
Lemma rep_lazy_one cls cap (k : cont) c s prev acc gs r :
  cls c = true ->
  k (Some c) s (close_group cap (c :: acc) gs) = Some r ->
  rep cls Lazy cap k 1 None prev (c :: s) acc gs = Some r.
Proof.
  intros Hc Hk. cbn [rep]. rewrite Hc. cbn [andb may_take pred fmap option_fmap option_map].
  destruct s as [|d s]; cbn [rep]; rewrite Hk; reflexivity.
Qed.

(** Three backquotes are an inline code span that holds one backquote:
    the inline code pass leaves one of the three. *)
Lemma code_pass_on_fence rest :
  sub_span "`" 1 ("`" :: "`" :: "`" :: rest) = "`" :: sub_span "`" 1 rest.
Proof.
  unfold sub_span.
  rewrite (re_sub_hit (re_span "`" 1) _ _ [["`"]] (txt "```") rest);
    [reflexivity | reflexivity | | reflexivity | discriminate].
  change (re_span "`" 1)
    with [Rep false (chr "`") 1 (Some 1) Greedy; Rep true dot 1 None Lazy;
          Rep false (chr "`") 1 (Some 1) Greedy].
  rewrite match_first_any by reflexivity. cbn [match_items].
  apply rep_lazy_one; [reflexivity|].
  cbn [close_group rev app].
  change (match_items [Rep false (chr "`") 1 (Some 1) Greedy] (Some "`") ("`" :: rest) [["`"]]
          = Some ([["`"]], rest)).
  rewrite match_first_any by reflexivity. reflexivity.
Qed.

(** A pattern that starts with two [c] matches nowhere in a text without
    two [c] in a row. *)
Lemma match_pair c p prev s gs :
  match s with a :: b :: _ => chr c a && chr c b = false | _ => True end ->
  match_items (Bol :: Lit c :: Lit c :: p) prev s gs = None.
Proof.
  intros H. cbn [match_items]. destruct (at_bol prev); [|reflexivity].
  change (match_items (Lit c :: Lit c :: p) prev s gs = None).
  unfold Lit. rewrite match_one_step. destruct s as [|a s]; [reflexivity|].
  destruct (chr c a) eqn:Ha; [|reflexivity].
  rewrite match_one_step. destruct s as [|b s]; [reflexivity|].
  simpl in H. rewrite H. reflexivity.
Qed.

Lemma scan_no_pair c p s :
  no_pair c s = true ->
  forall prev, forallb (fun x => negb (is_hit x))
                 (scan (Bol :: Lit c :: Lit c :: p) prev s 0) = true.
Proof.
  induction s as [|a s IH]; intros Hs prev.
  - cbn [scan]. rewrite match_pair by exact I. reflexivity.
  - cbn [no_pair] in Hs. apply andb_true_iff in Hs as [Ha Hs].
    rewrite scan_miss.
    + cbn [forallb is_hit negb andb]. apply IH, Hs.
    + apply match_pair. destruct s as [|b s]; [exact I|].
      apply negb_true_iff in Ha. exact Ha.
Qed.

Lemma re_sub_no_pair c p repl s :
  no_pair c s = true -> re_sub (Bol :: Lit c :: Lit c :: p) repl s = s.
Proof.
  intros Hs. rewrite re_sub_pieces.
  rewrite scan_no_hit; [reflexivity | apply scan_no_pair, Hs].
Qed.

Lemma no_pair_absent c t r :
  Forall (fun x => chr c x = false) t -> no_pair c (t ++ r) = no_pair c r.
Proof.
  induction 1 as [|a t Ha _ IH]; [reflexivity|].
  cbn [app no_pair]. rewrite Ha, IH. reflexivity.
Qed.

(** X15.  Three backquotes, a text with none of the eight marker characters and
    three backquotes again, as around a fenced code block: the two fences
    are not deleted.  The inline code pass, which runs first, takes each of
    them for a code span and leaves one backquote, and the pass for the
    fences then finds none. *)
Theorem fenced_block_keeps_backquotes (block : text) :
  Forall (fun c => ordinary c = true) block -> block <> [] -> settled block = true ->
  markdown_to_text (txt "```" ++ block ++ txt "```") = "`" :: block ++ txt "`".
Proof.
  intros Hb Hne Hs.
  assert (forall m, ordinary m = false -> Forall (fun c => chr m c = false) block) as Hchr.
  { intros m Hm. apply ordinary_lacks; [|exact Hb]. intros c. apply chr_not_ordinary, Hm. }
  assert (forall cls, (forall c, cls c = true -> ordinary c = false) -> cls "`" = false ->
            Forall (fun c => cls c = false) (txt "```" ++ block ++ txt "```")) as Hall.
  { intros cls Hcls Hq. repeat (constructor; [exact Hq|]).
    apply Forall_app. split; [apply ordinary_lacks; assumption|].
    repeat (constructor; [exact Hq|]). constructor. }
  assert (forall cls, (forall c, cls c = true -> ordinary c = false) -> cls "`" = false ->
            Forall (fun c => cls c = false) ("`" :: block ++ txt "`")) as Hall2.
  { intros cls Hcls Hq. constructor; [exact Hq|].
    apply Forall_app. split; [apply ordinary_lacks; assumption|].
    constructor; [exact Hq | constructor]. }
  rewrite markdown_to_text_passes. cbn [txt list_ascii_of_string app].
  change ("`" :: "`" :: "`" :: block ++ ["`"; "`"; "`"])
    with (txt "```" ++ block ++ txt "```").
  unfold passes, sub_header, sub_emphasis.
  rewrite (re_sub_absent (chr "#") re_header);
    [|reflexivity | apply Hall; [intros c; apply chr_not_ordinary|]; reflexivity].
  rewrite (span_idle "*" 3), (span_idle "*" 2), (span_idle "*" 1),
    (span_idle "_" 2), (span_idle "_" 1);
    try reflexivity; try (apply Hall; [intros c; apply chr_not_ordinary|]; reflexivity).
  assert (sub_span "`" 1 (txt "```" ++ block ++ txt "```") = "`" :: block ++ txt "`") as ->.
  { cbn [txt list_ascii_of_string app]. rewrite code_pass_on_fence. f_equal.
    unfold sub_span at 1.
    rewrite (re_sub_skip _ _ (chr "`")); [|reflexivity | reflexivity | apply Hchr; reflexivity].
    fold (sub_span "`" 1 ["`"; "`"; "`"]). rewrite code_pass_on_fence. reflexivity. }
  assert (sub_fences ("`" :: block ++ txt "`") = "`" :: block ++ txt "`") as ->.
  { assert (no_pair "`" ("`" :: block ++ txt "`") = true) as Hp.
    { cbn [no_pair]. rewrite no_pair_absent by (apply Hchr; reflexivity).
      destruct block as [|b block]; [contradiction|].
      apply Forall_cons in Hb as [Hb0 _]. cbn [app].
      destruct b as [[] [] [] [] [] [] [] []]; try discriminate Hb0; reflexivity. }
    unfold sub_fences, re_fence_open, re_fence_close.
    rewrite (re_sub_no_pair "`" _ _ ("`" :: block ++ txt "`") Hp).
    apply (re_sub_no_pair "`"). exact Hp. }
  unfold sub_link.
  rewrite (re_sub_absent (chr "[") re_link);
    [|reflexivity | apply Hall2; [intros c; apply chr_not_ordinary|]; reflexivity].
  unfold sub_quote.
  rewrite (re_sub_absent (chr ">") re_quote);
    [|reflexivity | apply Hall2; [intros c; apply chr_not_ordinary|]; reflexivity].
  unfold sub_ulist.
  rewrite (re_sub_absent (one_of ["*"; "-"; "+"]) re_ulist);
    [|reflexivity | apply Hall2; [|reflexivity]].
  2: { intros c Hc. destruct c as [[] [] [] [] [] [] [] []]; try discriminate Hc; reflexivity. }
  rewrite ordered_list_idle.
  unfold sub_rule.
  rewrite (re_sub_absent (one_of ["-"; "*"; "_"]) re_rule);
    [|reflexivity | apply Hall2; [|reflexivity]].
  2: { intros c Hc. destruct c as [[] [] [] [] [] [] [] []]; try discriminate Hc; reflexivity. }
  assert (sub_blank ("`" :: block ++ txt "`") = "`" :: block ++ txt "`") as ->.
  { change ("`" :: block ++ txt "`") with (["`"] ++ block ++ ["`"]).
    rewrite app_assoc, sub_blank_snoc by reflexivity.
    pose proof (sub_blank_split [] "`" block eq_refl) as Hq.
    cbn [app] in Hq |- *. rewrite Hq, (settled_fix block) by exact Hs. reflexivity. }
  apply strip_by_fix. split; [reflexivity|].
  change ("`" :: block ++ ["`"]) with (("`" :: block) ++ ["`"]).
  rewrite rev_app_distr. reflexivity.
Qed.

Lemma fenced_block_keeps_backquotes_witness :
  markdown_to_text (txt "```python" ++ NL :: txt "print(1)" ++ NL :: txt "```")
  = txt "`python" ++ NL :: txt "print(1)" ++ NL :: txt "`".
Proof.
  apply (fenced_block_keeps_backquotes (txt "python" ++ NL :: txt "print(1)" ++ [NL]));
    [repeat constructor | discriminate | reflexivity].
Defined.

(** * Single operations on the disk *)

Lemma touches_refl D w : touches D w w.
Proof. repeat split. intros q. right. reflexivity. Qed.

Lemma touches_trans D w1 w2 w3 : touches D w1 w2 -> touches D w2 w3 -> touches D w1 w3.
Proof.
  intros (Hh1 & Hc1 & Hd1 & H1) (Hh2 & Hc2 & Hd2 & H2).
  split; [congruence|]. split; [congruence|]. split; [congruence|].
  intros q. destruct (H1 q) as [?|E1]; [left; assumption|].
  destruct (H2 q) as [?|E2]; [left; assumption|]. right. congruence.
Qed.

Lemma touches_mono (D D' : path -> Prop) w w' :
  (forall q, D q -> D' q) -> touches D w w' -> touches D' w w'.
Proof.
  intros HD (Hh & Hc & Hd & H). repeat split; try assumption.
  intros q. destruct (H q) as [?|?]; [left; apply HD; assumption | right; assumption].
Qed.

Lemma touches_tick D w : touches D w (tick w).
Proof. repeat split. intros q. right. reflexivity. Qed.

Lemma touches_insert D w p n : D p -> touches D w (with_fs w (<[p := n]> (fs w))).
Proof.
  intros Hp. repeat split. intros q. simpl.
  destruct (decide (p = q)) as [<-|Hne]; [left; exact Hp|].
  right. apply lookup_insert_ne. exact Hne.
Qed.

Lemma touches_delete D w p : D p -> touches D w (with_fs w (delete p (fs w))).
Proof.
  intros Hp. repeat split. intros q. simpl.
  destruct (decide (p = q)) as [<-|Hne]; [left; exact Hp|].
  right. apply lookup_delete_ne. exact Hne.
Qed.

Lemma parent_snoc (p : path) (x : text) : parent (p ++ [x]) = p.
Proof. apply removelast_last. Qed.

Lemma node_at_snoc w (p : path) (x : text) : node_at w (p ++ [x]) = fs w !! (p ++ [x]).
Proof. destruct p; reflexivity. Qed.

Lemma is_dir_node w p : is_dir w p = true <-> node_at w p = Some Dir.
Proof.
  unfold is_dir. destruct (node_at w p) as [[|d]|]; split; intros H;
    try reflexivity; discriminate.
Qed.

Lemma touches_node D w w' q : touches D w w' -> ~ D q -> node_at w' q = node_at w q.
Proof.
  intros (_ & _ & _ & H) Hq. destruct (H q) as [?|E]; [contradiction|].
  destruct q; [reflexivity | exact E].
Qed.

(** ** [mkdir] *)

Lemma os_mkdir_run p w :
  os_mkdir p w =
  match node_at w (parent p) with
  | None => (Raise FileNotFoundError, w)
  | Some (File _) => (Raise NotADirectoryError, w)
  | Some Dir =>
      match node_at w p with
      | Some _ => (Raise FileExistsError, w)
      | None =>
          if denied w p then (Raise PermissionError, w)
          else (Ok tt, with_fs w (<[p := Dir]> (fs w)))
      end
  end.
Proof. reflexivity. Qed.

(** Making a directory under a directory: it is made when the path is
    free, and left as it is when it is there. *)
Lemma mkdir_exist_ok_under p w :
  node_at w (parent p) = Some Dir ->
  node_at w p = Some Dir \/ (node_at w p = None /\ denied w p = false) ->
  exists w', mkdir_exist_ok p w = (Ok tt, w')
             /\ is_dir w' p = true /\ touches (eq p) w w'.
Proof.
  intros Hpar Hp. unfold mkdir_exist_ok. rewrite os_mkdir_run, Hpar.
  destruct Hp as [Hp|[Hp Hd]]; rewrite Hp.
  - exists w. assert (is_dir w p = true) as Hdir by (apply is_dir_node, Hp).
    rewrite Hdir. split; [reflexivity|]. split; [reflexivity | apply touches_refl].
  - rewrite Hd. eexists. split; [reflexivity|]. split.
    + apply is_dir_node. destruct p as [|c p]; [reflexivity|]. simpl.
      apply lookup_insert_eq.
    + apply touches_insert. reflexivity.
Qed.

Lemma mkdir_parents_rev_under rp w :
  node_at w (parent (rev rp)) = Some Dir ->
  node_at w (rev rp) = Some Dir \/ (node_at w (rev rp) = None /\ denied w (rev rp) = false) ->
  mkdir_parents_rev rp w = mkdir_exist_ok (rev rp) w.
Proof.
  intros Hpar Hp. destruct rp as [|x rp]; unfold mkdir_exist_ok;
    cbn [mkdir_parents_rev]; rewrite os_mkdir_run, Hpar;
    destruct Hp as [Hp|[Hp Hd]]; rewrite Hp; try rewrite Hd; reflexivity.
Qed.

(** [mkdir(parents=True, exist_ok=True)] succeeds when nothing is in the
    way; the directory and its parent are directories afterwards, and only
    paths that lead to it have changed. *)
Lemma mkdir_parents_rev_clear rp :
  forall w, clear_to w (rev rp) ->
    exists w', mkdir_parents_rev rp w = (Ok tt, w')
               /\ is_dir w' (rev rp) = true
               /\ is_dir w' (parent (rev rp)) = true
               /\ touches (fun q => q `prefix_of` rev rp) w w'.
Proof.
  induction rp as [|x rp IH]; intros w Hclear.
  - exists w. split; [reflexivity|]. repeat split; try reflexivity.
    intros q. right. reflexivity.
  - set (p := rev (x :: rp)) in *.
    assert (parent p = rev rp) as Hparent by (unfold p; simpl; apply parent_snoc).
    assert (rev rp `prefix_of` p) as Hpre by (unfold p; simpl; apply prefix_app_r; reflexivity).
    assert (p <> rev rp) as Hne.
    { unfold p. simpl. intros E. apply (f_equal length) in E.
      rewrite length_app in E. simpl in E. lia. }
    destruct (Hclear (rev rp) Hpre) as [Hpar|[Hpar Hparden]].
    + (* the parent is there *)
      rewrite mkdir_parents_rev_under;
        [|fold p; rewrite Hparent; exact Hpar | apply Hclear; reflexivity].
      fold p. destruct (mkdir_exist_ok_under p w) as (w' & Hrun & Hdir & Ht).
      { rewrite Hparent. exact Hpar. }
      { apply Hclear. reflexivity. }
      exists w'. split; [exact Hrun|]. split; [exact Hdir|]. split.
      * rewrite Hparent. apply is_dir_node.
        rewrite (touches_node _ _ _ (rev rp) Ht) by exact Hne. exact Hpar.
      * eapply touches_mono; [|exact Ht]. intros q <-. reflexivity.
    + (* the parent is made first *)
      cbn [mkdir_parents_rev]. fold p. rewrite os_mkdir_run, Hparent, Hpar.
      destruct (IH w) as (w1 & Hrun1 & Hdir1 & _ & Ht1).
      { intros q Hq. apply Hclear. etransitivity; [exact Hq | exact Hpre]. }
      unfold bind. rewrite Hrun1.
      assert (node_at w1 p = node_at w p) as Hsame.
      { apply (touches_node _ _ _ p Ht1). intros Hq. apply Hne.
        apply prefix_length_eq; [exact Hq|]. apply prefix_length. exact Hpre. }
      destruct (mkdir_exist_ok_under p w1) as (w' & Hrun & Hdir & Ht).
      { rewrite Hparent. apply is_dir_node. exact Hdir1. }
      { rewrite Hsame. destruct Ht1 as (_ & _ & -> & _). apply Hclear. reflexivity. }
      exists w'. split; [exact Hrun|]. split; [exact Hdir|]. split.
      * rewrite ?Hparent. apply is_dir_node.
        rewrite (touches_node _ _ _ (rev rp) Ht) by exact Hne.
        apply is_dir_node. exact Hdir1.
      * eapply touches_trans.
        -- eapply touches_mono; [|exact Ht1]. intros q Hq.
           etransitivity; [exact Hq | exact Hpre].
        -- eapply touches_mono; [|exact Ht]. intros q <-. reflexivity.
Qed.

Lemma mkdir_parents_clear p w :
  clear_to w p ->
  exists w', mkdir_parents p w = (Ok tt, w')
             /\ is_dir w' p = true
             /\ is_dir w' (parent p) = true
             /\ touches (fun q => q `prefix_of` p) w w'.
Proof.
  intros H. unfold mkdir_parents.
  destruct (mkdir_parents_rev_clear (rev p) w) as (w' & Hrun & H1 & H2 & H3).
  { rewrite rev_involutive. exact H. }
  rewrite rev_involutive in *. eauto.
Qed.

(** A directory that is there, with its parent, is left as it is. *)
Lemma mkdir_parents_there p w :
  is_dir w p = true -> is_dir w (parent p) = true ->
  mkdir_parents p w = (Ok tt, w).
Proof.
  intros Hp Hpar. apply is_dir_node in Hp. apply is_dir_node in Hpar.
  unfold mkdir_parents. rewrite mkdir_parents_rev_under; rewrite rev_involutive; auto.
  unfold mkdir_exist_ok. rewrite os_mkdir_run, Hpar, Hp.
  assert (is_dir w p = true) as -> by (apply is_dir_node, Hp). reflexivity.
Qed.

(** ** The templates directory *)

Lemma templates_dir_touches D w w' : touches D w w' -> templates_dir w' = templates_dir w.
Proof. intros (Hh & _). unfold templates_dir. rewrite Hh. reflexivity. Qed.

(** X16.  [get_user_templates_dir] succeeds when nothing is in the way of the
    templates directory: it gives the path [Prompt_Editor/templates] under
    the home directory, which is a directory afterwards; only paths that
    lead to it have changed, what was on the disk is still there, and a
    second call changes nothing. *)
Theorem get_user_templates_dir_ready (w : world) :
  clear_to w (templates_dir w) ->
  exists w',
    get_user_templates_dir w = (Ok (templates_dir w), w')
    /\ is_dir w' (templates_dir w) = true
    /\ touches (fun q => q `prefix_of` templates_dir w) w w'
    /\ keeps w w'
    /\ get_user_templates_dir w' = (Ok (templates_dir w), w').
Proof.
  intros Hclear.
  destruct (mkdir_parents_clear _ _ Hclear) as (w' & Hrun & Hdir & Hpar & Ht).
  assert (get_user_templates_dir w = (Ok (templates_dir w), w')) as E.
  { unfold get_user_templates_dir, bind. rewrite Hrun. reflexivity. }
  exists w'. split; [exact E|]. split; [exact Hdir|]. split; [exact Ht|]. split.
  - apply get_user_templates_dir_steps in E as [Hs _].
    eapply steps_keeps. exact Hs.
  - unfold get_user_templates_dir, bind.
    rewrite (templates_dir_touches _ _ _ Ht).
    rewrite mkdir_parents_there by assumption. reflexivity.
Qed.

Lemma get_user_templates_dir_ready_witness :
  exists w',
    get_user_templates_dir ex_world = (Ok [txt "home"; txt "user"; txt "Prompt_Editor"; txt "templates"], w')
    /\ is_dir w' [txt "home"; txt "user"; txt "Prompt_Editor"; txt "templates"] = true.
Proof.
  destruct (get_user_templates_dir_ready ex_world) as (w' & H1 & H2 & _).
  - intros q _. destruct q; [left; reflexivity | right; split; reflexivity].
  - exists w'. split; [exact H1 | exact H2].
Defined.

(** ** [create_folder_on_disk] *)

(** X17.  Under a directory [parent_path], and for a name that needs no name from
    the clock, [create_folder_on_disk] makes the one directory
    [parent_path/name] when the path is free, leaves the disk as it is when
    the directory is there, and raises [FileExistsError] when a file bears
    the name. *)
Theorem create_folder_on_disk_under (folder_name : text) (parent_path : path) (w : world) :
  is_dir w parent_path = true ->
  needs_folder_fallback (name_core folder_name) = false ->
  create_folder_on_disk folder_name (Some parent_path) w =
  let p := parent_path ++ [name_core folder_name] in
  match node_at w p with
  | Some Dir => (Ok p, w)
  | Some (File _) => (Raise FileExistsError, w)
  | None =>
      if denied w p then (Raise PermissionError, w)
      else (Ok p, with_fs w (<[p := Dir]> (fs w)))
  end.
Proof.
  intros Hpar Hfb. apply is_dir_node in Hpar.
  unfold create_folder_on_disk, get_folder_path, sanitize_folder_name.
  rewrite Hfb. cbn [default_dir]. unfold bind at 1 2 3. unfold ret at 1 2 3.
  cbv zeta. set (p := parent_path ++ [name_core folder_name]).
  unfold bind, mkdir_parents. unfold p at 1. rewrite rev_app_distr.
  cbn [rev app mkdir_parents_rev]. rewrite rev_involutive. fold p.
  rewrite os_mkdir_run. unfold p at 1. rewrite parent_snoc, Hpar. fold p.
  unfold is_dir. destruct (node_at w p) as [[|data]|] eqn:Hp.
  - rewrite Hp. reflexivity.
  - rewrite Hp. reflexivity.
  - destruct (denied w p); [rewrite Hp|]; reflexivity.
Qed.

Lemma create_folder_on_disk_under_witness :
  create_folder_on_disk (txt "My: notes") (Some []) ex_world
  = (Ok [txt "My_ notes"], with_fs ex_world (<[ [txt "My_ notes"] := Dir ]> (fs ex_world))).
Proof.
  rewrite (create_folder_on_disk_under (txt "My: notes") [] ex_world);
    [|reflexivity | vm_compute; reflexivity].
  reflexivity.
Defined.

(** ** [save_template_to_disk] and [delete_template_from_disk] *)

Lemma sanitize_template_filename_run title w :
  sanitize_template_filename title w
  = (Ok (template_file_name (clock w (ticks w)) title), after_name title w).
Proof.
  unfold sanitize_template_filename, template_file_name, after_name.
  destruct (is_nonempty (name_core title)); reflexivity.
Qed.

Lemma write_text_run p data w :
  write_text p data w =
  match node_at w (parent p) with
  | None => (Raise FileNotFoundError, w)
  | Some (File _) => (Raise NotADirectoryError, w)
  | Some Dir =>
      match node_at w p with
      | Some Dir => (Raise IsADirectoryError, w)
      | _ =>
          if denied w p then (Raise PermissionError, w)
          else (Ok tt, with_fs w (<[p := File data]> (fs w)))
      end
  end.
Proof. reflexivity. Qed.

(** A run of [save_template_to_disk] in a given folder: one write, after
    the clock has been read. *)
Lemma save_template_to_disk_run title content dir w :
  save_template_to_disk title content (Some dir) w =
  let w1 := after_name title w in
  let p := dir ++ [template_file_name (clock w (ticks w)) title ++ txt ".md"] in
  match write_text p (disk_metadata (clock w1 (ticks w1)) title ++ content) (tick w1) with
  | (Ok _, w') => (Ok p, w')
  | (Raise e, w') => (Raise e, w')
  end.
Proof.
  unfold save_template_to_disk. cbn [default_dir]. unfold bind at 1. unfold ret at 1.
  unfold bind at 1. rewrite sanitize_template_filename_run.
  unfold bind at 1. unfold now at 1. unfold bind, ret. cbv zeta.
  destruct (write_text _ _ _) as [[u|e] w']; reflexivity.
Qed.

Lemma after_name_fs title w :
  fs (after_name title w) = fs w /\ denied (after_name title w) = denied w.
Proof. unfold after_name. destruct (is_nonempty (name_core title)); split; reflexivity. Qed.

Lemma node_at_fs w w' p : fs w' = fs w -> node_at w' p = node_at w p.
Proof. intros E. unfold node_at. rewrite E. reflexivity. Qed.

(** What a save that succeeds has done. *)
Lemma save_template_to_disk_ok title content dir w p w' :
  save_template_to_disk title content (Some dir) w = (Ok p, w') ->
  is_dir w dir = true
  /\ p = dir ++ [template_file_name (clock w (ticks w)) title ++ txt ".md"]
  /\ denied w p = false /\ denied w' = denied w
  /\ (is_nonempty (name_core title) = true -> clock w' = clock w /\ ticks w' = S (ticks w))
  /\ exists d', fs w' = <[p := File (disk_metadata d' title ++ content)]> (fs w).
Proof.
  rewrite save_template_to_disk_run. cbv zeta.
  set (w1 := after_name title w).
  set (q := dir ++ [template_file_name (clock w (ticks w)) title ++ txt ".md"]).
  rewrite write_text_run. unfold q at 1. rewrite parent_snoc. fold q.
  assert (fs (tick w1) = fs w /\ denied (tick w1) = denied w) as [Hfs Hden]
    by apply (after_name_fs title w).
  rewrite !(node_at_fs w (tick w1)) by exact Hfs.
  destruct (node_at w dir) as [[|x]|] eqn:Hdir; try discriminate.
  rewrite Hden.
  assert (forall (r : result unit * world),
             (if denied w q then (Raise PermissionError, tick w1)
              else (Ok tt, with_fs (tick w1)
                             (<[q := File (disk_metadata (clock w1 (ticks w1)) title ++ content)]>
                                (fs (tick w1))))) = r ->
             match r with (Ok _, w2) => (Ok q, w2) | (Raise e, w2) => (Raise e, w2) end
             = (Ok p, w') ->
             q = p /\ denied w q = false
             /\ w' = with_fs (tick w1)
                       (<[q := File (disk_metadata (clock w1 (ticks w1)) title ++ content)]>
                          (fs (tick w1))))
    as Hw.
  { intros r <-. destruct (denied w q); [discriminate|].
    intros [= <- <-]. auto. }
  intros H. split; [apply is_dir_node; exact Hdir|].
  assert (q = p /\ denied w q = false
          /\ w' = with_fs (tick w1)
                    (<[q := File (disk_metadata (clock w1 (ticks w1)) title ++ content)]>
                       (fs (tick w1))))
    as (<- & Hd & ->).
  { destruct (node_at w q) as [[|x]|]; [discriminate | |]; eapply Hw; try reflexivity; exact H. }
  split; [reflexivity|]. split; [exact Hd|]. split; [exact Hden|]. split.
  - intros Hn. unfold w1, after_name. rewrite Hn. split; reflexivity.
  - eexists. simpl. simpl in Hfs. rewrite Hfs. reflexivity.
Qed.

(** X18.  A save that succeeds has written one file in the folder it was given,
    which was a directory: the file is named by the sanitized title and
    holds the two header fields, a blank line and the raw content, in the
    place of whatever file was there; nothing else on the disk has
    changed. *)
Theorem save_template_to_disk_writes
    (title content : text) (dir : path) (w w' : world) (p : path) :
  save_template_to_disk title content (Some dir) w = (Ok p, w') ->
  is_dir w dir = true
  /\ exists d d',
       p = dir ++ [template_file_name d title ++ txt ".md"]
       /\ fs w' = <[p := File (disk_metadata d' title ++ content)]> (fs w).
Proof.
  intros H. apply save_template_to_disk_ok in H as (Hdir & Hp & _ & _ & _ & d' & Hfs).
  split; [exact Hdir|]. eauto.
Qed.

Lemma save_template_to_disk_writes_witness :
  exists d',
    fs (snd (save_template_to_disk (txt "Plan: A") (txt "# x") (Some []) ex_world))
    = <[ [txt "Plan_ A.md"] := File (disk_metadata d' (txt "Plan: A") ++ txt "# x") ]> ∅.
Proof.
  destruct (save_template_to_disk_writes (txt "Plan: A") (txt "# x") [] ex_world
              (snd (save_template_to_disk (txt "Plan: A") (txt "# x") (Some []) ex_world))
              [txt "Plan_ A.md"])
    as (_ & d & d' & _ & E).
  - apply run_eq. vm_compute. reflexivity.
  - exists d'. exact E.
Defined.

(** X19.  A save in a folder that is no directory raises, and nothing is made:
    the folder is not created. *)
Theorem save_template_needs_folder (title content : text) (dir : path) (w : world) :
  is_dir w dir = false ->
  exists e w',
    save_template_to_disk title content (Some dir) w = (Raise e, w')
    /\ (e = FileNotFoundError \/ e = NotADirectoryError)
    /\ fs w' = fs w.
Proof.
  intros Hdir. rewrite save_template_to_disk_run. cbv zeta.
  rewrite write_text_run, parent_snoc.
  assert (fs (tick (after_name title w)) = fs w) as Hfs by apply (after_name_fs title w).
  rewrite (node_at_fs w (tick (after_name title w)) dir) by exact Hfs.
  unfold is_dir in Hdir. destruct (node_at w dir) as [[|x]|]; [discriminate | |].
  - eexists _, _. split; [reflexivity|]. split; [right; reflexivity | exact Hfs].
  - eexists _, _. split; [reflexivity|]. split; [left; reflexivity | exact Hfs].
Qed.

Lemma save_template_needs_folder_witness :
  exists e w',
    save_template_to_disk (txt "T") (txt "x") (Some [txt "missing"]) ex_world = (Raise e, w')
    /\ fs w' = fs ex_world.
Proof.
  destruct (save_template_needs_folder (txt "T") (txt "x") [txt "missing"] ex_world)
    as (e & w' & H & _ & Hfs); [reflexivity|].
  exists e, w'. split; [exact H | exact Hfs].
Defined.

Lemma template_file_name_core d title :
  name_core title <> [] -> template_file_name d title = name_core title.
Proof.
  intros H. unfold template_file_name. destruct (name_core title); [contradiction | reflexivity].
Qed.

Lemma is_nonempty_core title : name_core title <> [] -> is_nonempty (name_core title) = true.
Proof. destruct (name_core title); [contradiction | reflexivity]. Qed.

(** X20.  Two titles that sanitize to the same name are one file of the folder:
    the second save replaces what the first has written. *)
Theorem same_name_overwrites
    (title1 content1 title2 content2 : text) (dir : path) (w w1 w2 : world) (p1 p2 : path) :
  name_core title1 = name_core title2 -> name_core title1 <> [] ->
  save_template_to_disk title1 content1 (Some dir) w = (Ok p1, w1) ->
  save_template_to_disk title2 content2 (Some dir) w1 = (Ok p2, w2) ->
  p2 = p1
  /\ exists d, fs w2 = <[p1 := File (disk_metadata d title2 ++ content2)]> (fs w).
Proof.
  intros Hsame Hne H1 H2.
  apply save_template_to_disk_ok in H1 as (_ & Hp1 & _ & _ & _ & d1 & Hfs1).
  apply save_template_to_disk_ok in H2 as (_ & Hp2 & _ & _ & _ & d2 & Hfs2).
  rewrite template_file_name_core in Hp1 by exact Hne.
  rewrite template_file_name_core in Hp2 by (rewrite <- Hsame; exact Hne).
  assert (p2 = p1) as -> by (rewrite Hp1, Hp2, Hsame; reflexivity).
  split; [reflexivity|]. exists d2. rewrite Hfs2, Hfs1. apply insert_insert_eq.
Qed.

Lemma same_name_overwrites_witness :
  exists d,
    fs (snd (save_template_to_disk (txt "a:b") (txt "second") (Some [])
               (snd (save_template_to_disk (txt "a/b") (txt "first") (Some []) ex_world))))
    = <[ [txt "a_b.md"] := File (disk_metadata d (txt "a:b") ++ txt "second") ]> ∅.
Proof.
  destruct (same_name_overwrites (txt "a/b") (txt "first") (txt "a:b") (txt "second") []
              ex_world
              (snd (save_template_to_disk (txt "a/b") (txt "first") (Some []) ex_world))
              (snd (save_template_to_disk (txt "a:b") (txt "second") (Some [])
                      (snd (save_template_to_disk (txt "a/b") (txt "first") (Some []) ex_world))))
              [txt "a_b.md"] [txt "a_b.md"])
    as [_ H].
  - vm_compute. reflexivity.
  - vm_compute. discriminate.
  - apply run_eq. vm_compute. reflexivity.
  - apply run_eq. vm_compute. reflexivity.
  - exact H.
Defined.

(** A run of [delete_template_from_disk] in a given folder. *)
Lemma delete_template_from_disk_run title dir w :
  delete_template_from_disk title (Some dir) w =
  let w1 := after_name title w in
  let p := dir ++ [template_file_name (clock w (ticks w)) title ++ txt ".md"] in
  match node_at w1 p with
  | Some _ =>
      match unlink p w1 with
      | (Ok _, w') => (Ok true, w')
      | (Raise e, w') => (Raise e, w')
      end
  | None => (Ok false, w1)
  end.
Proof.
  unfold delete_template_from_disk. cbn [default_dir]. unfold bind at 1. unfold ret at 1.
  unfold bind at 1. rewrite sanitize_template_filename_run.
  unfold bind at 1. unfold path_exists. cbv zeta.
  destruct (node_at (after_name title w) _) as [n|]; [|reflexivity].
  unfold bind, ret. destruct (unlink _ _) as [[u|e] w']; reflexivity.
Qed.

(** X21.  Deleting what has been saved, under a title that does not sanitize to
    the empty name: the file is found and removed, and the disk is as it
    was before the save, but for the file that the save replaced. *)
Theorem save_then_delete (title content : text) (dir : path) (w w1 : world) (p : path) :
  name_core title <> [] ->
  save_template_to_disk title content (Some dir) w = (Ok p, w1) ->
  exists w2,
    delete_template_from_disk title (Some dir) w1 = (Ok true, w2)
    /\ fs w2 = delete p (fs w)
    /\ (fs w !! p = None -> fs w2 = fs w).
Proof.
  intros Hne H.
  apply save_template_to_disk_ok in H as (_ & Hp & Hden & Hden1 & _ & d' & Hfs).
  rewrite template_file_name_core in Hp by exact Hne.
  rewrite delete_template_from_disk_run. cbv zeta.
  rewrite template_file_name_core by exact Hne. rewrite <- Hp.
  unfold after_name. rewrite is_nonempty_core by exact Hne.
  assert (node_at w1 p = Some (File (disk_metadata d' title ++ content))) as Hnode.
  { rewrite Hp, node_at_snoc, <- Hp, Hfs. apply lookup_insert_eq. }
  rewrite Hnode. unfold unlink. rewrite Hnode, Hden1, Hden.
  eexists. split; [reflexivity|]. simpl. rewrite Hfs, delete_insert_eq.
  split; [reflexivity | apply delete_id].
Qed.

Lemma save_then_delete_witness :
  exists w2,
    delete_template_from_disk (txt "T") (Some [])
      (snd (save_template_to_disk (txt "T") (txt "x") (Some []) ex_world)) = (Ok true, w2)
    /\ fs w2 = fs ex_world.
Proof.
  destruct (save_then_delete (txt "T") (txt "x") [] ex_world
              (snd (save_template_to_disk (txt "T") (txt "x") (Some []) ex_world))
              [txt "T.md"])
    as (w2 & H1 & _ & H3).
  - vm_compute. discriminate.
  - apply run_eq. vm_compute. reflexivity.
  - exists w2. split; [exact H1 | apply H3; reflexivity].
Defined.

(** X22.  A title that sanitizes to the empty name is saved under a name made
    from the clock, and deleted under the name that the clock gives then:
    when no file bears that later name, the delete finds nothing, reports
    [False], and the saved file stays on the disk. *)
Theorem clock_named_file_orphaned
    (title content : text) (dir : path) (w w1 : world) (p : path) :
  name_core title = [] ->
  save_template_to_disk title content (Some dir) w = (Ok p, w1) ->
  fs w1 !! (dir ++ [template_file_name (clock w1 (ticks w1)) title ++ txt ".md"]) = None ->
  exists w2,
    delete_template_from_disk title (Some dir) w1 = (Ok false, w2)
    /\ fs w2 = fs w1
    /\ exists data, fs w2 !! p = Some (File data).
Proof.
  intros Hcore H Hfree.
  apply save_template_to_disk_ok in H as (_ & Hp & _ & _ & _ & d' & Hfs).
  rewrite delete_template_from_disk_run. cbv zeta.
  assert (fs (after_name title w1) = fs w1) as Hafter by apply after_name_fs.
  rewrite (node_at_fs w1 (after_name title w1)) by exact Hafter.
  rewrite node_at_snoc, Hfree.
  eexists. split; [reflexivity|]. split; [exact Hafter|].
  rewrite Hafter, Hfs. eexists. apply lookup_insert_eq.
Qed.

Lemma clock_named_file_orphaned_witness :
  exists w2,
    delete_template_from_disk (txt "??") (Some [])
      (snd (save_template_to_disk (txt "??") (txt "x") (Some []) ex_running)) = (Ok false, w2)
    /\ exists data, fs w2 !! [txt "template_20240102_030400.md"] = Some (File data).
Proof.
  destruct (clock_named_file_orphaned (txt "??") (txt "x") [] ex_running
              (snd (save_template_to_disk (txt "??") (txt "x") (Some []) ex_running))
              [txt "template_20240102_030400.md"])
    as (w2 & H1 & _ & H3).
  - vm_compute. reflexivity.
  - apply run_eq. vm_compute. reflexivity.
  - vm_compute. reflexivity.
  - exists w2. split; [exact H1 | exact H3].
Defined.

(** * The rebuild as a whole *)

Lemma sync_database_any folders templates w r w' :
  sync_database_to_filesystem folders templates w = (r, w') -> steps (fun _ => True) w w'.
Proof.
  unfold sync_database_to_filesystem. intros H.
  apply bind_inv in H as [(fp & w1 & Hf & Ht)|(e & Hf & _)].
  - eapply steps_trans; [eapply sync_folders_any; exact Hf|].
    eapply steps_mono; [|eapply sync_templates_steps; exact Ht]. intros; exact I.
  - eapply sync_folders_any; exact Hf.
Qed.

(** X23.  Whether it completes or raises, the rebuild removes nothing: every
    directory of the disk is still a directory afterwards, and every file
    is still a file.  The file of a template that is no longer in the
    database, or that was saved under another title, stays where it is. *)
Theorem rebuild_never_removes (folders : list Folder) (templates : list Template) (w : world) :
  keeps w (snd (sync_database_to_filesystem folders templates w))
  /\ keeps w (snd (initialize_filesystem_sync folders templates w)).
Proof.
  assert (keeps w (snd (sync_database_to_filesystem folders templates w))) as H.
  { destruct (sync_database_to_filesystem folders templates w) as [r w'] eqn:E.
    eapply steps_keeps, sync_database_any, E. }
  split; [exact H|]. unfold initialize_filesystem_sync.
  destruct (sync_database_to_filesystem folders templates w) as [[u|e] w']; exact H.
Qed.

(** ** Where the rebuild writes *)

Lemma now_touches D w r w' : now w = (r, w') -> touches D w w'.
Proof. unfold now. intros [= <- <-]. apply (touches_tick D w). Qed.

Lemma os_mkdir_touches p w r w' : os_mkdir p w = (r, w') -> touches (eq p) w w'.
Proof.
  rewrite os_mkdir_run. destruct (node_at w (parent p)) as [[|d]|];
    try (intros [= <- <-]; apply touches_refl).
  destruct (node_at w p); [intros [= <- <-]; apply touches_refl|].
  destruct (denied w p); intros [= <- <-]; [apply touches_refl|].
  apply touches_insert. reflexivity.
Qed.

Lemma mkdir_exist_ok_touches p w r w' : mkdir_exist_ok p w = (r, w') -> touches (eq p) w w'.
Proof.
  unfold mkdir_exist_ok. destruct (os_mkdir p w) as [[[]|e] w1] eqn:E;
    apply os_mkdir_touches in E.
  - intros [= <- <-]. exact E.
  - destruct e; destruct (is_dir w1 p); intros [= <- <-]; exact E.
Qed.

Lemma mkdir_parents_rev_touches rp :
  forall w r w', mkdir_parents_rev rp w = (r, w') ->
    touches (fun q => q `prefix_of` rev rp) w w'.
Proof.
  induction rp as [|x rp IH]; intros w r w'.
  - simpl. unfold os_mkdir. simpl. intros [= <- <-]. apply touches_refl.
  - cbn [mkdir_parents_rev]. set (p := rev (x :: rp)).
    assert (forall q, q `prefix_of` rev rp -> q `prefix_of` p) as Hpre.
    { intros q Hq. unfold p. simpl. apply prefix_app_r. exact Hq. }
    destruct (os_mkdir p w) as [[[]|e] w1] eqn:E;
      apply os_mkdir_touches in E;
      apply (touches_mono _ (fun q => q `prefix_of` p)) in E;
      try (intros q <-; reflexivity).
    + intros [= <- <-]. exact E.
    + destruct e; try (destruct (is_dir w1 p); intros [= <- <-]; exact E).
      intros H. apply bind_inv in H as [(u & w2 & H1 & H2)|(e & H1 & _)];
        apply IH in H1; apply (touches_mono _ _ _ _ Hpre) in H1.
      * apply mkdir_exist_ok_touches in H2.
        eapply touches_trans; [exact E|]. eapply touches_trans; [exact H1|].
        eapply touches_mono; [|exact H2]. intros q <-. reflexivity.
      * eapply touches_trans; eassumption.
Qed.

Lemma mkdir_parents_touches p w r w' :
  mkdir_parents p w = (r, w') -> touches (fun q => q `prefix_of` p) w w'.
Proof.
  unfold mkdir_parents. intros H. apply mkdir_parents_rev_touches in H.
  rewrite rev_involutive in H. exact H.
Qed.

Lemma get_user_templates_dir_touches w r w' :
  get_user_templates_dir w = (r, w') ->
  touches (fun q => q `prefix_of` templates_dir w) w w'.
Proof.
  unfold get_user_templates_dir. intros H.
  apply bind_inv in H as [(u & w1 & H1 & H2)|(e & H1 & _)];
    apply mkdir_parents_touches in H1; [|exact H1].
  apply ret_inv in H2 as [_ ->]. exact H1.
Qed.

Lemma sanitize_folder_name_touches D name w r w' :
  sanitize_folder_name name w = (r, w') -> touches D w w'.
Proof.
  unfold sanitize_folder_name. destruct (needs_folder_fallback (name_core name)).
  - unfold bind, now, ret. intros [= <- <-]. apply (touches_tick D w).
  - intros H. apply ret_inv in H as [_ ->]. apply touches_refl.
Qed.

Lemma default_dir_touches parent_path w r w' :
  default_dir parent_path w = (r, w') ->
  touches (fun q => q `prefix_of` base_dir parent_path w) w w'.
Proof.
  destruct parent_path as [p|]; simpl.
  - intros H. apply ret_inv in H as [_ ->]. apply touches_refl.
  - apply get_user_templates_dir_touches.
Qed.

Lemma create_folder_on_disk_touches name parent_path w r w' :
  create_folder_on_disk name parent_path w = (r, w') ->
  touches (folder_dirs (base_dir parent_path w) name) w w'.
Proof.
  intros H. set (D := folder_dirs (base_dir parent_path w) name).
  assert (forall q, q `prefix_of` base_dir parent_path w -> D q) as Hbase.
  { intros q Hq. exists (clock w 0). apply prefix_app_r. exact Hq. }
  unfold create_folder_on_disk, get_folder_path in H.
  apply bind_inv in H as [(p & w3 & Hpath & Hmk)|(e & Hpath & _)].
  - apply bind_inv in Hpath as [(b & w1 & Hdef & Hname)|(e & Hdef & [=])].
    pose proof (default_dir_steps _ _ _ _ Hdef) as [_ Hb]. specialize (Hb _ eq_refl). subst b.
    apply default_dir_touches in Hdef. apply (touches_mono _ D) in Hdef; [|exact Hbase].
    apply bind_inv in Hname as [(n & w2 & Hsan & Hret)|(e & Hsan & [=])].
    destruct (sanitize_folder_name_steps D _ _ _ _ Hsan) as [_ [d [= ->]]].
    apply (sanitize_folder_name_touches D) in Hsan.
    apply ret_inv in Hret as [[= ->] ->].
    assert (touches D w w2) as H12 by (eapply touches_trans; eassumption).
    apply bind_inv in Hmk as [(u & w4 & Hmk & Hret)|(e & Hmk & _)];
      apply mkdir_parents_touches in Hmk;
      apply (touches_mono _ D) in Hmk; try (intros q Hq; exists d; exact Hq).
    + apply ret_inv in Hret as [_ ->]. eapply touches_trans; eassumption.
    + eapply touches_trans; eassumption.
  - apply bind_inv in Hpath as [(b & w1 & Hdef & Hname)|(e' & Hdef & _)].
    + apply default_dir_touches in Hdef. apply (touches_mono _ D) in Hdef; [|exact Hbase].
      apply bind_inv in Hname as [(n & w2 & Hsan & Hret)|(e' & Hsan & _)].
      * apply ret_inv in Hret as [[=] _].
      * apply (sanitize_folder_name_touches D) in Hsan. eapply touches_trans; eassumption.
    + apply default_dir_touches in Hdef. eapply touches_mono; [exact Hbase | exact Hdef].
Qed.

Lemma write_text_touches p data w r w' : write_text p data w = (r, w') -> touches (eq p) w w'.
Proof.
  rewrite write_text_run. destruct (node_at w (parent p)) as [[|d]|];
    try (intros [= <- <-]; apply touches_refl).
  assert ((if denied w p then (Raise PermissionError, w)
           else (Ok tt, with_fs w (<[p := File data]> (fs w)))) = (r, w') ->
          touches (eq p) w w') as Hw.
  { destruct (denied w p); intros [= <- <-]; [apply touches_refl|].
    apply touches_insert. reflexivity. }
  destruct (node_at w p) as [[|d]|]; [intros [= <- <-]; apply touches_refl | exact Hw | exact Hw].
Qed.

Lemma save_template_to_disk_touches title content dir w r w' :
  save_template_to_disk title content (Some dir) w = (r, w') ->
  touches (fun q => dir `prefix_of` q) w w'.
Proof.
  rewrite save_template_to_disk_run. cbv zeta.
  destruct (write_text _ _ _) as [r1 w1] eqn:E. apply write_text_touches in E.
  assert (touches (fun q => dir `prefix_of` q) w w1) as Ht.
  { eapply touches_trans; [|eapply touches_mono; [|exact E]].
    - unfold after_name. destruct (is_nonempty (name_core title)).
      + apply touches_tick.
      + eapply touches_trans; apply touches_tick.
    - intros q <-. apply prefix_app_r. reflexivity. }
  destruct r1; intros [= <- <-]; exact Ht.
Qed.

Lemma around_prefix base p q : base `prefix_of` p -> q `prefix_of` p -> around base q.
Proof.
  intros Hb Hq. destruct (prefix_weak_total _ _ _ Hq Hb) as [H|H]; [left | right]; exact H.
Qed.

Lemma folder_dirs_around base b name q :
  base `prefix_of` b -> folder_dirs b name q -> around base q.
Proof.
  intros Hb [d Hq]. eapply around_prefix; [|exact Hq]. apply prefix_app_r. exact Hb.
Qed.

(** One creation of a folder directory, as both loops do it. *)
Lemma folder_step_touches base folder_paths f parent_path w r w' :
  below base folder_paths ->
  base `prefix_of` base_dir parent_path w ->
  (folder_path <- create_folder_on_disk (folder_name f) parent_path ;;
   ret (<[folder_id f := folder_path]> folder_paths)) w = (r, w') ->
  touches (around base) w w' /\ forall fp', r = Ok fp' -> below base fp'.
Proof.
  intros Hbelow Hb H.
  apply bind_inv in H as [(p & w1 & Hc & H)|(e & Hc & ->)].
  - pose proof (create_folder_on_disk_steps _ _ _ _ _ Hc) as [_ Hp].
    destruct (Hp p eq_refl) as (d & -> & _).
    apply create_folder_on_disk_touches in Hc. apply ret_inv in H as [-> ->]. split.
    + eapply touches_mono; [|exact Hc]. intros q. apply folder_dirs_around. exact Hb.
    + intros fp' [= <-] id p Hl. destruct (decide (folder_id f = id)) as [<-|Hne].
      * rewrite lookup_insert_eq in Hl. injection Hl as <-. apply prefix_app_r. exact Hb.
      * rewrite lookup_insert_ne in Hl by exact Hne. eapply Hbelow. exact Hl.
  - apply create_folder_on_disk_touches in Hc. split; [|discriminate].
    eapply touches_mono; [|exact Hc]. intros q. apply folder_dirs_around. exact Hb.
Qed.

Lemma root_step_touches folder_paths f w r w' :
  below (templates_dir w) folder_paths ->
  root_step folder_paths f w = (r, w') ->
  touches (around (templates_dir w)) w w'
  /\ forall fp', r = Ok fp' -> below (templates_dir w) fp'.
Proof.
  intros Hbelow. unfold root_step. destruct (parent_id f).
  - intros H. apply ret_inv in H as [-> ->]. split; [apply touches_refl|].
    intros fp' [= <-]. exact Hbelow.
  - apply folder_step_touches; [exact Hbelow | reflexivity].
Qed.

Lemma child_step_touches base folder_paths f w r w' :
  below base folder_paths ->
  child_step folder_paths f w = (r, w') ->
  touches (around base) w w' /\ forall fp', r = Ok fp' -> below base fp'.
Proof.
  intros Hbelow. unfold child_step.
  destruct (parent_id f) as [pid|]; [destruct (folder_paths !! pid) as [pp|] eqn:Hpp|];
    try (intros H; apply ret_inv in H as [-> ->]; split; [apply touches_refl|];
         intros fp' [= <-]; exact Hbelow).
  apply folder_step_touches; [exact Hbelow|]. simpl. eapply Hbelow. exact Hpp.
Qed.

(** A loop whose body keeps an invariant of the state and touches paths of
    [D] only, in worlds with the home directory of [w0]. *)
Lemma for_each_touches {A S} (D : path -> Prop) (I : S -> Prop) (w0 : world)
    (body : S -> A -> io S) l :
  (forall s a w r w', I s -> home w = home w0 -> body s a w = (r, w') ->
     touches D w w' /\ forall s', r = Ok s' -> I s') ->
  forall s w r w', I s -> home w = home w0 -> for_each body l s w = (r, w') ->
    touches D w w' /\ forall s', r = Ok s' -> I s'.
Proof.
  intros Hbody. induction l as [|a l IH]; intros s w r w' Hs Hh H.
  - apply ret_inv in H as [-> ->]. split; [apply touches_refl|].
    intros s' [= <-]. exact Hs.
  - cbn [for_each] in H. apply bind_inv in H as [(s1 & w1 & Ha & H)|(e & Ha & ->)];
      destruct (Hbody _ _ _ _ _ Hs Hh Ha) as [Ht1 Hs1].
    + apply IH in H as [Ht2 Hs2]; [| apply Hs1; reflexivity |].
      * split; [eapply touches_trans; eassumption | exact Hs2].
      * destruct Ht1 as (-> & _). exact Hh.
    + split; [exact Ht1 | discriminate].
Qed.

Lemma templates_dir_home w w0 : home w = home w0 -> templates_dir w = templates_dir w0.
Proof. intros H. unfold templates_dir. rewrite H. reflexivity. Qed.

Lemma sync_folders_touches folders w r w' :
  sync_folders folders w = (r, w') ->
  touches (around (templates_dir w)) w w'
  /\ forall fp, r = Ok fp -> below (templates_dir w) fp.
Proof.
  unfold sync_folders. intros H.
  assert (below (templates_dir w) ∅) as H0.
  { intros id p Hl. rewrite lookup_empty in Hl. discriminate. }
  apply bind_inv in H as [(fp0 & w0 & Hr & H)|(e & Hr & ->)].
  - apply (for_each_touches (around (templates_dir w)) (below (templates_dir w)) w)
      in Hr as [Ht1 Hb1]; [|clear; intros s a w1 r w2 Hs Hh Hrun|exact H0|reflexivity].
    + apply (for_each_touches (around (templates_dir w)) (below (templates_dir w)) w)
        in H as [Ht2 Hb2]; [|clear; intros s a w1 r w2 Hs Hh Hrun| |].
      * split; [eapply touches_trans; eassumption | exact Hb2].
      * eapply child_step_touches; eassumption.
      * apply Hb1. reflexivity.
      * apply Ht1.
    + rewrite <- (templates_dir_home _ _ Hh) in *.
      eapply root_step_touches; eassumption.
  - apply (for_each_touches (around (templates_dir w)) (below (templates_dir w)) w)
      in Hr as [Ht1 _]; [|clear; intros s a w1 r w2 Hs Hh Hrun|exact H0|reflexivity].
    + split; [exact Ht1 | discriminate].
    + rewrite <- (templates_dir_home _ _ Hh) in *.
      eapply root_step_touches; eassumption.
Qed.

Lemma target_dir_below base folder_paths t p :
  below base folder_paths -> target_dir folder_paths t = Some p -> base `prefix_of` p.
Proof.
  intros Hb. unfold target_dir. destruct (template_folder_id t) as [fid|]; [|discriminate].
  destruct (Z.eqb fid 0); [discriminate|]. apply Hb.
Qed.

Lemma template_step_touches folder_paths t w r w' :
  below (templates_dir w) folder_paths ->
  template_step folder_paths t w = (r, w') ->
  touches (around (templates_dir w)) w w'.
Proof.
  intros Hbelow. unfold template_step. intros H.
  apply bind_inv in H as [(dir & w1 & Hdir & H)|(e & Hdir & _)].
  - assert (touches (around (templates_dir w)) w w1 /\ templates_dir w `prefix_of` dir)
      as [Ht1 Hd].
    { destruct (target_dir folder_paths t) as [p|] eqn:Et.
      - apply ret_inv in Hdir as [[= ->] ->]. split; [apply touches_refl|].
        eapply target_dir_below; eassumption.
      - pose proof (get_user_templates_dir_steps _ _ _ Hdir) as [_ Hx].
        destruct (Hx dir eq_refl) as [-> _].
        apply get_user_templates_dir_touches in Hdir. split; [|reflexivity].
        eapply touches_mono; [|exact Hdir]. intros q Hq. left. exact Hq. }
    assert (touches (around (templates_dir w)) w1 w') as Ht2.
    { apply bind_inv in H as [(p & w2 & Hsave & H)|(e & Hsave & _)];
        apply save_template_to_disk_touches in Hsave;
        [apply ret_inv in H as [_ ->]|];
        (eapply touches_mono; [|exact Hsave]); intros q Hq; right;
        (etransitivity; [exact Hd | exact Hq]). }
    eapply touches_trans; eassumption.
  - destruct (target_dir folder_paths t) as [p|].
    + apply ret_inv in Hdir as [[=] _].
    + apply get_user_templates_dir_touches in Hdir.
      eapply touches_mono; [|exact Hdir]. intros q Hq. left. exact Hq.
Qed.

Lemma sync_templates_touches folder_paths templates w r w' :
  below (templates_dir w) folder_paths ->
  sync_templates folder_paths templates w = (r, w') ->
  touches (around (templates_dir w)) w w'.
Proof.
  intros Hbelow H. unfold sync_templates in H.
  apply (for_each_touches (around (templates_dir w)) (fun _ => True) w) in H as [Ht _];
    [exact Ht | | exact I | reflexivity].
  intros [] t w1 r1 w2 _ Hh Hrun. split; [|intros; exact I].
  rewrite <- (templates_dir_home _ _ Hh) in *.
  eapply template_step_touches; eassumption.
Qed.

(** X24.  Whether it completes or raises, the rebuild changes the disk only at
    the templates directory, at the paths that lead to it and below it. *)
Theorem rebuild_stays_in_templates_dir
    (folders : list Folder) (templates : list Template) (w : world) (q : path) :
  fs (snd (sync_database_to_filesystem folders templates w)) !! q = fs w !! q
  \/ q `prefix_of` templates_dir w
  \/ templates_dir w `prefix_of` q.
Proof.
  destruct (sync_database_to_filesystem folders templates w) as [r w'] eqn:E.
  assert (touches (around (templates_dir w)) w w') as (_ & _ & _ & Ht).
  { unfold sync_database_to_filesystem in E.
    apply bind_inv in E as [(fp & w1 & Hf & Ht)|(e & Hf & _)];
      apply sync_folders_touches in Hf as [Ht1 Hb]; [|exact Ht1].
    eapply touches_trans; [exact Ht1|].
    rewrite <- (templates_dir_touches _ _ _ Ht1) in *.
    eapply sync_templates_touches; [|exact Ht]. apply Hb. reflexivity. }
  destruct (Ht q) as [H|H]; [right; exact H | left; exact H].
Qed.

(** ** Where a filed template goes *)

Lemma template_step_filed folder_paths t w w' p :
  template_step folder_paths t w = (Ok tt, w') ->
  target_dir folder_paths t = Some p ->
  exists d data,
    fs w' !! (p ++ [template_file_name d (title t) ++ txt ".md"]) = Some (File data).
Proof.
  unfold template_step. intros H Ht. rewrite Ht in H.
  apply bind_inv in H as [(dir & w1 & Hdir & H)|(e & _ & [=])].
  apply ret_inv in Hdir as [[= ->] ->].
  apply bind_inv in H as [(q & w2 & Hsave & H)|(e & _ & [=])].
  apply ret_inv in H as [_ ->].
  destruct (save_template_to_disk_steps (fun _ => True) _ _ _ _ _ _ Hsave) as [_ Hfile].
  destruct (Hfile q eq_refl) as (d & data & -> & Hf). eauto.
Qed.

Lemma sync_templates_filed folder_paths l :
  forall w w',
    sync_templates folder_paths l w = (Ok tt, w') ->
    forall t p, In t l -> target_dir folder_paths t = Some p ->
      exists d data,
        fs w' !! (p ++ [template_file_name d (title t) ++ txt ".md"]) = Some (File data).
Proof.
  unfold sync_templates. induction l as [|a l IH]; intros w w' H t p Hin Ht; [destruct Hin|].
  cbn [for_each] in H.
  apply bind_inv in H as [([] & w1 & Ha & H)|(e & _ & [=])].
  destruct Hin as [->|Hin].
  - destruct (template_step_filed _ _ _ _ _ Ha Ht) as (d & data & Hf).
    pose proof (sync_templates_steps _ _ _ _ _ H) as Hs2.
    destruct (keeps_file _ _ _ _ (steps_keeps _ _ _ Hs2) Hf) as [data' Hf'].
    eauto.
  - eapply IH; eassumption.
Qed.

(** X25.  In a rebuild that completes, a template filed under a folder that has
    a recorded directory has its file in that directory, which is the
    mirror path of the folder.  The folder id 0 counts as no folder: the
    file is then under the templates directory. *)
Theorem filed_template_in_folder_directory
    (folders : list Folder) (templates : list Template)
    (w w0 w' : world) (folder_paths : gmap Z path) :
  sync_folders folders w = (Ok folder_paths, w0) ->
  sync_templates folder_paths templates w0 = (Ok tt, w') ->
  forall t fid, In t templates -> template_folder_id t = Some fid ->
    (fid <> 0%Z -> forall p, folder_paths !! fid = Some p ->
       mirror folders (templates_dir w) fid p
       /\ is_dir w' p = true
       /\ exists d data,
            fs w' !! (p ++ [template_file_name d (title t) ++ txt ".md"])
            = Some (File data))
    /\ (fid = 0%Z ->
        exists d data,
          fs w' !! (templates_dir w ++ [template_file_name d (title t) ++ txt ".md"])
          = Some (File data)).
Proof.
  intros Hf Ht t fid Hin Hfid. split.
  - intros Hne p Hp.
    pose proof (sync_folders_inv _ _ _ _ Hf) as [_ Hpost].
    destruct (Hpost _ eq_refl) as [[_ Hrec] _]. destruct (Hrec _ _ Hp) as [Hdir Hm].
    split; [exact Hm|]. split.
    + eapply keeps_is_dir; [|exact Hdir].
      eapply steps_keeps, sync_templates_steps, Ht.
    + eapply sync_templates_filed; [exact Ht | exact Hin|].
      unfold target_dir. rewrite Hfid.
      destruct (Z.eqb_spec fid 0); [contradiction | exact Hp].
  - intros ->.
    rewrite <- (steps_templates_dir _ _ _ (sync_folders_any _ _ _ _ Hf)).
    eapply sync_templates_written; [exact Ht | exact Hin|].
    unfold target_dir. rewrite Hfid. reflexivity.
Qed.

(** Reading the conclusion of the theorem for the template [T], filed
    under the folder [B] of [ex_nested]. *)
Lemma nested_folder_file (w' : world) :
  (2%Z <> 0%Z -> forall p, ex_nested_paths !! 2%Z = Some p ->
     mirror ex_nested (templates_dir ex_world) 2 p
     /\ is_dir w' p = true
     /\ exists d data,
          fs w' !! (p ++ [template_file_name d (txt "T") ++ txt ".md"]) = Some (File data)) ->
  exists data,
    fs w' !! [txt "home"; txt "user"; txt "Prompt_Editor"; txt "templates";
              txt "A"; txt "B"; txt "T.md"]
    = Some (File data).
Proof.
  intros H.
  destruct (H ltac:(discriminate) (templates_dir ex_world ++ [txt "A"; txt "B"]))
    as (_ & _ & d & data & Hd); [vm_compute; reflexivity|].
  exists data.
  assert (template_file_name d (txt "T") ++ txt ".md" = txt "T.md") as E
    by (vm_compute; reflexivity).
  rewrite E in Hd. exact Hd.
Qed.

Lemma filed_template_in_folder_directory_witness :
  exists w',
    sync_templates ex_nested_paths [filed 2 (template_of (txt "T") (txt "raw"))]
      (snd (sync_folders ex_nested ex_world)) = (Ok tt, w')
    /\ exists data,
         fs w' !! [txt "home"; txt "user"; txt "Prompt_Editor"; txt "templates";
                   txt "A"; txt "B"; txt "T.md"]
         = Some (File data).
Proof.
  assert (fst (sync_folders ex_nested ex_world) = Ok ex_nested_paths) as H1
    by (vm_compute; reflexivity).
  assert (fst (sync_templates ex_nested_paths [filed 2 (template_of (txt "T") (txt "raw"))]
                 (snd (sync_folders ex_nested ex_world))) = Ok tt) as H2
    by (vm_compute; reflexivity).
  destruct (filed_template_in_folder_directory
              ex_nested [filed 2 (template_of (txt "T") (txt "raw"))]
              ex_world _ _ ex_nested_paths (run_eq _ _ H1) (run_eq _ _ H2)
              (filed 2 (template_of (txt "T") (txt "raw"))) 2%Z
              (or_introl eq_refl) eq_refl) as [H _].
  eexists. split; [exact (run_eq _ _ H2)|]. apply nested_folder_file. exact H.
Defined.

(** ** Running the rebuild again *)

Lemma keeps_refl w : keeps w w.
Proof. intros q. destruct (fs w !! q) as [[|d]|]; eauto. Qed.

Lemma keeps_trans w1 w2 w3 : keeps w1 w2 -> keeps w2 w3 -> keeps w1 w3.
Proof.
  intros H1 H2 q. specialize (H1 q). specialize (H2 q).
  destruct (fs w1 !! q) as [[|d]|]; [| |exact I].
  - rewrite H1 in H2. exact H2.
  - destruct H1 as [d' H1]. rewrite H1 in H2. exact H2.
Qed.

Lemma extends_refl w : extends w w.
Proof. repeat split. apply keeps_refl. Qed.

Lemma extends_trans w1 w2 w3 : extends w1 w2 -> extends w2 w3 -> extends w1 w3.
Proof.
  intros (Hh1 & Hd1 & Hk1) (Hh2 & Hd2 & Hk2).
  split; [congruence|]. split; [congruence|]. eapply keeps_trans; eassumption.
Qed.

Lemma steps_extends D w w' : steps D w w' -> extends w w'.
Proof.
  intros H. destruct (steps_env _ _ _ H) as (Hh & _ & Hd).
  split; [exact Hh|]. split; [exact Hd|]. eapply steps_keeps, H.
Qed.

Lemma same_tree_refl w : same_tree w w.
Proof. intros q. reflexivity. Qed.

Lemma same_tree_trans w1 w2 w3 : same_tree w1 w2 -> same_tree w2 w3 -> same_tree w1 w3.
Proof. intros H1 H2 q. rewrite H2. apply H1. Qed.

Lemma same_tree_keeps w w' : same_tree w w' -> keeps w w'.
Proof.
  intros H q. specialize (H q).
  destruct (fs w !! q) as [[|d]|], (fs w' !! q) as [[|d']|]; try discriminate; eauto.
Qed.

Lemma extends_same_tree w v v' :
  extends w v -> same_tree v v' -> home v' = home v -> denied v' = denied v ->
  extends w v'.
Proof.
  intros Hext Hs Hh Hd. eapply extends_trans; [exact Hext|].
  split; [exact Hh|]. split; [exact Hd|]. apply same_tree_keeps, Hs.
Qed.

Lemma extends_is_dir w v p : extends w v -> is_dir w p = true -> is_dir v p = true.
Proof. intros (_ & _ & Hk). apply keeps_is_dir, Hk. Qed.

Lemma extends_node w v p :
  extends w v -> node_at w p <> None -> node_at v p <> None.
Proof.
  intros (_ & _ & Hk). destruct p as [|c p]; [trivial|]. simpl.
  specialize (Hk (c :: p)). destruct (fs w !! (c :: p)) as [[|d]|]; [| |congruence].
  - rewrite Hk. discriminate.
  - destruct Hk as [d' ->]. discriminate.
Qed.

(** Composing computations that settle. *)
Lemma settles_ret {A} (a : A) : settles (ret a).
Proof.
  intros w a' w1 H v Hv. apply ret_inv in H as [[= <-] ->].
  exists v. split; [reflexivity|]. split; [apply same_tree_refl|]. split; reflexivity.
Qed.

Lemma settles_bind {A B} (m : io A) (k : A -> io B) :
  settles m -> (forall a, settles (k a)) -> (forall a, grows (k a)) ->
  settles (bind m k).
Proof.
  intros Hm Hk Hg w b w1 H v Hv.
  apply bind_inv in H as [(a & wa & Ha & Hb)|(e & _ & [=])].
  destruct (Hm _ _ _ Ha v) as (va & Hva & Hs1 & Hh1 & Hd1).
  { eapply extends_trans; [eapply Hg; exact Hb | exact Hv]. }
  destruct (Hk a _ _ _ Hb va) as (v' & Hv' & Hs2 & Hh2 & Hd2).
  { eapply extends_same_tree; eassumption. }
  exists v'. split; [unfold bind; rewrite Hva; exact Hv'|].
  split; [eapply same_tree_trans; eassumption|]. split; congruence.
Qed.

Lemma grows_ret {A} (a : A) : grows (ret a).
Proof. intros w r w' H. apply ret_inv in H as [_ ->]. apply extends_refl. Qed.

Lemma grows_bind {A B} (m : io A) (k : A -> io B) :
  grows m -> (forall a, grows (k a)) -> grows (bind m k).
Proof.
  intros Hm Hk w r w' H. apply bind_inv in H as [(a & wa & Ha & Hb)|(e & Ha & _)].
  - eapply extends_trans; [eapply Hm; exact Ha | eapply Hk; exact Hb].
  - eapply Hm; exact Ha.
Qed.

Lemma grows_for_each {A S} (body : S -> A -> io S) l :
  (forall s a, grows (body s a)) -> forall s, grows (for_each body l s).
Proof.
  intros Hb. induction l as [|a l IH]; intros s; [apply grows_ret|].
  cbn [for_each]. apply grows_bind; [apply Hb | exact IH].
Qed.

Lemma settles_for_each {A S} (body : S -> A -> io S) l :
  (forall s a, In a l -> settles (body s a)) -> (forall s a, grows (body s a)) ->
  forall s, settles (for_each body l s).
Proof.
  intros Hs Hg. induction l as [|a l IH]; intros s; [apply settles_ret|].
  cbn [for_each]. apply settles_bind.
  - apply Hs. left. reflexivity.
  - intros s'. apply IH. intros s0 b Hb. apply Hs. right. exact Hb.
  - intros s'. apply grows_for_each. exact Hg.
Qed.

(** [mkdir]: a directory that has been made is found again. *)
Lemma mkdir_parents_rev_done rp :
  forall w w1,
    mkdir_parents_rev rp w = (Ok tt, w1) ->
    is_dir w1 (rev rp) = true /\ node_at w1 (parent (rev rp)) <> None.
Proof.
  intros w w1 H. split; [eapply mkdir_parents_rev_steps; [exact H | reflexivity]|].
  destruct rp as [|x rp]; [discriminate|].
  cbn [mkdir_parents_rev] in H. set (p := rev (x :: rp)) in *.
  assert (parent p = rev rp) as Hparent by (unfold p; simpl; apply parent_snoc).
  assert (p <> rev rp) as Hne.
  { unfold p. simpl. intros E. apply (f_equal length) in E.
    rewrite length_app in E. simpl in E. lia. }
  rewrite os_mkdir_run in H.
  destruct (node_at w (parent p)) as [[|d]|] eqn:Hpar.
  - assert (forall w2, steps (eq p) w w2 -> node_at w2 (parent p) <> None) as Hkept.
    { intros w2 Hs. apply steps_extends in Hs. eapply extends_node; [exact Hs|].
      rewrite Hpar. discriminate. }
    destruct (node_at w p) as [n|] eqn:Hp.
    + destruct (is_dir w p); [|discriminate H]. injection H as <-.
      rewrite Hpar. discriminate.
    + assert (is_dir w p = false) as Hnd by (unfold is_dir; rewrite Hp; reflexivity).
      destruct (denied w p); [cbv beta iota in H; rewrite Hnd in H; discriminate H|].
      injection H as <-. rewrite Hparent in *.
      rewrite (touches_node (eq p) w _ (rev rp)); [rewrite Hpar; discriminate | |congruence].
      apply touches_insert. reflexivity.
  - destruct (is_dir w p); [|discriminate H]. injection H as <-.
    rewrite Hpar. discriminate.
  - apply bind_inv in H as [(u & w2 & H1 & H2)|(e & _ & [=])].
    apply mkdir_parents_rev_steps in H1 as [_ Hd]. specialize (Hd ltac:(destruct u; reflexivity)).
    apply mkdir_exist_ok_steps in H2 as [Hs _]. apply steps_extends in Hs.
    rewrite Hparent. eapply extends_node; [exact Hs|].
    apply is_dir_node in Hd. rewrite Hd. discriminate.
Qed.

Lemma mkdir_parents_again p v :
  is_dir v p = true -> node_at v (parent p) <> None ->
  mkdir_parents p v = (Ok tt, v).
Proof.
  intros Hp Hpar. unfold mkdir_parents.
  assert (forall rp, rev rp = p -> mkdir_parents_rev rp v = (Ok tt, v)) as H.
  { intros rp <-. pose proof Hp as Hn. apply is_dir_node in Hn.
    destruct rp as [|x rp]; cbn [mkdir_parents_rev]; rewrite os_mkdir_run;
      destruct (node_at v (parent _)) as [[|d]|]; try contradiction;
      rewrite ?Hn, ?Hp; reflexivity. }
  apply H, rev_involutive.
Qed.

Lemma settles_mkdir_parents p : settles (mkdir_parents p).
Proof.
  intros w [] w1 H v Hv. unfold mkdir_parents in H.
  apply mkdir_parents_rev_done in H as [Hd Hpar]. rewrite rev_involutive in *.
  exists v. split; [|split; [apply same_tree_refl | split; reflexivity]].
  apply mkdir_parents_again.
  - eapply extends_is_dir; eassumption.
  - eapply extends_node; eassumption.
Qed.

Lemma grows_mkdir_parents p : grows (mkdir_parents p).
Proof. intros w r w' H. apply mkdir_parents_steps in H as [H _]. eapply steps_extends, H. Qed.

Lemma settles_get_user_templates_dir : settles get_user_templates_dir.
Proof.
  intros w a w1 H v Hv.
  assert (templates_dir v = templates_dir w) as Etd.
  { apply templates_dir_home. destruct Hv as (-> & _).
    apply get_user_templates_dir_steps in H as [Hs _].
    apply (steps_env _ _ _ Hs). }
  unfold get_user_templates_dir in *. rewrite Etd.
  revert w a w1 H v Hv Etd. intros w. generalize (templates_dir w) as p. intros p a w1 H v Hv _.
  revert a w1 H v Hv. fold (settles (mkdir_parents p ;;; ret p)).
  apply settles_bind; [apply settles_mkdir_parents | |]; intros _;
    [apply settles_ret | apply grows_ret].
Qed.

Lemma grows_get_user_templates_dir : grows get_user_templates_dir.
Proof.
  intros w r w' H. apply get_user_templates_dir_steps in H as [H _]. eapply steps_extends, H.
Qed.

Lemma settles_default_dir parent_path : settles (default_dir parent_path).
Proof.
  destruct parent_path; [apply settles_ret | apply settles_get_user_templates_dir].
Qed.

Lemma grows_create_folder_on_disk name parent_path :
  grows (create_folder_on_disk name parent_path).
Proof.
  intros w r w' H. apply create_folder_on_disk_steps in H as [H _]. eapply steps_extends, H.
Qed.

Lemma settles_create_folder_on_disk name parent_path :
  needs_folder_fallback (name_core name) = false ->
  settles (create_folder_on_disk name parent_path).
Proof.
  intros Hfb. unfold create_folder_on_disk, get_folder_path, sanitize_folder_name.
  rewrite Hfb. apply settles_bind.
  - apply settles_bind; [apply settles_default_dir | |]; intros b.
    + apply settles_bind; [apply settles_ret | |]; intros n;
        [apply settles_ret | apply grows_ret].
    + apply grows_bind; [apply grows_ret | intros n; apply grows_ret].
  - intros p. apply settles_bind; [apply settles_mkdir_parents | |]; intros _;
      [apply settles_ret | apply grows_ret].
  - intros p. apply grows_bind; [apply grows_mkdir_parents | intros _; apply grows_ret].
Qed.

Lemma settles_root_step folder_paths f :
  needs_folder_fallback (name_core (folder_name f)) = false ->
  settles (root_step folder_paths f).
Proof.
  intros Hfb. unfold root_step. destruct (parent_id f); [apply settles_ret|].
  apply settles_bind; [apply settles_create_folder_on_disk, Hfb | |]; intros p;
    [apply settles_ret | apply grows_ret].
Qed.

Lemma settles_child_step folder_paths f :
  needs_folder_fallback (name_core (folder_name f)) = false ->
  settles (child_step folder_paths f).
Proof.
  intros Hfb. unfold child_step.
  destruct (parent_id f) as [pid|]; [destruct (folder_paths !! pid)|];
    try apply settles_ret.
  apply settles_bind; [apply settles_create_folder_on_disk, Hfb | |]; intros p;
    [apply settles_ret | apply grows_ret].
Qed.

Lemma grows_root_step folder_paths f : grows (root_step folder_paths f).
Proof. intros w r w' H. eapply steps_extends, root_step_any, H. Qed.

Lemma grows_child_step folder_paths f : grows (child_step folder_paths f).
Proof. intros w r w' H. eapply steps_extends, child_step_any, H. Qed.

Lemma settles_sync_folders folders :
  (forall f, In f folders -> needs_folder_fallback (name_core (folder_name f)) = false) ->
  settles (sync_folders folders).
Proof.
  intros Hfb. unfold sync_folders. apply settles_bind.
  - apply settles_for_each; [|intros; apply grows_root_step].
    intros s f Hf. apply settles_root_step, Hfb, Hf.
  - intros fp. apply settles_for_each; [|intros; apply grows_child_step].
    intros s f Hf. apply settles_child_step, Hfb, Hf.
  - intros fp. apply grows_for_each. intros; apply grows_child_step.
Qed.

(** A file that has been saved is written again in its place. *)
Lemma settles_save_template_to_disk title content dir :
  name_core title <> [] ->
  settles (save_template_to_disk title content (Some dir)).
Proof.
  intros Hne w p w1 H v Hv.
  apply save_template_to_disk_ok in H as (Hdir & Hp & Hden & Hden1 & _ & d' & Hfs).
  rewrite template_file_name_core in Hp by exact Hne.
  assert (p <> dir) as Hpd.
  { rewrite Hp. intros E. apply (f_equal length) in E.
    rewrite length_app in E. simpl in E. lia. }
  assert (is_dir w1 dir = true) as Hdir1.
  { apply is_dir_node. apply is_dir_node in Hdir. rewrite <- Hdir.
    destruct dir as [|c dir]; [reflexivity|]. simpl. rewrite Hfs.
    apply lookup_insert_ne. exact Hpd. }
  assert (exists data, fs v !! p = Some (File data)) as [data Hfile].
  { destruct Hv as (_ & _ & Hk). specialize (Hk p).
    rewrite Hfs, lookup_insert_eq in Hk. exact Hk. }
  rewrite save_template_to_disk_run. cbv zeta.
  rewrite template_file_name_core by exact Hne. rewrite <- Hp.
  unfold after_name. rewrite is_nonempty_core by exact Hne.
  assert (parent p = dir) as Hparent by (rewrite Hp; apply parent_snoc).
  rewrite write_text_run, Hparent.
  assert (node_at (tick v) dir = Some Dir) as ->.
  { apply is_dir_node. eapply (extends_is_dir w1 v); eassumption. }
  assert (node_at (tick v) p = Some (File data)) as ->.
  { rewrite Hp, node_at_snoc, <- Hp. exact Hfile. }
  assert (denied (tick v) p = false) as ->.
  { destruct Hv as (_ & Hd & _). simpl. rewrite Hd, Hden1. exact Hden. }
  eexists. split; [reflexivity|]. split; [|split; reflexivity].
  intros q. simpl. destruct (decide (p = q)) as [<-|Hq].
  - rewrite lookup_insert_eq, Hfile. reflexivity.
  - rewrite lookup_insert_ne by exact Hq. reflexivity.
Qed.

Lemma grows_save_template_to_disk title content dir :
  grows (save_template_to_disk title content (Some dir)).
Proof.
  intros w r w' H. apply (save_template_to_disk_steps (fun _ => True)) in H as [H _].
  eapply steps_extends, H.
Qed.

Lemma settles_template_step folder_paths t :
  name_core (title t) <> [] -> settles (template_step folder_paths t).
Proof.
  intros Hne. unfold template_step. apply settles_bind.
  - destruct (target_dir folder_paths t);
      [apply settles_ret | apply settles_get_user_templates_dir].
  - intros dir. apply settles_bind; [apply settles_save_template_to_disk, Hne | |];
      intros p; [apply settles_ret | apply grows_ret].
  - intros dir. apply grows_bind; [apply grows_save_template_to_disk|].
    intros p. apply grows_ret.
Qed.

Lemma grows_template_step folder_paths t : grows (template_step folder_paths t).
Proof.
  intros w r w' H. apply template_step_steps in H as [H _]. eapply steps_extends, H.
Qed.

Lemma settles_sync_templates folder_paths templates :
  (forall t, In t templates -> name_core (title t) <> []) ->
  settles (sync_templates folder_paths templates).
Proof.
  intros Hne. unfold sync_templates. apply settles_for_each.
  - intros [] t Ht. apply settles_template_step, Hne, Ht.
  - intros [] t. apply grows_template_step.
Qed.

(** X26.  When no folder and no template takes its name from the clock, a
    rebuild that has completed completes again when it is run on the disk
    it has left, or on a disk with more on it, and the second run makes
    and removes nothing: the same paths are directories and the same paths
    are files.  What the files hold is written anew. *)
Theorem rebuild_again_same_tree
    (folders : list Folder) (templates : list Template) (w w1 : world) :
  plain_names folders templates ->
  sync_database_to_filesystem folders templates w = (Ok tt, w1) ->
  exists w2,
    sync_database_to_filesystem folders templates w1 = (Ok tt, w2)
    /\ same_tree w1 w2.
Proof.
  intros [Hf Ht] H.
  assert (settles (sync_database_to_filesystem folders templates)) as Hs.
  { unfold sync_database_to_filesystem. apply settles_bind.
    - apply settles_sync_folders, Hf.
    - intros fp. apply settles_sync_templates, Ht.
    - intros fp w0 r w' Hrun. eapply steps_extends, sync_templates_steps, Hrun. }
  destruct (Hs _ _ _ H w1 (extends_refl w1)) as (w2 & Hrun & Hsame & _).
  exists w2. split; [exact Hrun | exact Hsame].
Qed.

Lemma rebuild_again_same_tree_witness :
  exists w2,
    sync_database_to_filesystem ex_nested [filed 2 (template_of (txt "T") (txt "raw"))]
      (snd (sync_database_to_filesystem ex_nested
              [filed 2 (template_of (txt "T") (txt "raw"))] ex_world))
    = (Ok tt, w2)
    /\ same_tree
         (snd (sync_database_to_filesystem ex_nested
                 [filed 2 (template_of (txt "T") (txt "raw"))] ex_world))
         w2.
Proof.
  apply (rebuild_again_same_tree ex_nested [filed 2 (template_of (txt "T") (txt "raw"))]
           ex_world).
  - split.
    + intros f [<-|[<-|[]]]; vm_compute; reflexivity.
    + intros t [<-|[]]. vm_compute. discriminate.
  - apply run_eq. vm_compute. reflexivity.
Defined.

(** * [update_folder] and the check for cycles *)

Lemma query_get_some folders id f :
  query_get folders id = Some f -> In f folders /\ folder_id f = id.
Proof.
  unfold query_get. intros H. apply find_some in H as [Hin Hid].
  split; [exact Hin | apply Z.eqb_eq, Hid].
Qed.

Lemma query_get_none folders id f :
  query_get folders id = None -> In f folders -> folder_id f <> id.
Proof.
  unfold query_get. intros H Hin E.
  pose proof (find_none _ _ H f Hin) as Hf. simpl in Hf.
  apply Z.eqb_neq in Hf. contradiction.
Qed.

Lemma query_get_row folders f :
  NoDup (folder_id <$> folders) -> In f folders ->
  query_get folders (folder_id f) = Some f.
Proof.
  intros Hnd Hin. destruct (query_get folders (folder_id f)) as [g|] eqn:E.
  - apply query_get_some in E as [Hg Eg]. f_equal.
    eapply unique_id; eassumption.
  - exfalso. exact (query_get_none _ _ f E Hin eq_refl).
Qed.

(** With a primary key, a folder has one parent at most. *)
Lemma parent_of_get folders id pid :
  NoDup (folder_id <$> folders) ->
  parent_of folders id pid <->
  exists f, query_get folders id = Some f /\ parent_id f = Some pid.
Proof.
  intros Hnd. split.
  - intros (f & Hin & <- & Hp). exists f. split; [apply query_get_row; assumption | exact Hp].
  - intros (f & Hget & Hp). apply query_get_some in Hget as [Hin Hid].
    exists f. auto.
Qed.

Lemma parent_of_row folders id pid :
  parent_of folders id pid -> exists f, In f folders /\ folder_id f = id.
Proof. intros (f & Hin & Hid & _). eauto. Qed.

Lemma tc_first {A} (R : relation A) x z :
  tc R x z -> exists y, R x y /\ (y = z \/ tc R y z).
Proof. intros H. inversion H; subst; eauto. Qed.

(** When the walk answers [True], the folder is the new parent or one of
    its ancestors. *)
Lemma would_create_circle_true folders depth :
  forall check target,
    would_create_circle folders depth check target = Some true ->
    check = target \/ tc (parent_of folders) target check.
Proof.
  induction depth as [|depth IH]; intros check target H; [discriminate|].
  cbn [would_create_circle] in H.
  destruct (Z.eqb_spec check target) as [->|Hne]; [left; reflexivity|]. right.
  destruct (query_get folders target) as [parent|] eqn:Hget; [|discriminate].
  destruct (parent_id parent) as [pid|] eqn:Hp; [|discriminate].
  destruct (Z.eqb pid 0); [discriminate|].
  apply query_get_some in Hget as [Hin Hid].
  assert (parent_of folders target pid) as Hstep by (exists parent; auto).
  destruct (IH _ _ H) as [->|Htc]; [apply tc_once | eapply tc_l]; eassumption.
Qed.

(** When it answers [False], the folder is neither. *)
Lemma would_create_circle_false folders depth :
  keyed folders ->
  forall check target,
    check <> 0%Z ->
    would_create_circle folders depth check target = Some false ->
    check <> target /\ ~ tc (parent_of folders) target check.
Proof.
  intros [Hnd Hz]. induction depth as [|depth IH]; intros check target Hc H; [discriminate|].
  cbn [would_create_circle] in H.
  destruct (Z.eqb_spec check target) as [->|Hne]; [discriminate|].
  split; [exact Hne|]. intros Htc.
  apply tc_first in Htc as (y & Hstep & Hy).
  apply (parent_of_get _ _ _ Hnd) in Hstep as (f & Hget & Hp).
  rewrite Hget, Hp in H.
  destruct (Z.eqb y 0) eqn:Hy0; [apply Z.eqb_eq in Hy0; subst y | apply Z.eqb_neq in Hy0].
  - destruct Hy as [<-|Hy]; [contradiction|].
    apply tc_first in Hy as (z & Hstep & _).
    apply parent_of_row in Hstep as (g & Hg & Eg). exact (Hz g Hg Eg).
  - destruct (IH _ _ Hc H) as [Hne' Hn]. destruct Hy as [->|Hy]; contradiction.
Qed.

(** On a cycle that the folder is not on, the walk never ends. *)
Lemma would_create_circle_loops folders depth :
  keyed folders ->
  forall check target,
    on_cycle folders target -> ~ tc (parent_of folders) target check ->
    would_create_circle folders depth check target = None.
Proof.
  intros [Hnd Hz]. induction depth as [|depth IH]; intros check target Hcyc Hn; [reflexivity|].
  cbn [would_create_circle].
  destruct (Z.eqb_spec check target) as [->|Hne]; [contradiction|].
  pose proof Hcyc as Hc. apply tc_first in Hc as (y & Hstep & Hy).
  assert (on_cycle folders y) as Hcy.
  { destruct Hy as [->|Hy]; [exact Hcyc|]. eapply tc_r; eassumption. }
  assert (y <> 0%Z) as Hy0.
  { intros ->. apply tc_first in Hcy as (z & Hz0 & _).
    apply parent_of_row in Hz0 as (g & Hg & Eg). exact (Hz g Hg Eg). }
  pose proof Hstep as Hstep'.
  apply (parent_of_get _ _ _ Hnd) in Hstep as (f & Hget & Hp).
  rewrite Hget, Hp. apply Z.eqb_neq in Hy0. rewrite Hy0.
  apply IH; [exact Hcy|]. intros Htc. apply Hn. eapply tc_l; eassumption.
Qed.

(** X27.  The walk decides whether moving the folder [check_folder_id] under
    [target_parent_id] closes a cycle: in a table with a primary key, it
    answers [True] exactly when the folder is the new parent or one of its
    ancestors, and [False] exactly when it is neither, whenever it answers
    within the recursion limit. *)
Theorem would_create_circle_decides
    (folders : list Folder) (depth : nat) (check_folder_id target_parent_id : Z) :
  keyed folders -> check_folder_id <> 0%Z ->
  forall answer,
    would_create_circle folders depth check_folder_id target_parent_id = Some answer ->
    (answer = true <->
     check_folder_id = target_parent_id
     \/ tc (parent_of folders) target_parent_id check_folder_id).
Proof.
  intros Hk Hc [|] H.
  - split; [intros _; eapply would_create_circle_true; exact H | reflexivity].
  - destruct (would_create_circle_false _ _ Hk _ _ Hc H) as [Hne Hn].
    split; [discriminate | intros [?|?]; contradiction].
Qed.

Lemma would_create_circle_decides_witness :
  would_create_circle ex_nested 10 1 2 = Some true
  /\ (1%Z = 2%Z \/ tc (parent_of ex_nested) 2%Z 1%Z).
Proof.
  assert (keyed ex_nested) as Hk.
  { split; [apply (bool_decide_unpack _); vm_compute; exact I|].
    intros f [<-|[<-|[]]]; discriminate. }
  split; [reflexivity|].
  apply (would_create_circle_decides ex_nested 10 1 2 Hk ltac:(discriminate) true eq_refl).
  reflexivity.
Defined.

(** ** Moving a folder keeps the table a forest *)

Lemma commit_row_ids folders g :
  folder_id <$> commit_row folders g = folder_id <$> folders.
Proof.
  unfold commit_row. induction folders as [|f l IH]; [reflexivity|].
  cbn [map fmap list_fmap]. fold (folder_id <$> l). fold (folder_id <$> map
    (fun g0 => if Z.eqb (folder_id g0) (folder_id g) then g else g0) l).
  rewrite IH. f_equal.
  destruct (Z.eqb_spec (folder_id f) (folder_id g)) as [E|_]; [symmetry; exact E | reflexivity].
Qed.

Lemma in_commit_row folders g f' :
  In f' (commit_row folders g) ->
  (f' = g /\ exists f, In f folders /\ folder_id f = folder_id g)
  \/ (In f' folders /\ folder_id f' <> folder_id g).
Proof.
  unfold commit_row. intros H. apply in_map_iff in H as (f & E & Hin).
  destruct (Z.eqb_spec (folder_id f) (folder_id g)) as [Eid|Hne]; subst f'.
  - left. split; [reflexivity | eauto].
  - right. auto.
Qed.

Lemma parent_of_commit folders g a b :
  parent_of (commit_row folders g) a b ->
  (a = folder_id g /\ parent_id g = Some b)
  \/ (a <> folder_id g /\ parent_of folders a b).
Proof.
  intros (f' & Hin & Hid & Hp). apply in_commit_row in Hin as [[-> _]|[Hin Hne]].
  - left. auto.
  - right. split; [congruence|]. exists f'. auto.
Qed.

Lemma tc_weaken {A} (S R : relation A) :
  (forall a b, S a b -> R a b) -> forall a b, tc S a b -> tc R a b.
Proof.
  intros HSR a b H. induction H as [a b H|a c b H _ IH].
  - apply tc_once, HSR, H.
  - eapply tc_l; [apply HSR, H | exact IH].
Qed.

(** Giving one node a new parent that is not below it closes no cycle. *)
Lemma reparent_acyclic {A} (R R' : relation A) (id : A) (np : option A) :
  (forall a, a = id \/ a <> id) ->
  (forall a b, R' a b -> (a = id /\ np = Some b) \/ (a <> id /\ R a b)) ->
  (forall x, ~ tc R x x) ->
  (forall b, np = Some b -> b <> id /\ ~ tc R b id) ->
  forall x, ~ tc R' x x.
Proof.
  intros Hdec Hchar Hacyc Hnew x Hcycle.
  set (S := fun a b => a <> id /\ R a b).
  assert (forall a b, rtc S a b -> rtc R a b) as HSR.
  { intros a b. apply rtc_subrel. intros u v [_ H]. exact H. }
  assert (forall a y, tc R' a y ->
            tc S a y \/ exists b, np = Some b /\ rtc S a id /\ rtc R' b y) as L1.
  { intros a y H. induction H as [a y H|a z y H Htc IH].
    - destruct (Hchar _ _ H) as [[-> Hb]|HS].
      + right. exists y. split; [exact Hb|]. split; apply rtc_refl.
      + left. apply tc_once. exact HS.
    - destruct (Hchar _ _ H) as [[-> Hb]|HS].
      + right. exists z. split; [exact Hb|]. split; [apply rtc_refl|].
        apply tc_rtc. exact Htc.
      + destruct IH as [IH|(b & Hb & H1 & H2)].
        * left. eapply tc_l; eassumption.
        * right. exists b. split; [exact Hb|]. split; [|exact H2].
          eapply rtc_l; eassumption. }
  assert (forall b y, rtc R' b y -> rtc S b y \/ rtc S b id) as L2.
  { intros b y H. induction H as [b|b z y H _ IH]; [left; apply rtc_refl|].
    destruct (Hdec b) as [->|Hb]; [right; apply rtc_refl|].
    destruct (Hchar _ _ H) as [[-> _]|HS]; [contradiction|].
    destruct IH as [IH|IH]; [left | right]; eapply rtc_l; eassumption. }
  destruct (L1 _ _ Hcycle) as [H|(b & Hb & H1 & H2)].
  - apply (Hacyc x). apply (tc_weaken S R); [|exact H]. intros a b [_ Hab]. exact Hab.
  - destruct (Hnew b Hb) as [Hne Hn].
    assert (rtc S b id) as Hreach.
    { destruct (L2 _ _ H2) as [H|H]; [|exact H]. etransitivity; eassumption. }
    apply HSR, rtc_tc in Hreach as [?|?]; contradiction.
Qed.

Lemma commit_row_keeps folders folder g :
  keyed folders -> acyclic folders ->
  In folder folders -> folder_id g = folder_id folder ->
  (forall b, parent_id g = Some b ->
     b <> folder_id g /\ ~ tc (parent_of folders) b (folder_id g)) ->
  keyed (commit_row folders g) /\ acyclic (commit_row folders g).
Proof.
  intros [Hnd Hz] Hacyc Hin Hid Hnew. split; [split|].
  - rewrite commit_row_ids. exact Hnd.
  - intros f' Hf'. apply in_commit_row in Hf' as [[-> _]|[Hf' _]]; [|apply Hz, Hf'].
    rewrite Hid. apply Hz, Hin.
  - intros x.
    apply (reparent_acyclic (parent_of folders) (parent_of (commit_row folders g))
             (folder_id g) (parent_id g)).
    + intros a. destruct (decide (a = folder_id g)); auto.
    + intros a b. apply parent_of_commit.
    + exact Hacyc.
    + exact Hnew.
Qed.

(** The id 0 is the id of no row: it has no parent. *)
Lemma zero_has_no_ancestor folders id :
  keyed folders -> ~ tc (parent_of folders) 0%Z id.
Proof.
  intros [_ Hz] H. apply tc_first in H as (y & Hstep & _).
  apply parent_of_row in Hstep as (g & Hg & Eg). exact (Hz g Hg Eg).
Qed.

Lemma field_item key data v :
  field key data = Some (Some v) -> getitem key data = Some v.
Proof.
  unfold field. destruct (contains key data) as [[|]|]; try discriminate.
  destruct (getitem key data); [|discriminate]. intros [= ->]. reflexivity.
Qed.

(** X28.  [update_folder] keeps the table a forest.  In a table with a primary
    key in which no folder is its own ancestor, and for a request whose
    [parent_id], when it has one, is an integer or a value that the
    database does not read as an integer ([null], or what it refuses or
    stores as [NULL]): whatever else the request holds and whatever the
    response, no folder is its own ancestor afterwards, and the ids are
    the same. *)
Theorem update_folder_keeps_forest
    (db : driver) (depth : nat) (folders : list Folder) (id : Z) (request : get_json) :
  keyed folders -> acyclic folders -> integer_parent db request ->
  keyed (snd (update_folder db depth folders id request))
  /\ acyclic (snd (update_folder db depth folders id request))
  /\ folder_id <$> snd (update_folder db depth folders id request) = folder_id <$> folders.
Proof.
  intros Hk Hacyc Hreq.
  assert (keyed folders /\ acyclic folders /\ folder_id <$> folders = folder_id <$> folders)
    as Hsame by auto.
  unfold update_folder.
  destruct (query_get folders id) as [folder|] eqn:Hget; [|exact Hsame].
  apply query_get_some in Hget as [Hin Hid].
  destruct request as [data| |]; [|exact Hsame|exact Hsame].
  destruct (negb (truthy data)); [exact Hsame|].
  assert (forall b, parent_id folder = Some b ->
            b <> id /\ ~ tc (parent_of folders) b id) as Hold.
  { intros b Hb. assert (parent_of folders id b) as Hstep by (exists folder; auto).
    split.
    - intros ->. apply (Hacyc id). apply tc_once. exact Hstep.
    - intros Htc. apply (Hacyc id). eapply tc_l; eassumption. }
  assert (forall name new_parent,
            (forall v b, new_parent = Some v -> integer_value db v = Some (Some b) ->
               b <> id /\ ~ tc (parent_of folders) b id) ->
            keyed (snd (commit db folders folder name new_parent))
            /\ acyclic (snd (commit db folders folder name new_parent))
            /\ folder_id <$> snd (commit db folders folder name new_parent)
               = folder_id <$> folders) as Hcommit.
  { intros name new_parent Hnew. unfold commit.
    destruct (new_name db folder name) as [n|]; [|exact Hsame].
    destruct (match new_parent with
              | Some v => integer_value db v
              | None => Some (parent_id folder)
              end) as [p|] eqn:Hp; [|exact Hsame].
    cbn [snd].
    set (row := {| folder_id := folder_id folder; folder_name := n; parent_id := p |}).
    assert (forall b, parent_id row = Some b ->
              b <> folder_id row /\ ~ tc (parent_of folders) b (folder_id row)) as Hrow.
    { cbn [row parent_id folder_id]. rewrite Hid. intros b ->.
      destruct new_parent as [v|].
      - apply (Hnew v b eq_refl Hp).
      - injection Hp as Hp. apply Hold. exact Hp. }
    destruct (commit_row_keeps folders folder row Hk Hacyc Hin eq_refl Hrow) as [H1 H2].
    split; [exact H1|]. split; [exact H2 | apply commit_row_ids]. }
  destruct (field (txt "name") data) as [name|]; [|exact Hsame].
  destruct (field (txt "parent_id") data) as [[new_parent|]|] eqn:Hfield; [| |exact Hsame].
  2:{ apply Hcommit. intros v b [=]. }
  apply field_item in Hfield.
  destruct (Hreq data new_parent eq_refl Hfield) as [[pid ->]|Hnot].
  - cbn [equals_int truthy].
    destruct (Z.eqb_spec pid id) as [->|Hne]; [exact Hsame|].
    destruct (Z.eqb_spec pid 0) as [->|Hp0]; cbn [negb].
    + apply Hcommit. intros v b [= <-] [= <-].
      split; [exact Hne | apply zero_has_no_ancestor, Hk].
    + destruct (new_name db folder name); [|exact Hsame].
      cbn [would_create_circle_first].
      destruct (would_create_circle folders depth id pid) as [[|]|] eqn:Hw;
        [exact Hsame | | exact Hsame].
      apply Hcommit. intros v b [= <-] [= <-]. split; [exact Hne|].
      eapply would_create_circle_false; [exact Hk | | exact Hw].
      rewrite <- Hid. apply Hk, Hin.
  - assert (forall v b, Some new_parent = Some v -> integer_value db v = Some (Some b) ->
              b <> id /\ ~ tc (parent_of folders) b id) as Hnone.
    { intros v b [= <-] Hb. destruct (Hnot b Hb). }
    destruct (equals_int new_parent id); [exact Hsame|].
    destruct (truthy new_parent); [|apply Hcommit, Hnone].
    destruct (new_name db folder name); [|exact Hsame].
    destruct (would_create_circle_first db folders depth id new_parent) as [[|]|];
      [exact Hsame | apply Hcommit, Hnone | exact Hsame].
Qed.

Lemma ex_nested_keyed : keyed ex_nested.
Proof.
  split; [apply (bool_decide_unpack _); vm_compute; exact I|].
  intros f [<-|[<-|[]]]; discriminate.
Qed.

Lemma ex_nested_acyclic : acyclic ex_nested.
Proof.
  intros id Hc. apply (cycle_unreachable ex_nested id (proj1 ex_nested_keyed)); [|exact Hc].
  apply tc_first in Hc as (y & (f & Hin & <- & Hp) & _).
  destruct Hin as [<-|[<-|[]]].
  - discriminate.
  - apply (reach_child ex_nested (folder_of 2 (txt "B") (Some 1%Z)) 1);
      [right; left; reflexivity | reflexivity|].
    apply (reach_root ex_nested (folder_of 1 (txt "A") None)); [left; reflexivity | reflexivity].
Qed.

Lemma update_folder_keeps_forest_witness :
  fst (update_folder ex_driver 10 ex_nested 1 (Returns (move_under 2)))
  = BadRequest (txt "400 Bad Request: This would create a circular folder dependency")
  /\ acyclic (snd (update_folder ex_driver 10 ex_nested 1 (Returns (move_under 2)))).
Proof.
  split; [reflexivity|].
  apply (update_folder_keeps_forest ex_driver 10 ex_nested 1 (Returns (move_under 2))
           ex_nested_keyed ex_nested_acyclic).
  intros data v [= <-] [= <-]. left. exists 2%Z. reflexivity.
Defined.

(** ** A table that already has a cycle *)

(** X29.  When the new parent lies on a cycle that the moved folder is not on,
    the walk never ends: whatever the recursion limit, the interpreter
    raises [RecursionError], the request is answered with the status 500,
    and the table is left as it is. *)
Theorem cycle_exhausts_recursion
    (db : driver) (depth : nat) (folders : list Folder) (id pid : Z) (folder : Folder) :
  keyed folders -> query_get folders id = Some folder ->
  on_cycle folders pid -> ~ tc (parent_of folders) pid id ->
  would_create_circle folders depth id pid = None
  /\ update_folder db depth folders id (Returns (move_under pid)) = (ServerError, folders).
Proof.
  intros Hk Hget Hcyc Hn.
  assert (would_create_circle folders depth id pid = None) as Hw
    by (apply would_create_circle_loops; assumption).
  split; [exact Hw|].
  assert (pid <> id) as Hne by (intros ->; contradiction).
  assert (pid <> 0%Z) as Hp0.
  { intros ->. exact (zero_has_no_ancestor folders 0%Z Hk Hcyc). }
  unfold update_folder. rewrite Hget.
  apply Z.eqb_neq in Hne, Hp0.
  assert (truthy (move_under pid) = true) as -> by reflexivity.
  assert (field (txt "name") (move_under pid) = Some None) as -> by reflexivity.
  assert (field (txt "parent_id") (move_under pid) = Some (Some (JInt pid))) as ->
    by reflexivity.
  cbn [negb equals_int truthy new_name would_create_circle_first].
  rewrite Hne, Hp0, Hw. reflexivity.
Qed.

Lemma cycle_exhausts_recursion_witness :
  update_folder ex_driver 1000 ex_cycle 3 (Returns (move_under 1)) = (ServerError, ex_cycle).
Proof.
  apply (cycle_exhausts_recursion ex_driver 1000 ex_cycle 3 1 (folder_of 3 (txt "C") None)).
  - split; [apply (bool_decide_unpack _); vm_compute; exact I|].
    intros f [<-|[<-|[<-|[]]]]; discriminate.
  - reflexivity.
  - eapply tc_l; [|apply tc_once].
    + exists (folder_of 1 (txt "A") (Some 2%Z)). simpl. auto.
    + exists (folder_of 2 (txt "B") (Some 1%Z)). simpl. auto.
  - assert (forall x y, tc (parent_of ex_cycle) x y -> x <> 3%Z -> y <> 3%Z) as H.
    { intros x y Htc. induction Htc as [x y Hs|x y z Hs _ IH]; intros Hx.
      - destruct Hs as (f & [<-|[<-|[<-|[]]]] & Hid & Hp); simpl in *; congruence.
      - apply IH. destruct Hs as (f & [<-|[<-|[<-|[]]]] & Hid & Hp); simpl in *; congruence. }
    intros Htc. apply (H _ _ Htc); [discriminate | reflexivity].
Defined.

(** ** A new parent that is no integer *)

(** X30.  The two guards of [update_folder] compare the value of the request
    with integers, and a string equals none: a [parent_id] given as a
    string that is not empty passes both.  When the database reads it as
    the id of the folder itself, as an integer column of SQLite reads the
    text of a number, a folder without a parent is answered with success
    and is its own parent afterwards. *)
Theorem string_parent_passes_guards
    (db : driver) (depth : nat) (folders : list Folder) (id : Z) (folder : Folder) (s : text) :
  query_get folders id = Some folder -> parent_id folder = None ->
  s <> [] -> as_integer db (JStr s) = Some (Some id) -> 0 < depth ->
  let moved :=
    {| folder_id := folder_id folder; folder_name := folder_name folder;
       parent_id := Some id |} in
  update_folder db depth folders id (Returns (JObj [(txt "parent_id", JStr s)]))
  = (Success moved, commit_row folders moved)
  /\ on_cycle (commit_row folders moved) id.
Proof.
  intros Hget Hroot Hs Hdb Hdepth moved. split.
  - unfold update_folder. rewrite Hget.
    assert (field (txt "name") (JObj [(txt "parent_id", JStr s)]) = Some None) as ->
      by reflexivity.
    assert (field (txt "parent_id") (JObj [(txt "parent_id", JStr s)])
            = Some (Some (JStr s))) as -> by reflexivity.
    cbn [truthy negb equals_int new_name].
    assert (is_nonempty s = true) as -> by (destruct s; [contradiction | reflexivity]).
    destruct depth as [|depth]; [lia|].
    cbn [would_create_circle_first equals_int integer_value].
    rewrite Hdb, Hget, Hroot.
    unfold commit. cbn [new_name integer_value]. rewrite Hdb. reflexivity.
  - apply query_get_some in Hget as [Hin Hid].
    apply tc_once. exists moved. split; [|split; [exact Hid | reflexivity]].
    unfold commit_row. apply in_map_iff. exists folder.
    split; [|exact Hin]. cbn [moved folder_id]. rewrite Z.eqb_refl. reflexivity.
Qed.

Lemma string_parent_passes_guards_witness :
  update_folder ex_driver 1000 ex_nested 1 (Returns (JObj [(txt "parent_id", JStr (txt "1"))]))
  = (Success (folder_of 1 (txt "A") (Some 1%Z)),
     [folder_of 1 (txt "A") (Some 1%Z); folder_of 2 (txt "B") (Some 1%Z)])
  /\ on_cycle [folder_of 1 (txt "A") (Some 1%Z); folder_of 2 (txt "B") (Some 1%Z)] 1.
Proof.
  apply (string_parent_passes_guards ex_driver 1000 ex_nested 1
           (folder_of 1 (txt "A") None) (txt "1"));
    [reflexivity | reflexivity | discriminate | reflexivity | lia].
Defined.
